(** * Contact manager: the contact entity, the collection, storage and the manager

    A shallow embedding of [contact_manager.py].  Python strings are read as
    sequences of code points in the range U+0000..U+00FF: a [string] of the
    standard library, one [ascii] per code point.  Exceptions are values of
    type [exn]; code that mutates an object and may raise is a function from
    the state before to an outcome and the state after, so that what has been
    mutated before an exception is raised stays mutated. *)

From Stdlib Require Import List String Ascii Bool Arith NArith ZArith Lia.
From Stdlib Require Import Permutation Sorted.
From Stdlib Require Import Strings.Byte.
From Stdlib Require Import DecimalString.
Import ListNotations.
Open Scope string_scope.
Open Scope list_scope.

(** ** Python's built-in string operations *)

Module Py.

(** [str.isspace] on one code point below U+0100: TAB..CR, FS..US, space,
    NEL and the no-break space. *)
Definition isspace (c : ascii) : bool :=
  let n := N_of_ascii c in
  (((9 <=? n) && (n <=? 13)) || ((28 <=? n) && (n <=? 32))
   || (n =? 133) || (n =? 160))%N.

(** The code points that [str.lower] changes: A..Z and the accented capitals
    U+00C0..U+00DE but the multiplication sign; each goes 32 up. *)
Definition is_upper (c : ascii) : bool :=
  let n := N_of_ascii c in
  (((65 <=? n) && (n <=? 90))
   || ((192 <=? n) && (n <=? 222) && negb (n =? 215)))%N.

(** The small letters whose capital is 32 down, in the same range. *)
Definition is_lower (c : ascii) : bool :=
  let n := N_of_ascii c in
  (((97 <=? n) && (n <=? 122))
   || ((224 <=? n) && (n <=? 254) && negb (n =? 247)))%N.

Definition lower_char (c : ascii) : ascii :=
  if is_upper c then ascii_of_N (N_of_ascii c + 32) else c.

Definition upper_char (c : ascii) : ascii :=
  if is_lower c then ascii_of_N (N_of_ascii c - 32) else c.

(** [s.lower()] *)
Fixpoint lower (s : string) : string :=
  match s with
  | EmptyString => EmptyString
  | String c s' => String (lower_char c) (lower s')
  end.

(** [s.capitalize()]: first character upper-cased, the rest lower-cased.
    The program calls it on the field names "name" and "phone" only. *)
Definition capitalize (s : string) : string :=
  match s with
  | EmptyString => EmptyString
  | String c s' => String (upper_char c) (lower s')
  end.

(** Leading whitespace removed. *)
Fixpoint lstrip (s : string) : string :=
  match s with
  | EmptyString => EmptyString
  | String c s' => if isspace c then lstrip s' else s
  end.

(** Trailing whitespace removed. *)
Fixpoint rstrip (s : string) : string :=
  match s with
  | EmptyString => EmptyString
  | String c s' =>
      let r := rstrip s' in
      if isspace c && (r =? "") then "" else String c r
  end.

(** [s.strip()]: leading and trailing whitespace removed. *)
Definition strip (s : string) : string := rstrip (lstrip s).

(** Truth value of a string: [if s] holds when [s] is not empty. *)
Definition truthy (s : string) : bool := negb (s =? "").

(** [a < b] on strings: lexicographic on code points. *)
Definition lt (a b : string) : bool := String.ltb a b.

End Py.

(** ** Exceptions *)

(** The exceptions the program meets.  The first four are subclasses of
    [Exception]; [PickleError] stands for whatever subclass of [Exception]
    [pickle.loads] raises on bytes it cannot decode.  [SystemExit] is not a
    subclass of [Exception]: it is what [pickle.loads] ends with when the
    pickle it reads calls [sys.exit]. *)
Inductive exn : Type :=
| ValueError (msg : string)
| TypeError (msg : string)
| IndexError (msg : string)
| PickleError
| SystemExit (code : Z).

(** [isinstance(e, Exception)] *)
Definition is_Exception (e : exn) : bool :=
  match e with
  | SystemExit _ => false
  | _ => true
  end.

(** ** Regular expressions, as far as [EMAIL_REGEX] needs them *)

Module Re.

Inductive regex : Type :=
| Void                         (* matches nothing *)
| Eps                          (* matches the empty string *)
| Lit (c : ascii)              (* the character c *)
| NotLit (c : ascii)           (* [^c] *)
| Cat (r1 r2 : regex)
| Alt (r1 r2 : regex)
| Star (r : regex).

(** [r+] *)
Definition Plus (r : regex) : regex := Cat r (Star r).

Fixpoint nullable (r : regex) : bool :=
  match r with
  | Void => false
  | Eps => true
  | Lit _ => false
  | NotLit _ => false
  | Cat r1 r2 => nullable r1 && nullable r2
  | Alt r1 r2 => nullable r1 || nullable r2
  | Star _ => true
  end.

Fixpoint deriv (a : ascii) (r : regex) : regex :=
  match r with
  | Void => Void
  | Eps => Void
  | Lit c => if (a =? c)%char then Eps else Void
  | NotLit c => if (a =? c)%char then Void else Eps
  | Cat r1 r2 =>
      if nullable r1
      then Alt (Cat (deriv a r1) r2) (deriv a r2)
      else Cat (deriv a r1) r2
  | Alt r1 r2 => Alt (deriv a r1) (deriv a r2)
  | Star r1 => Cat (deriv a r1) (Star r1)
  end.

(** [pattern.fullmatch(s) is not None]: the whole of [s] matches. *)
Fixpoint fullmatch (r : regex) (s : string) : bool :=
  match s with
  | EmptyString => nullable r
  | String a s' => fullmatch (deriv a r) s'
  end.

End Re.

(** ** class Contact *)

Module Contact.

Record t : Type := mk { name : string; phone : string; email : string }.

(** [re.compile(r"[^@]+@[^@]+\.[^@]+")] *)
Definition EMAIL_REGEX : Re.regex :=
  Re.Cat (Re.Plus (Re.NotLit "@"))
    (Re.Cat (Re.Lit "@")
       (Re.Cat (Re.Plus (Re.NotLit "@"))
          (Re.Cat (Re.Lit ".") (Re.Plus (Re.NotLit "@"))))).

Definition _validate_non_empty (value field : string) : exn + string :=
  let value := Py.strip value in
  if negb (Py.truthy value)
  then inl (ValueError (Py.capitalize field ++ " cannot be empty."))
  else inr value.

Definition _validate_email (email : string) : exn + string :=
  let email := Py.strip email in
  if negb (Re.fullmatch EMAIL_REGEX email)
  then inl (ValueError ("Invalid email format: " ++ email))
  else inr email.

(** [Contact(name, phone, email)]: the three fields are validated in this
    order and the first failure is the exception raised. *)
Definition __init__ (name phone email : string) : exn + t :=
  match _validate_non_empty name "name" with
  | inl e => inl e
  | inr name' =>
      match _validate_non_empty phone "phone" with
      | inl e => inl e
      | inr phone' =>
          match _validate_email email with
          | inl e => inl e
          | inr email' => inr (mk name' phone' email')
          end
      end
  end.

Definition __eq__ (self other : t) : bool :=
  Py.lower (name self) =? Py.lower (name other).

Definition __lt__ (self other : t) : bool :=
  Py.lt (Py.lower (name self)) (Py.lower (name other)).

(** [self != other], which Python derives from [__eq__]. *)
Definition __ne__ (self other : t) : bool := negb (__eq__ self other).

(** The comparisons that [functools.total_ordering] adds to the class from
    [__lt__]: [a <= b] is [(a < b) or (a == b)], [a > b] is
    [(not a < b) and (a != b)], [a >= b] is [not a < b]. *)
Definition __le__ (self other : t) : bool :=
  __lt__ self other || __eq__ self other.

Definition __gt__ (self other : t) : bool :=
  negb (__lt__ self other) && __ne__ self other.

Definition __ge__ (self other : t) : bool := negb (__lt__ self other).

(** [to_dict]: the record with keys "name", "phone" and "email", here the
    triple of its values in that order. *)
Definition to_dict (self : t) : string * string * string :=
  (name self, phone self, email self).

End Contact.

(** ** Mutable state with exceptions *)

(** A method that mutates an object of type [S] and either returns an [A] or
    raises: the outcome comes with the object as the method leaves it. *)
Definition M (S A : Type) : Type := S -> (exn + A) * S.

Definition ret {S A} (a : A) : M S A := fun s => (inr a, s).

Definition bind {S A B} (m : M S A) (k : A -> M S B) : M S B :=
  fun s =>
    match m s with
    | (inr a, s') => k a s'
    | (inl e, s') => (inl e, s')
    end.

Definition raise {S A} (e : exn) : M S A := fun s => (inl e, s).

Definition get {S} : M S S := fun s => (inr s, s).

Definition put {S} (s : S) : M S unit := fun _ => (inr tt, s).

(** [try: body  except Exception as e: handler(e)]: an exception that is no
    [Exception] goes through. *)
Definition try_except {S A} (body : M S A) (handler : exn -> M S A) : M S A :=
  fun s =>
    match body s with
    | (inr a, s') => (inr a, s')
    | (inl e, s') => if is_Exception e then handler e s' else (inl e, s')
    end.

(** [for x in l: body(x)] *)
Fixpoint for_each {S X} (body : X -> M S unit) (l : list X) : M S unit :=
  match l with
  | [] => ret tt
  | x :: l' => bind (body x) (fun _ => for_each body l')
  end.

Declare Scope py_scope.
Delimit Scope py_scope with py.
Notation "x <- m ;; k" := (bind m (fun x => k))
  (at level 61, m at next level, right associativity) : py_scope.
Notation "m ;; k" := (bind m (fun _ => k))
  (at level 61, right associativity) : py_scope.

(** ** Values passed to the collection *)

#[local] Set Warnings "-register-all".

(** The operands of [+=] and [-=] and the values [pickle.loads] can return,
    told apart as [_extend], [_remove] and [_load_contacts] tell them apart
    with [isinstance].  An operand is a value of its own; a collection
    passed to itself ([c += c], [c -= c]) is the matter of [_extend_self]
    and [_remove_self] below. *)
Inductive pyobj : Type :=
| PContact (c : Contact.t)
| PList (items : list pyobj)
| PTuple (items : list pyobj)
| PCollection (contacts : list Contact.t)      (* a ContactsCollection *)
| PDict (items : list (string * pyobj))        (* in insertion order *)
| POther (truth : bool).                       (* any other object, with its truth value *)

(** [bool(v)] *)
Definition truthy (v : pyobj) : bool :=
  match v with
  | PContact _ => true
  | PList l | PTuple l => negb (Nat.eqb (List.length l) 0)
  | PCollection cs => negb (Nat.eqb (List.length cs) 0)
  | PDict d => negb (Nat.eqb (List.length d) 0)
  | POther b => b
  end.

(** [d.values()] *)
Definition values (d : list (string * pyobj)) : list pyobj := map snd d.

(** ** class ContactsCollection *)

Module ContactsCollection.

Local Open Scope py_scope.

(** The object's state is its attribute [_contacts]. *)
Definition self : Type := list Contact.t.

(** [x in l] for a list of contacts: some element equals [x]. *)
Definition list_contains (x : Contact.t) (l : list Contact.t) : bool :=
  existsb (fun e => Contact.__eq__ e x) l.

(** [l.remove(x)] for a contact [x]: the list without its first element
    equal to [x], or nothing when there is none. *)
Fixpoint list_remove_contact (x : Contact.t) (l : list Contact.t)
  : option (list Contact.t) :=
  match l with
  | [] => None
  | e :: l' =>
      if Contact.__eq__ e x then Some l'
      else match list_remove_contact x l' with
           | Some r => Some (e :: r)
           | None => None
           end
  end.

(** [self._contacts.remove(x)]: an object that is not a contact equals no
    stored contact ([Contact.__eq__] returns [NotImplemented] for it). *)
Definition list_remove (x : pyobj) : M self unit :=
  match x with
  | PContact c =>
      l <- get ;;
      match list_remove_contact c l with
      | Some l' => put l'
      | None => raise (ValueError "list.remove(x): x not in list")
      end
  | _ => raise (ValueError "list.remove(x): x not in list")
  end.

Definition _add_contact (contact : pyobj) : M self unit :=
  match contact with
  | PContact c =>
      l <- get ;;
      if negb (list_contains c l) then put (l ++ [c]) else ret tt
  | _ => raise (TypeError "Only Contact instances are allowed.")
  end.

Definition _extend (other : pyobj) : M self unit :=
  match other with
  | PContact _ => _add_contact other
  | PList items | PTuple items => for_each _add_contact items
  | PCollection cs => for_each _add_contact (map PContact cs)
  | PDict d => for_each _add_contact (values d)
  | POther _ => raise (TypeError "Unsupported type for addition.")
  end.

Definition _remove (other : pyobj) : M self unit :=
  match other with
  | PContact _ => list_remove other
  | PList items | PTuple items => for_each list_remove items
  | PCollection cs => for_each list_remove (map PContact cs)
  | PDict d => for_each list_remove (values d)
  | POther _ => raise (TypeError "Unsupported type for removal.")
  end.

(** [for item in self: body(item)] while [body] changes the list the loop
    runs over: the list iterator keeps an index into the list as it is now
    and stops once the index is past its end.  [fuel] bounds the rounds;
    the length of the list at the start is enough when [body] never makes
    the list longer. *)
Fixpoint for_each_live (body : pyobj -> M self unit) (fuel i : nat) : M self unit :=
  match fuel with
  | O => ret tt
  | S fuel' =>
      l <- get ;;
      match nth_error l i with
      | None => ret tt
      | Some item => body (PContact item) ;; for_each_live body fuel' (S i)
      end
  end.

(** [_extend(self)] and [_remove(self)]: the collection is its own operand
    ([c += c], [c -= c]). *)
Definition _extend_self : M self unit :=
  l <- get ;; for_each_live _add_contact (List.length l) 0.

Definition _remove_self : M self unit :=
  l <- get ;; for_each_live list_remove (List.length l) 0.

(** [self += other] *)
Definition __iadd__ (other : pyobj) : M self unit := _extend other.

(** [self -= other] *)
Definition __isub__ (other : pyobj) : M self unit := _remove other.

(** [ContactsCollection(data)], run on the object being created. *)
Definition __init__ (data : option pyobj) : M self unit :=
  put [] ;;
  match data with
  | Some d => if truthy d then __iadd__ d else ret tt
  | None => ret tt
  end.

(** The collection [ContactsCollection(data)] creates, or what it raises. *)
Definition new (data : option pyobj) : exn + self :=
  match __init__ data [] with
  | (inr _, s) => inr s
  | (inl e, _) => inl e
  end.

(** [self + other]: a new collection, [self] is left as it is. *)
Definition __add__ (s : self) (other : pyobj) : exn + self :=
  match new (Some (PList (map PContact s))) with
  | inl e => inl e
  | inr n => match __iadd__ other n with
             | (inr _, n') => inr n'
             | (inl e, _) => inl e
             end
  end.

(** [self - other] *)
Definition __sub__ (s : self) (other : pyobj) : exn + self :=
  match new (Some (PList (map PContact s))) with
  | inl e => inl e
  | inr n => match __isub__ other n with
             | (inr _, n') => inr n'
             | (inl e, _) => inl e
             end
  end.

Definition __len__ (s : self) : nat := List.length s.

(** A list index as Python reads it: negative indices count from the end.
    The index is an [int]; [__setitem__] with a slice raises whatever the
    value, and is left out. *)
Definition resolve_index (index : Z) (len : nat) : option nat :=
  let i := (if index <? 0 then index + Z.of_nat len else index)%Z in
  if ((0 <=? i) && (i <? Z.of_nat len))%Z then Some (Z.to_nat i) else None.

Definition __getitem__ (index : Z) : M self Contact.t :=
  l <- get ;;
  match resolve_index index (List.length l) with
  | Some i => match nth_error l i with
              | Some c => ret c
              | None => raise (IndexError "list index out of range")
              end
  | None => raise (IndexError "list index out of range")
  end.

Fixpoint list_set (l : list Contact.t) (i : nat) (c : Contact.t) : list Contact.t :=
  match l, i with
  | [], _ => []
  | _ :: l', O => c :: l'
  | e :: l', S i' => e :: list_set l' i' c
  end.

Definition __setitem__ (index : Z) (contact : pyobj) : M self unit :=
  match contact with
  | PContact c =>
      l <- get ;;
      match resolve_index index (List.length l) with
      | Some i => put (list_set l i c)
      | None => raise (IndexError "list assignment index out of range")
      end
  | _ => raise (TypeError "Only Contact instances can be assigned.")
  end.

Definition __contains__ (contact : Contact.t) (s : self) : bool :=
  list_contains contact s.

Fixpoint insert_sorted (x : Contact.t) (l : list Contact.t) : list Contact.t :=
  match l with
  | [] => [x]
  | y :: l' => if Contact.__lt__ y x then y :: insert_sorted x l' else x :: l
  end.

(** [l.sort()]: a stable sort that compares with [__lt__] only; on a list
    of contacts every stable sort gives the list that insertion gives. *)
Fixpoint list_sort (l : list Contact.t) : list Contact.t :=
  match l with
  | [] => []
  | x :: l' => insert_sorted x (list_sort l')
  end.

Definition sort : M self unit := l <- get ;; put (list_sort l).

Definition find_by_name (name : string) (s : self) : list Contact.t :=
  filter (fun c => Py.lower (Contact.name c) =? Py.lower name) s.

Definition to_list (s : self) : list (string * string * string) :=
  map Contact.to_dict s.

End ContactsCollection.

(** ** The world outside the program *)

Definition bytes : Type := list byte.

(** What the program prints, one constructor per [print] call. *)
Inductive message : Type :=
| StorageInitialized (filename : string)   (* Storage initialized at ... *)
| FileNotFound (filename : string)         (* File not found: ... *)
| Loaded (n : nat)                         (* Loaded n contacts. *)
| ParseFailed                              (* Failed to parse saved contacts. *)
| Added (c : Contact.t)                    (* Added: ... *)
| Updated (c : Contact.t)                  (* Updated: ... *)
| Deleted (n : nat) (name : string)        (* Deleted n contact(s) named '...'. *)
| NotFound (name : string)                 (* [Info] No contact found named '...'. *)
| Error (e : exn)                          (* [Error] ... *)
| NothingToDisplay                         (* [Info] No contacts to display. *)
| ListHeader                               (* All Contacts *)
| ListLine (c : Contact.t)                 (*  - ... *)
| FoundHeader (n : nat) (name : string)    (* Found n contact(s) named '...': *)
| FoundLine (c : Contact.t).               (*  * ... *)

Inductive event : Type :=
| Printed (m : message)        (* a line on standard output *)
| Wrote (data : bytes).        (* the storage file opened for writing and written *)

(** The storage file ([None] while it does not exist) and what has happened
    so far, oldest first. *)
Record env : Type := mkEnv { disk : option bytes; trace : list event }.

Definition emit (e : event) : M env unit :=
  fun w => (inr tt, mkEnv (disk w) (trace w ++ [e])).

Definition print (m : message) : M env unit := emit (Printed m).

(** ** class StorageManager *)

Module StorageManager.

Local Open Scope py_scope.

Definition __init__ (filename : string) : M env unit :=
  w <- get ;;
  (match disk w with
   | None => put (mkEnv (Some []) (trace w))
   | Some _ => ret tt
   end) ;;
  print (StorageInitialized filename).

Definition save (data : bytes) : M env unit :=
  w <- get ;;
  put (mkEnv (Some data) (trace w)) ;;
  emit (Wrote data).

Definition load (filename : string) : M env (option bytes) :=
  w <- get ;;
  match disk w with
  | Some data => ret (Some data)
  | None => print (FileNotFound filename) ;; ret None
  end.

End StorageManager.

(** ** The pickle module *)

(** [pickle.dumps] and [pickle.loads] are the library's; the manager is
    modelled over any pair of them.  [loads] returns an object or raises;
    what it raises need not be an [Exception]. *)
Record pickle_module : Type :=
  { dumps : pyobj -> bytes;
    loads : bytes -> exn + pyobj }.

(** ** class ContactManager *)

Module ContactManager.

Local Open Scope py_scope.

Definition STORAGE_FILE : string := "contacts.dat".

(** The attribute [contacts], and the world [storage] acts on. *)
Record state : Type :=
  mkState { contacts : ContactsCollection.self; world : env }.

Definition on_contacts {A} (m : M ContactsCollection.self A) : M state A :=
  fun s =>
    match m (contacts s) with
    | (r, c') => (r, mkState c' (world s))
    end.

Definition on_world {A} (m : M env A) : M state A :=
  fun s =>
    match m (world s) with
    | (r, w') => (r, mkState (contacts s) w')
    end.

(** A constructor call that returns or raises, the state untouched. *)
Definition call {A} (r : exn + A) : M state A :=
  match r with
  | inr a => ret a
  | inl e => raise e
  end.

Section WithPickle.

Variable pickle : pickle_module.

Definition _load_contacts : M state unit :=
  raw <- on_world (StorageManager.load STORAGE_FILE) ;;
  match raw with
  | Some ((_ :: _) as raw) =>
      try_except
        (loaded <- call (loads pickle raw) ;;
         match loaded with
         | PList items =>
             for_each (fun c => on_contacts (ContactsCollection.__iadd__ c)) items ;;
             s <- get ;;
             on_world (print (Loaded (ContactsCollection.__len__ (contacts s))))
         | _ => ret tt
         end)
        (fun _ => on_world (print ParseFailed))
  | _ => ret tt
  end.

Definition _save_contacts : M state unit :=
  s <- get ;;
  let data := dumps pickle (PList (map PContact (contacts s))) in
  on_world (StorageManager.save data).

Definition __init__ : M state unit :=
  on_contacts (ContactsCollection.__init__ None) ;;
  on_world (StorageManager.__init__ STORAGE_FILE) ;;
  _load_contacts.

(** [ContactManager()] started on a given storage file. *)
Definition start (file : option bytes) : (exn + unit) * state :=
  __init__ (mkState [] (mkEnv file [])).

Definition add_contact (name phone email : string) : M state unit :=
  try_except
    (contact <- call (Contact.__init__ name phone email) ;;
     on_contacts (ContactsCollection.__iadd__ (PContact contact)) ;;
     on_contacts ContactsCollection.sort ;;
     _save_contacts ;;
     on_world (print (Added contact)))
    (fun e => on_world (print (Error e))).

(** [phone.strip() if phone else current]: [None] and the empty string
    both keep the current value. *)
Definition strip_or (arg : option string) (current : string) : string :=
  match arg with
  | Some v => if Py.truthy v then Py.strip v else current
  | None => current
  end.

Definition update_contact (name : string) (phone email : option string)
  : M state unit :=
  s <- get ;;
  match ContactsCollection.find_by_name name (contacts s) with
  | [] => on_world (print (NotFound name))
  | contact :: _ =>
      let new_phone := strip_or phone (Contact.phone contact) in
      let new_email := strip_or email (Contact.email contact) in
      try_except
        (updated <- call (Contact.__init__ (Contact.name contact) new_phone new_email) ;;
         on_contacts (ContactsCollection.__isub__ (PContact contact)) ;;
         on_contacts (ContactsCollection.__iadd__ (PContact updated)) ;;
         on_contacts ContactsCollection.sort ;;
         _save_contacts ;;
         on_world (print (Updated updated)))
        (fun e => on_world (print (Error e)))
  end.

Definition delete_contact (name : string) : M state unit :=
  s <- get ;;
  match ContactsCollection.find_by_name name (contacts s) with
  | [] => on_world (print (NotFound name))
  | matches =>
      for_each (fun c => on_contacts (ContactsCollection.__isub__ (PContact c))) matches ;;
      on_contacts ContactsCollection.sort ;;
      _save_contacts ;;
      on_world (print (Deleted (List.length matches) name))
  end.

Definition view_contacts : M state unit :=
  s <- get ;;
  if Nat.eqb (ContactsCollection.__len__ (contacts s)) 0
  then on_world (print NothingToDisplay)
  else
    on_world (print ListHeader) ;;
    for_each (fun c => on_world (print (ListLine c))) (contacts s).

Definition search_contact (name : string) : M state unit :=
  s <- get ;;
  match ContactsCollection.find_by_name name (contacts s) with
  | [] => on_world (print (NotFound name))
  | matches =>
      on_world (print (FoundHeader (List.length matches) name)) ;;
      for_each (fun c => on_world (print (FoundLine c))) matches
  end.

End WithPickle.

End ContactManager.

(** ** A reference serializer *)

(** A small self-delimiting encoding of [pyobj] with its decoder.  It is one
    instance of [pickle_module], used to run the manager on concrete files;
    the theorems about the manager hold for every instance. *)
Module RefPickle.

Definition enc_str (s : string) : bytes :=
  flat_map (fun a => [x01; byte_of_ascii a]) (list_ascii_of_string s) ++ [x00].

Definition enc_contact (c : Contact.t) : bytes :=
  x43 :: enc_str (Contact.name c) ++ enc_str (Contact.phone c)
      ++ enc_str (Contact.email c).

Fixpoint enc (v : pyobj) : bytes :=
  match v with
  | PContact c => enc_contact c
  | PList items => x5b :: flat_map enc items ++ [x5d]
  | PTuple items => x28 :: flat_map enc items ++ [x29]
  | PCollection cs => x3c :: flat_map enc_contact cs ++ [x3e]
  | PDict d =>
      x7b :: flat_map (fun kv => match kv with
                                 | (k, v') => enc_str k ++ enc v'
                                 end) d ++ [x7d]
  | POther true => [x54]
  | POther false => [x46]
  end.

Fixpoint dec_str (fuel : nat) (bs : bytes) : option (string * bytes) :=
  match fuel with
  | O => None
  | S fuel' =>
      match bs with
      | x00 :: rest => Some ("", rest)
      | x01 :: b :: rest =>
          match dec_str fuel' rest with
          | Some (s, rest') => Some (String (ascii_of_byte b) s, rest')
          | None => None
          end
      | _ => None
      end
  end.

Definition dec_contact (fuel : nat) (bs : bytes) : option (Contact.t * bytes) :=
  match dec_str fuel bs with
  | Some (n, r1) =>
      match dec_str fuel r1 with
      | Some (p, r2) =>
          match dec_str fuel r2 with
          | Some (e, r3) => Some (Contact.mk n p e, r3)
          | None => None
          end
      | None => None
      end
  | None => None
  end.

Fixpoint dec_contacts (fuel : nat) (bs : bytes) : option (list Contact.t * bytes) :=
  match fuel with
  | O => None
  | S fuel' =>
      match bs with
      | x3e :: rest => Some ([], rest)
      | x43 :: rest =>
          match dec_contact fuel' rest with
          | Some (c, r1) =>
              match dec_contacts fuel' r1 with
              | Some (cs, r2) => Some (c :: cs, r2)
              | None => None
              end
          | None => None
          end
      | _ => None
      end
  end.

Fixpoint dec (fuel : nat) (bs : bytes) : option (pyobj * bytes) :=
  match fuel with
  | O => None
  | S fuel' =>
      match bs with
      | x43 :: rest =>
          match dec_contact fuel' rest with
          | Some (c, r) => Some (PContact c, r)
          | None => None
          end
      | x5b :: rest =>
          match dec_items fuel' x5d rest with
          | Some (l, r) => Some (PList l, r)
          | None => None
          end
      | x28 :: rest =>
          match dec_items fuel' x29 rest with
          | Some (l, r) => Some (PTuple l, r)
          | None => None
          end
      | x3c :: rest =>
          match dec_contacts fuel' rest with
          | Some (cs, r) => Some (PCollection cs, r)
          | None => None
          end
      | x7b :: rest =>
          match dec_entries fuel' rest with
          | Some (d, r) => Some (PDict d, r)
          | None => None
          end
      | x54 :: rest => Some (POther true, rest)
      | x46 :: rest => Some (POther false, rest)
      | _ => None
      end
  end
with dec_items (fuel : nat) (close : byte) (bs : bytes)
  : option (list pyobj * bytes) :=
  match fuel with
  | O => None
  | S fuel' =>
      match bs with
      | [] => None
      | b :: rest =>
          if Byte.eqb b close then Some ([], rest)
          else match dec fuel' bs with
               | Some (v, r1) =>
                   match dec_items fuel' close r1 with
                   | Some (l, r2) => Some (v :: l, r2)
                   | None => None
                   end
               | None => None
               end
      end
  end
with dec_entries (fuel : nat) (bs : bytes)
  : option (list (string * pyobj) * bytes) :=
  match fuel with
  | O => None
  | S fuel' =>
      match bs with
      | x7d :: rest => Some ([], rest)
      | _ =>
          match dec_str fuel' bs with
          | Some (k, r1) =>
              match dec fuel' r1 with
              | Some (v, r2) =>
                  match dec_entries fuel' r2 with
                  | Some (d, r3) => Some ((k, v) :: d, r3)
                  | None => None
                  end
              | None => None
              end
          | None => None
          end
      end
  end.

Definition decode (bs : bytes) : exn + pyobj :=
  match dec (S (List.length bs)) bs with
  | Some (v, []) => inr v
  | _ => inl PickleError
  end.

Definition pickle : pickle_module := {| dumps := enc; loads := decode |}.

End RefPickle.

(** ** An unpickler that can exit *)

(** The reference serializer with one behaviour of CPython's [pickle.loads]
    added.  The bytes [b'csys\nexit\n(I3\ntR.'] are a pickle that asks the
    unpickler to call [sys.exit] with the argument 3; on them
    [pickle.loads] raises [SystemExit(3)]. *)
Module ExitPickle.

Definition exit_blob : bytes :=
  [x63; x73; x79; x73; x0a;          (* c sys \n *)
   x65; x78; x69; x74; x0a;          (* exit \n *)
   x28; x49; x33; x0a; x74;          (* ( I3 \n t *)
   x52; x2e].                        (* R . *)

Fixpoint bytes_eqb (a b : bytes) : bool :=
  match a, b with
  | [], [] => true
  | x :: a', y :: b' => Byte.eqb x y && bytes_eqb a' b'
  | _, _ => false
  end.

Definition decode (raw : bytes) : exn + pyobj :=
  if bytes_eqb raw exit_blob then inl (SystemExit 3) else RefPickle.decode raw.

Definition pickle : pickle_module := {| dumps := RefPickle.enc; loads := decode |}.

End ExitPickle.


(** ** The command loop: [main] of the contact manager *)

Declare Scope cli_scope.
Delimit Scope cli_scope with cli.

Module Cli.

(** What ends [main] early: [input] at the end of the input, or an exception
    that an operation of the manager lets through. *)
Inductive raised : Type :=
| EOFError
| Raised (e : exn).

(** The lines [main] prints itself, one constructor per [print] call. *)
Inductive line : Type :=
| MenuTitle            (* === Contact Manager === *)
| MenuAdd              (* 1) Add Contact *)
| MenuUpdate           (* 2) Update Contact *)
| MenuDelete           (* 3) Delete Contact *)
| MenuView             (* 4) View Contacts *)
| MenuSearch           (* 5) Search Contact *)
| MenuExit             (* 6) Exit *)
| Goodbye              (* Goodbye! *)
| InvalidChoice.       (* [Warning] Invalid choice. *)

Inductive output : Type :=
| Line (l : line)
| Prompt (text : string).      (* the prompt that [input] writes *)

(** The manager, the lines of standard input not read yet, and what [main]
    itself has written so far; what the manager prints is in its own
    trace. *)
Record session : Type :=
  mkSession { manager : ContactManager.state;
              stdin : list string;
              console : list output }.

Definition C (A : Type) : Type := session -> (raised + A) * session.

Definition ret {A} (a : A) : C A := fun s => (inr a, s).

Definition bind {A B} (m : C A) (k : A -> C B) : C B :=
  fun s =>
    match m s with
    | (inr a, s') => k a s'
    | (inl e, s') => (inl e, s')
    end.

Notation "x <- m ;; k" := (bind m (fun x => k))
  (at level 61, m at next level, right associativity) : cli_scope.
Notation "m ;; k" := (bind m (fun _ => k))
  (at level 61, right associativity) : cli_scope.

Local Open Scope cli_scope.

Definition say (l : line) : C unit :=
  fun s => (inr tt, mkSession (manager s) (stdin s) (console s ++ [Line l])).

(** [input(prompt)]: the prompt is written, then a line is read; at the end
    of the input [EOFError] is raised. *)
Definition input (prompt : string) : C string :=
  fun s =>
    let shown := console s ++ [Prompt prompt] in
    match stdin s with
    | [] => (inl EOFError, mkSession (manager s) [] shown)
    | l :: rest => (inr l, mkSession (manager s) rest shown)
    end.

(** A call of a method of the manager. *)
Definition call (op : M ContactManager.state unit) : C unit :=
  fun s =>
    match op (manager s) with
    | (inr _, m) => (inr tt, mkSession m (stdin s) (console s))
    | (inl e, m) => (inl (Raised e), mkSession m (stdin s) (console s))
    end.

(** [x if x else None] *)
Definition or_none (x : string) : option string :=
  if Py.truthy x then Some x else None.

Section WithPickle.

Variable pickle : pickle_module.

(** One round of the [while True] loop; [false] is the [break]. *)
Definition main_round : C bool :=
  say MenuTitle ;; say MenuAdd ;; say MenuUpdate ;; say MenuDelete ;;
  say MenuView ;; say MenuSearch ;; say MenuExit ;;
  choice <- input "Choose an option [1-6]: " ;;
  if (choice =? "1")%string then
    name <- input "Name: " ;;
    phone <- input "Phone: " ;;
    email <- input "Email: " ;;
    call (ContactManager.add_contact pickle name phone email) ;;
    ret true
  else if (choice =? "2")%string then
    name <- input "Name to update: " ;;
    phone <- input "New phone (leave blank to keep): " ;;
    email <- input "New email (leave blank to keep): " ;;
    call (ContactManager.update_contact pickle name (or_none phone) (or_none email)) ;;
    ret true
  else if (choice =? "3")%string then
    name <- input "Name to delete: " ;;
    call (ContactManager.delete_contact pickle name) ;;
    ret true
  else if (choice =? "4")%string then
    call ContactManager.view_contacts ;;
    ret true
  else if (choice =? "5")%string then
    name <- input "Name to search: " ;;
    call (ContactManager.search_contact name) ;;
    ret true
  else if (choice =? "6")%string then
    say Goodbye ;;
    ret false
  else
    say InvalidChoice ;;
    ret true.

(** The loop, for at most [fuel] rounds; [None] when they are used up. *)
Fixpoint main_loop (fuel : nat) (s : session) : option ((raised + unit) * session) :=
  match fuel with
  | O => None
  | S fuel' =>
      match main_round s with
      | (inr true, s') => main_loop fuel' s'
      | (inr false, s') => Some (inr tt, s')
      | (inl e, s') => Some (inl e, s')
      end
  end.

(** [main()], run on a storage file and the lines of standard input.  Every
    round reads a line, so one round more than there are lines is enough. *)
Definition main (file : option bytes) (lines : list string)
  : option ((raised + unit) * session) :=
  match ContactManager.start pickle file with
  | (inr _, m) => main_loop (S (List.length lines)) (mkSession m lines [])
  | (inl e, m) => Some (inl (Raised e), mkSession m lines [])
  end.

End WithPickle.

End Cli.

(** ** The guessing game *)

Module GuessingGame.

(** What the game prints, one constructor per [print] call and one for the
    prompt of [input]. *)
Inductive line : Type :=
| Welcome                                   (* Welcome to the Number Guessing Game! *)
| YouHaveThree                              (* You have 3 attempts to guess ... *)
| LetsStart                                 (* Let's start! *)
| Prompt                                    (* Guess a number between 1 and 100: *)
| PleaseInRange                             (* Please enter a number between 1 and 100. *)
| InvalidInput                              (* Invalid input. Please enter a number. *)
| Congratulations (number : Z) (tries : nat) (* ... guessed the number n in k attempts. *)
| TooLow                                    (* Too low! *)
| TooHigh                                   (* Too high! *)
| Sorry (number : Z).                       (* Sorry! ... The number was n. *)

Definition attempts : nat := 7.

(** How a call ends: it returns, or [input] raises [EOFError] at the end of
    the input. *)
Inductive ending (A : Type) : Type :=
| Returned (a : A)
| EndOfInput.

Arguments Returned {A} a.
Arguments EndOfInput {A}.

Section WithInt.

(** [int(s)] for a string, [None] when it raises [ValueError]; the built-in
    is taken as it is. *)
Variable int : string -> option Z.

(** The module's [number_to_guess], drawn once by [random.randint(1, 100)]. *)
Variable number_to_guess : Z.

(** [get_user_guess()], on the lines of standard input not read yet and what
    has been printed so far. *)
Fixpoint get_user_guess (stdin : list string) (out : list line)
  : ending Z * list string * list line :=
  match stdin with
  | [] => (EndOfInput, [], out ++ [Prompt])
  | l :: rest =>
      match int l with
      | Some guess =>
          if ((1 <=? guess) && (guess <=? 100))%Z
          then (Returned guess, rest, out ++ [Prompt])
          else get_user_guess rest (out ++ [Prompt; PleaseInRange])
      | None => get_user_guess rest (out ++ [Prompt; InvalidInput])
      end
  end.

(** [for attempt in range(attempts): ... else: ...] with [remaining] rounds
    to go, [attempt] being the number of the round. *)
Fixpoint rounds (remaining attempt : nat) (stdin : list string) (out : list line)
  : ending unit * list string * list line :=
  match remaining with
  | O => (Returned tt, stdin, out ++ [Sorry number_to_guess])
  | S remaining' =>
      match get_user_guess stdin out with
      | (EndOfInput, stdin', out') => (EndOfInput, stdin', out')
      | (Returned guess, stdin', out') =>
          if (guess =? number_to_guess)%Z
          then (Returned tt, stdin',
                out' ++ [Congratulations number_to_guess (attempt + 1)])
          else if (guess <? number_to_guess)%Z
               then rounds remaining' (S attempt) stdin' (out' ++ [TooLow])
               else rounds remaining' (S attempt) stdin' (out' ++ [TooHigh])
      end
  end.

Definition main (stdin : list string) : ending unit * list string * list line :=
  rounds attempts 0 stdin [Welcome; YouHaveThree; LetsStart].

End WithInt.

End GuessingGame.

(** ** Vocabulary of the specification *)

(** The language of a regular expression. *)
Inductive lang : Re.regex -> string -> Prop :=
| lang_eps : lang Re.Eps ""
| lang_lit c : lang (Re.Lit c) (String c "")
| lang_notlit c a : a <> c -> lang (Re.NotLit c) (String a "")
| lang_cat r1 r2 s1 s2 :
    lang r1 s1 -> lang r2 s2 -> lang (Re.Cat r1 r2) (s1 ++ s2)
| lang_alt_l r1 r2 s : lang r1 s -> lang (Re.Alt r1 r2) s
| lang_alt_r r1 r2 s : lang r2 s -> lang (Re.Alt r1 r2) s
| lang_star_nil r : lang (Re.Star r) ""
| lang_star_app r s1 s2 :
    lang r s1 -> lang (Re.Star r) s2 -> lang (Re.Star r) (s1 ++ s2).

(** No character of [s] is '@'. *)
Fixpoint no_at (s : string) : Prop :=
  match s with
  | EmptyString => True
  | String a s' => a <> "@"%char /\ no_at s'
  end.

(** One or more characters, none of them '@'. *)
Definition part (s : string) : Prop := s <> "" /\ no_at s.

(** The shape the specification asks of an email: a part, '@', a part, '.',
    a part, and nothing else. *)
Definition email_shape (s : string) : Prop :=
  exists x y z, part x /\ part y /\ part z /\ s = (x ++ "@" ++ y ++ "." ++ z)%string.

(** What makes a triple acceptable, in the words of the specification. *)
Definition acceptable (name phone email : string) : Prop :=
  Py.strip name <> "" /\ Py.strip phone <> "" /\ email_shape (Py.strip email).

(** Contact equality: the names agree once lower-cased. *)
Definition same_name (a b : Contact.t) : Prop :=
  Py.lower (Contact.name a) = Py.lower (Contact.name b).

Definition key (c : Contact.t) : string := Py.lower (Contact.name c).

(** No two elements of the store are equal. *)
Definition unique (cs : list Contact.t) : Prop := NoDup (map key cs).

(** The order of the store: by lower-cased name, code point by code point. *)
Definition name_le (a b : Contact.t) : Prop := String.leb (key a) (key b) = true.

Definition ordered (cs : list Contact.t) : Prop := LocallySorted name_le cs.

(** Merging one contact: appended when no stored contact equals it, the
    store left as it is otherwise. *)
Inductive merged (cs : list Contact.t) (c : Contact.t) : list Contact.t -> Prop :=
| merged_new :
    (forall e, In e cs -> ~ same_name e c) -> merged cs c (cs ++ [c])
| merged_kept :
    (exists e, In e cs /\ same_name e c) -> merged cs c cs.

(** Merging the contacts of a sequence, one after the other. *)
Inductive merged_all : list Contact.t -> list Contact.t -> list Contact.t -> Prop :=
| merged_nil cs : merged_all cs [] cs
| merged_cons cs c cs1 l cs2 :
    merged cs c cs1 -> merged_all cs1 l cs2 -> merged_all cs (c :: l) cs2.

(** Removing the first stored contact equal to [c]. *)
Inductive removed (c : Contact.t) : list Contact.t -> list Contact.t -> Prop :=
| removed_first before e after :
    (forall x, In x before -> ~ same_name x c) ->
    same_name e c ->
    removed c (before ++ e :: after) (before ++ after).

(** Removing for each contact of a sequence, in order, the first stored
    contact equal to it. *)
Inductive removed_all : list Contact.t -> list Contact.t -> list Contact.t -> Prop :=
| removed_nil cs : removed_all cs [] cs
| removed_cons cs c cs1 l cs2 :
    removed c cs cs1 -> removed_all cs1 l cs2 -> removed_all cs (c :: l) cs2.

(** The three shapes of an operand of [+=] and [-=], each with the contacts
    it carries in the order the collection meets them: one contact, a
    sequence of contacts, a mapping from names to contacts. *)
Inductive carries : pyobj -> list Contact.t -> Prop :=
| carries_contact c : carries (PContact c) [c]
| carries_list l : carries (PList (map PContact l)) l
| carries_tuple l : carries (PTuple (map PContact l)) l
| carries_collection l : carries (PCollection l) l
| carries_dict (d : list (string * Contact.t)) :
    carries (PDict (map (fun kc => (fst kc, PContact (snd kc))) d)) (map snd d).

Definition not_in_list : exn := ValueError "list.remove(x): x not in list".

(** What a bulk removal of the contacts [l] does to the store [cs]: it
    removes them all, or it has removed those before the first missing one
    when it raises. *)
Definition removal_outcome (cs l : list Contact.t)
           (r : (exn + unit) * list Contact.t) : Prop :=
  (exists cs', removed_all cs l cs' /\ r = (inr tt, cs'))
  \/ (exists before x after cs1,
         l = before ++ x :: after
         /\ removed_all cs before cs1
         /\ (forall e, In e cs1 -> ~ same_name e x)
         /\ r = (inl not_in_list, cs1)).

(** The manager's state after it has printed [m] and done nothing else:
    same contacts, same storage file, one more line on standard output. *)
Definition printed (s : ContactManager.state) (m : message) : ContactManager.state :=
  ContactManager.mkState (ContactManager.contacts s)
    (mkEnv (disk (ContactManager.world s))
       (trace (ContactManager.world s) ++ [Printed m])).

(** The manager's state after it has written [data] to the storage file. *)
Definition saved (s : ContactManager.state) (data : bytes) : ContactManager.state :=
  ContactManager.mkState (ContactManager.contacts s)
    (mkEnv (Some data) (trace (ContactManager.world s) ++ [Wrote data])).

(** The manager's state with another list of contacts. *)
Definition holding (s : ContactManager.state) (cs : list Contact.t)
  : ContactManager.state :=
  ContactManager.mkState cs (ContactManager.world s).

(** No stored contact has the name [name], case apart. *)
Definition absent (name : string) (cs : list Contact.t) : Prop :=
  forall c, In c cs -> Py.lower (Contact.name c) <> Py.lower name.

(** A contact that the constructor has made. *)
Definition constructed (c : Contact.t) : Prop :=
  exists name phone email, Contact.__init__ name phone email = inr c.

(** The contact with the lower-cased name [k]. *)
Definition has_key (k : string) (c : Contact.t) : bool := (key c =? k)%string.

(** What comes back when the store is saved and the file is then loaded and
    unpickled ([None] if the save raised or the file was not there). *)
Definition saved_then_loaded (pickle : pickle_module) (s : ContactManager.state)
  : option (exn + pyobj) :=
  match ContactManager._save_contacts pickle s with
  | (inr _, s1) =>
      match StorageManager.load ContactManager.STORAGE_FILE (ContactManager.world s1) with
      | (inr (Some raw), _) => Some (loads pickle raw)
      | _ => None
      end
  | (inl _, _) => None
  end.

(** The manager's state when [__init__] has set up the contacts and the
    storage and is about to load the file. *)
Definition fresh (raw : bytes) : ContactManager.state :=
  ContactManager.mkState []
    (mkEnv (Some raw) [Printed (StorageInitialized ContactManager.STORAGE_FILE)]).

(** One call of an operation of the manager. *)
Inductive call_step (pickle : pickle_module) (s : ContactManager.state)
  : ContactManager.state -> Prop :=
| step_add name phone email :
    call_step pickle s (snd (ContactManager.add_contact pickle name phone email s))
| step_update name phone email :
    call_step pickle s (snd (ContactManager.update_contact pickle name phone email s))
| step_delete name :
    call_step pickle s (snd (ContactManager.delete_contact pickle name s))
| step_view :
    call_step pickle s (snd (ContactManager.view_contacts s))
| step_search name :
    call_step pickle s (snd (ContactManager.search_contact name s)).

(** The states of a manager started on the storage file [file].  The state
    [ContactManager()] leaves counts among them also when it raises and no
    manager comes to be: what holds of all of these holds of every
    manager. *)
Inductive reachable (pickle : pickle_module) (file : option bytes)
  : ContactManager.state -> Prop :=
| reach_start : reachable pickle file (snd (ContactManager.start pickle file))
| reach_step s s' :
    reachable pickle file s -> call_step pickle s s' -> reachable pickle file s'.

(** The contacts that do not have the name [name], case apart. *)
Definition others (name : string) (cs : list Contact.t) : list Contact.t :=
  filter (fun c => negb (Py.lower (Contact.name c) =? Py.lower name)%string) cs.

(** The manager's state after it has printed the lines [ms], in this
    order, and done nothing else. *)
Definition said (s : ContactManager.state) (ms : list message) : ContactManager.state :=
  ContactManager.mkState (ContactManager.contacts s)
    (mkEnv (disk (ContactManager.world s))
       (trace (ContactManager.world s) ++ map Printed ms)).

(** The guess a line of input stands for: the number it reads as, when it
    reads as one from 1 to 100. *)
Definition counts (int : string -> option Z) (l : string) : option Z :=
  match int l with
  | Some g => if ((1 <=? g) && (g <=? 100))%Z then Some g else None
  | None => None
  end.

(** The guesses that count among the lines of input, in order. *)
Fixpoint valid_guesses (int : string -> option Z) (stdin : list string) : list Z :=
  match stdin with
  | [] => []
  | l :: rest =>
      match counts int l with
      | Some g => g :: valid_guesses int rest
      | None => valid_guesses int rest
      end
  end.

(** What the game answers to a line that does not count. *)
Definition complaint (int : string -> option Z) (l : string) : GuessingGame.line :=
  match int l with
  | Some _ => GuessingGame.PleaseInRange
  | None => GuessingGame.InvalidInput
  end.

(** What is printed while the lines [skipped] are read and turned down. *)
Definition turned_down (int : string -> option Z) (skipped : list string)
  : list GuessingGame.line :=
  flat_map (fun l => [GuessingGame.Prompt; complaint int l]) skipped.

(** The hint for a wrong guess. *)
Definition hint (number g : Z) : GuessingGame.line :=
  if (g <? number)%Z then GuessingGame.TooLow else GuessingGame.TooHigh.

Definition is_hint (l : GuessingGame.line) : bool :=
  match l with
  | GuessingGame.TooLow | GuessingGame.TooHigh => true
  | _ => false
  end.

(** The guesses before the first one that is the number. *)
Fixpoint wrong_guesses (number : Z) (guesses : list Z) : list Z :=
  match guesses with
  | [] => []
  | g :: gs => if (g =? number)%Z then [] else g :: wrong_guesses number gs
  end.

(** Decimal digits read as a number, and a number written in decimal
    digits: one instance of [int] and its inverse, to run the game. *)
Definition decimal (s : string) : option Z :=
  option_map Z.of_int (NilZero.int_of_string s).

Definition show (g : Z) : string := NilZero.string_of_int (Z.to_int g).

(** A player who halves the interval the number can be in: the guess after
    the hints received so far, the interval being [lo..hi] before them. *)
Fixpoint bisect (lo hi : Z) (hints : list GuessingGame.line) : Z :=
  let g := ((lo + hi) / 2)%Z in
  match hints with
  | [] => g
  | GuessingGame.TooLow :: hints' => bisect (g + 1) hi hints'
  | _ :: hints' => bisect lo (g - 1) hints'
  end.

(** The guesses a player makes against the number, for at most [tries]
    guesses, each chosen from the hints to the guesses before. *)
Fixpoint play (player : list GuessingGame.line -> Z) (number : Z) (tries : nat)
         (hints : list GuessingGame.line) : list Z :=
  match tries with
  | O => []
  | S tries' =>
      let g := player hints in
      if (g =? number)%Z then [g]
      else g :: play player number tries' (hints ++ [hint number g])
  end.

(** How [remaining] rounds end and what they print, from the guesses that
    count among the lines still to read. *)
Definition rounds_end (int : string -> option Z) (number : Z)
           (remaining attempt : nat) (valid : list Z)
           (r : GuessingGame.ending unit * list string * list GuessingGame.line)
  : Prop :=
  (exists k,
      k < remaining
      /\ nth_error valid k = Some number
      /\ ~ In number (firstn k valid)
      /\ fst (fst r) = GuessingGame.Returned tt
      /\ last (snd r) GuessingGame.Welcome
         = GuessingGame.Congratulations number (attempt + k + 1)
      /\ valid_guesses int (snd (fst r)) = skipn (S k) valid)
  \/ (remaining <= List.length valid
      /\ ~ In number (firstn remaining valid)
      /\ fst (fst r) = GuessingGame.Returned tt
      /\ last (snd r) GuessingGame.Welcome = GuessingGame.Sorry number
      /\ valid_guesses int (snd (fst r)) = skipn remaining valid)
  \/ (List.length valid < remaining
      /\ ~ In number valid
      /\ fst (fst r) = GuessingGame.EndOfInput
      /\ snd (fst r) = []).

(** The numbers the secret can be. *)
Definition secrets : list Z := map Z.of_nat (seq 1 100).

(** The guesses are from 1 to 100, at most seven, and the number is one of
    them. *)
Definition finds (number : Z) (guesses : list Z) : bool :=
  forallb (fun g => ((1 <=? g) && (g <=? 100))%Z) guesses
  && Nat.leb (List.length guesses) 7
  && existsb (fun g => (g =? number)%Z) guesses.

(** Every second element of a list: those at the places 1, 3, 5, ... *)
Fixpoint every_second {A : Type} (l : list A) : list A :=
  match l with
  | _ :: y :: l' => y :: every_second l'
  | _ => []
  end.

Definition alice : Contact.t := Contact.mk "Alice" "555-1111" "alice@example.com".
Definition alice2 : Contact.t := Contact.mk "ALICE" "555-2222" "alice2@example.com".
Definition bob : Contact.t := Contact.mk "Bob" "555-0000" "bob@example.com".
Definition carol : Contact.t := Contact.mk "Carol" "555-4444" "carol@example.com".

(** The bytes do not unpickle to a list of contacts. *)
Definition not_a_contact_list (pickle : pickle_module) (raw : bytes) : Prop :=
  forall l, loads pickle raw <> inr (PList (map PContact l)).

(** A storage file that holds a list of a contact and an object that is no
    contact, and one that holds no list at all. *)
Definition mixed_blob : bytes := RefPickle.enc (PList [PContact alice; POther true]).

Definition s_alice : ContactManager.state :=
  ContactManager.mkState [alice] (mkEnv (Some []) []).

(** * Properties *)

(** ** Strings *)

Lemma append_eq_nil (s1 s2 : string) :
  (s1 ++ s2)%string = "" -> s1 = "" /\ s2 = "".
Proof. destruct s1; simpl; intros H; [auto | discriminate]. Qed.

Lemma rstrip_idempotent (s : string) : Py.rstrip (Py.rstrip s) = Py.rstrip s.
Proof.
  induction s as [|a s IH]; simpl; [reflexivity|].
  destruct (Py.isspace a) eqn:Ha; simpl.
  - destruct (String.eqb_spec (Py.rstrip s) "") as [E|E]; simpl; [reflexivity|].
    rewrite IH, Ha. simpl.
    destruct (String.eqb_spec (Py.rstrip s) ""); [contradiction | reflexivity].
  - now rewrite IH, Ha.
Qed.

(** A string that starts with a character that is no whitespace keeps it
    under [rstrip]. *)
Lemma rstrip_head (a : ascii) (s : string) :
  Py.isspace a = false -> Py.rstrip (String a s) = String a (Py.rstrip s).
Proof. intros Ha. simpl. now rewrite Ha. Qed.

Lemma lstrip_head (s : string) :
  Py.lstrip s = "" \/ exists a t, Py.lstrip s = String a t /\ Py.isspace a = false.
Proof.
  induction s as [|a s IH]; simpl; [now left|].
  destruct (Py.isspace a) eqn:Ha; [exact IH|].
  right. now exists a, s.
Qed.

Lemma strip_idempotent (s : string) : Py.strip (Py.strip s) = Py.strip s.
Proof.
  unfold Py.strip.
  destruct (lstrip_head s) as [E | (a & t & E & Ha)]; rewrite E.
  - reflexivity.
  - rewrite (rstrip_head a t Ha). simpl Py.lstrip. rewrite Ha.
    rewrite <- (rstrip_head a t Ha). apply rstrip_idempotent.
Qed.

(** ** The regular expression matcher *)

Lemma nullable_lang (r : Re.regex) : Re.nullable r = true <-> lang r "".
Proof.
  induction r; simpl; split; intros H;
    try discriminate; try solve [constructor]; try solve [inversion H].
  - apply andb_true_iff in H as [H1 H2].
    change "" with ("" ++ "")%string. constructor; [now apply IHr1 | now apply IHr2].
  - inversion H; subst.
    match goal with
    | E : (_ ++ _)%string = "" |- _ => apply append_eq_nil in E as [-> ->]
    end.
    apply andb_true_iff. split; [now apply IHr1 | now apply IHr2].
  - apply orb_true_iff in H as [H|H];
      [apply lang_alt_l; now apply IHr1 | apply lang_alt_r; now apply IHr2].
  - apply orb_true_iff.
    inversion H; subst; [left; now apply IHr1 | right; now apply IHr2].
Qed.

Lemma deriv_sound (r : Re.regex) :
  forall a s, lang (Re.deriv a r) s -> lang r (String a s).
Proof.
  induction r; intros a s H; simpl in H.
  - inversion H.
  - inversion H.
  - destruct (Ascii.eqb_spec a c); inversion H; subst. constructor.
  - destruct (Ascii.eqb_spec a c); inversion H; subst. now constructor.
  - assert (Hcat : forall s, lang (Re.Cat (Re.deriv a r1) r2) s ->
                             lang (Re.Cat r1 r2) (String a s)).
    { intros s0 H0. inversion H0; subst.
      change (String a (s1 ++ s2)) with (String a s1 ++ s2)%string.
      constructor; [now apply IHr1 | assumption]. }
    destruct (Re.nullable r1) eqn:N.
    + inversion H; subst; [now apply Hcat|].
      change (String a s) with ("" ++ String a s)%string.
      constructor; [now apply nullable_lang | now apply IHr2].
    + now apply Hcat.
  - inversion H; subst;
      [apply lang_alt_l; now apply IHr1 | apply lang_alt_r; now apply IHr2].
  - inversion H; subst.
    change (String a (s1 ++ s2)) with (String a s1 ++ s2)%string.
    apply lang_star_app; [now apply IHr | assumption].
Qed.

Lemma deriv_complete (r : Re.regex) (w : string) :
  lang r w -> forall a s, w = String a s -> lang (Re.deriv a r) s.
Proof.
  induction 1 as [ | c | c b Hb | r1 r2 s1 s2 H1 IH1 H2 IH2
                 | r1 r2 s0 H0 IH0 | r1 r2 s0 H0 IH0
                 | r | r s1 s2 H1 IH1 H2 IH2 ];
    intros a s E; simpl.
  - discriminate.
  - injection E as <- <-. rewrite Ascii.eqb_refl. constructor.
  - injection E as <- <-.
    destruct (Ascii.eqb_spec b c); [contradiction | constructor].
  - destruct s1 as [|b s1]; simpl in E.
    + assert (N : Re.nullable r1 = true) by now apply nullable_lang.
      rewrite N. apply lang_alt_r. now apply IH2.
    + injection E as <- <-.
      assert (Hc : lang (Re.Cat (Re.deriv b r1) r2) (s1 ++ s2)%string)
        by (constructor; [now apply IH1 | assumption]).
      destruct (Re.nullable r1); [now apply lang_alt_l | assumption].
  - apply lang_alt_l. now apply IH0.
  - apply lang_alt_r. now apply IH0.
  - discriminate.
  - destruct s1 as [|b s1]; simpl in E.
    + now apply IH2.
    + injection E as <- <-. constructor; [now apply IH1 | assumption].
Qed.

(** The matcher decides the language. *)
Lemma fullmatch_lang (s : string) :
  forall r, Re.fullmatch r s = true <-> lang r s.
Proof.
  induction s as [|a s IH]; intros r; simpl.
  - apply nullable_lang.
  - rewrite IH. split; [apply deriv_sound | intros H; now apply (deriv_complete r (String a s) H)].
Qed.

Lemma star_notlit_no_at (s : string) :
  lang (Re.Star (Re.NotLit "@")) s <-> no_at s.
Proof.
  split.
  - intros H. remember (Re.Star (Re.NotLit "@")) as r eqn:Er.
    induction H; try discriminate.
    + exact I.
    + injection Er as Er. subst r.
      inversion H; subst. simpl. split; [assumption | now apply IHlang2].
  - induction s as [|a s IH]; intros H.
    + constructor.
    + destruct H as [Ha Hs].
      change (String a s) with (String a "" ++ s)%string.
      apply lang_star_app; [now constructor | now apply IH].
Qed.

Lemma plus_notlit_part (s : string) :
  lang (Re.Plus (Re.NotLit "@")) s <-> part s.
Proof.
  unfold Re.Plus, part. split.
  - intros H. inversion H; subst.
    match goal with
    | H1 : lang (Re.NotLit _) _ |- _ => inversion H1; subst
    end.
    simpl. split; [discriminate|].
    split; [assumption | now apply star_notlit_no_at].
  - intros [Hne Hs]. destruct s as [|a s]; [contradiction|].
    destruct Hs as [Ha Hs].
    change (String a s) with (String a "" ++ s)%string.
    constructor; [now constructor | now apply star_notlit_no_at].
Qed.

(** [EMAIL_REGEX] matches the whole of a string exactly when the string has
    the shape the specification describes. *)
Lemma EMAIL_REGEX_shape (s : string) :
  Re.fullmatch Contact.EMAIL_REGEX s = true <-> email_shape s.
Proof.
  rewrite fullmatch_lang. unfold Contact.EMAIL_REGEX, email_shape. split.
  - intros H.
    inversion H as [| | |? ? x r1 Hx H1| | | |]; subst.
    inversion H1 as [| | |? ? a r2 Ha H2| | | |]; subst.
    inversion H2 as [| | |? ? y r3 Hy H3| | | |]; subst.
    inversion H3 as [| | |? ? d z Hd Hz| | | |]; subst.
    inversion Ha; subst. inversion Hd; subst.
    exists x, y, z. repeat split; try (now apply plus_notlit_part).
  - intros (x & y & z & Hx & Hy & Hz & ->).
    constructor; [now apply plus_notlit_part|].
    constructor; [constructor|].
    constructor; [now apply plus_notlit_part|].
    constructor; [constructor | now apply plus_notlit_part].
Qed.

(** ** Contact construction *)

Lemma truthy_nonempty (s : string) : Py.truthy s = true <-> s <> "".
Proof.
  unfold Py.truthy. destruct (String.eqb_spec s ""); simpl; split; intros H;
    try discriminate; try contradiction; auto.
Qed.

Lemma validate_non_empty_ok (value field : string) :
  Py.strip value <> "" ->
  Contact._validate_non_empty value field = inr (Py.strip value).
Proof.
  intros H. unfold Contact._validate_non_empty.
  apply truthy_nonempty in H. now rewrite H.
Qed.

Lemma validate_non_empty_fails (value field : string) :
  Py.strip value = "" ->
  Contact._validate_non_empty value field
  = inl (ValueError (Py.capitalize field ++ " cannot be empty.")).
Proof.
  intros H. unfold Contact._validate_non_empty. now rewrite H.
Qed.

Lemma validate_email_ok (email : string) :
  email_shape (Py.strip email) ->
  Contact._validate_email email = inr (Py.strip email).
Proof.
  intros H. unfold Contact._validate_email.
  apply EMAIL_REGEX_shape in H. now rewrite H.
Qed.

Lemma validate_email_fails (email : string) :
  ~ email_shape (Py.strip email) ->
  Contact._validate_email email
  = inl (ValueError ("Invalid email format: " ++ Py.strip email)).
Proof.
  intros H. unfold Contact._validate_email.
  destruct (Re.fullmatch Contact.EMAIL_REGEX (Py.strip email)) eqn:E;
    [|reflexivity].
  apply EMAIL_REGEX_shape in E. contradiction.
Qed.

Lemma init_ok (name phone email : string) :
  acceptable name phone email ->
  Contact.__init__ name phone email
  = inr (Contact.mk (Py.strip name) (Py.strip phone) (Py.strip email)).
Proof.
  intros (Hn & Hp & He). unfold Contact.__init__.
  now rewrite (validate_non_empty_ok _ _ Hn), (validate_non_empty_ok _ _ Hp),
    (validate_email_ok _ He).
Qed.

Lemma init_fails (name phone email : string) :
  ~ acceptable name phone email ->
  exists msg, Contact.__init__ name phone email = inl (ValueError msg).
Proof.
  intros H. unfold Contact.__init__.
  destruct (string_dec (Py.strip name) "") as [En|En].
  { rewrite (validate_non_empty_fails _ _ En). eauto. }
  rewrite (validate_non_empty_ok _ _ En).
  destruct (string_dec (Py.strip phone) "") as [Ep|Ep].
  { rewrite (validate_non_empty_fails _ _ Ep). eauto. }
  rewrite (validate_non_empty_ok _ _ Ep).
  rewrite validate_email_fails; [eauto|].
  intros He. apply H. now repeat split.
Qed.

(** A triple is acceptable or the constructor raises a [ValueError]. *)
Lemma init_cases (name phone email : string) :
  acceptable name phone email
  \/ exists msg, Contact.__init__ name phone email = inl (ValueError msg).
Proof.
  destruct (string_dec (Py.strip name) "") as [En|En];
    [right; apply init_fails; now intros (? & _)|].
  destruct (string_dec (Py.strip phone) "") as [Ep|Ep];
    [right; apply init_fails; now intros (_ & ? & _)|].
  destruct (Re.fullmatch Contact.EMAIL_REGEX (Py.strip email)) eqn:Ee.
  - left. repeat split; try assumption. now apply EMAIL_REGEX_shape.
  - right. apply init_fails. intros (_ & _ & He).
    apply EMAIL_REGEX_shape in He. congruence.
Qed.

(** What the constructor raises is an [Exception]. *)
Lemma init_raises (name phone email : string) (e : exn) :
  Contact.__init__ name phone email = inl e -> is_Exception e = true.
Proof.
  intros H. destruct (init_cases name phone email) as [A | [msg Hm]].
  - rewrite (init_ok name phone email A) in H. discriminate.
  - rewrite Hm in H. now injection H as <-.
Qed.

(** C4. For every triple (name, phone, email), constructing a contact strips
    the three fields; it succeeds exactly when the stripped name and the
    stripped phone are not empty and the whole stripped email has the shape
    part '@' part '.' part, a part being one or more characters other than
    '@'; the contact made then holds the stripped fields and [to_dict]
    returns exactly them; in every other case the construction raises a
    [ValueError]. *)
Theorem contact_construction (name phone email : string) :
  let n := Py.strip name in
  let p := Py.strip phone in
  let e := Py.strip email in
  ((exists c, Contact.__init__ name phone email = inr c)
   <-> (n <> "" /\ p <> "" /\ email_shape e))
  /\ (forall c, Contact.__init__ name phone email = inr c ->
                c = Contact.mk n p e /\ Contact.to_dict c = (n, p, e))
  /\ ((forall c, Contact.__init__ name phone email <> inr c) ->
      exists msg, Contact.__init__ name phone email = inl (ValueError msg)).
Proof.
  intros n p e. subst n p e.
  pose proof (init_cases name phone email) as D.
  split; [split|split].
  - intros [c Hc]. destruct D as [A | [msg Hm]]; [exact A | congruence].
  - intros A. eexists. apply init_ok. exact A.
  - intros c Hc. destruct D as [A | [msg Hm]]; [|congruence].
    rewrite (init_ok _ _ _ A) in Hc. injection Hc as <-. now split.
  - intros H. destruct D as [A | D]; [|exact D].
    exfalso. eapply H. apply init_ok. exact A.
Qed.

(** ** Sequencing *)

Lemma for_each_nil {S X} (body : X -> M S unit) (s : S) :
  for_each body [] s = (inr tt, s).
Proof. reflexivity. Qed.

Lemma for_each_cons_ok {S X} (body : X -> M S unit) (x : X) (l : list X) (s s' : S) :
  body x s = (inr tt, s') -> for_each body (x :: l) s = for_each body l s'.
Proof. intros H. cbn [for_each]. unfold bind. now rewrite H. Qed.

Lemma for_each_cons_raise {S X} (body : X -> M S unit) (x : X) (l : list X)
      (s s' : S) (e : exn) :
  body x s = (inl e, s') -> for_each body (x :: l) s = (inl e, s').
Proof. intros H. cbn [for_each]. unfold bind. now rewrite H. Qed.

Lemma for_each_app_ok {S X} (body : X -> M S unit) (l1 l2 : list X) :
  forall s s', for_each body l1 s = (inr tt, s') ->
               for_each body (l1 ++ l2) s = for_each body l2 s'.
Proof.
  induction l1 as [|x l1 IH]; intros s s' H.
  - rewrite for_each_nil in H. now injection H as ->.
  - cbn [app for_each] in *. unfold bind in *.
    destruct (body x s) as [[e|[]] s1]; [discriminate|]. now apply IH.
Qed.

(** ** Contact equality *)

Lemma eq_same_name (a b : Contact.t) :
  Contact.__eq__ a b = true <-> same_name a b.
Proof. unfold Contact.__eq__, same_name. apply String.eqb_eq. Qed.

Lemma eq_not_same_name (a b : Contact.t) :
  Contact.__eq__ a b = false <-> ~ same_name a b.
Proof. unfold Contact.__eq__, same_name. apply String.eqb_neq. Qed.

Lemma list_contains_true (c : Contact.t) (cs : list Contact.t) :
  ContactsCollection.list_contains c cs = true
  <-> exists e, In e cs /\ same_name e c.
Proof.
  unfold ContactsCollection.list_contains. rewrite existsb_exists.
  split; intros (e & He & H); exists e; split; try assumption;
    now apply eq_same_name.
Qed.

Lemma list_contains_false (c : Contact.t) (cs : list Contact.t) :
  ContactsCollection.list_contains c cs = false
  <-> forall e, In e cs -> ~ same_name e c.
Proof.
  split.
  - intros H e He Hs.
    assert (T : ContactsCollection.list_contains c cs = true)
      by (apply list_contains_true; now exists e).
    congruence.
  - intros H.
    destruct (ContactsCollection.list_contains c cs) eqn:E; [|reflexivity].
    apply list_contains_true in E as (e & He & Hs). now destruct (H e He).
Qed.

Lemma list_contains_key (c : Contact.t) (cs : list Contact.t) :
  ContactsCollection.list_contains c cs = true <-> In (key c) (map key cs).
Proof.
  rewrite list_contains_true, in_map_iff.
  split; intros (e & H1 & H2); exists e; split; auto; now symmetry.
Qed.

(** ** Merging *)

Lemma add_contact_merged (c : Contact.t) (cs : list Contact.t) :
  exists cs',
    ContactsCollection._add_contact (PContact c) cs = (inr tt, cs')
    /\ merged cs c cs'.
Proof.
  unfold ContactsCollection._add_contact, bind, get. simpl.
  destruct (ContactsCollection.list_contains c cs) eqn:E; simpl.
  - exists cs. split; [reflexivity|].
    apply merged_kept. now apply list_contains_true.
  - exists (cs ++ [c]). split; [reflexivity|].
    apply merged_new. now apply list_contains_false.
Qed.

Lemma for_each_add_merged (l : list Contact.t) :
  forall cs, exists cs',
    for_each ContactsCollection._add_contact (map PContact l) cs = (inr tt, cs')
    /\ merged_all cs l cs'.
Proof.
  induction l as [|c l IH]; intros cs; cbn [map].
  - exists cs. split; [reflexivity | constructor].
  - destruct (add_contact_merged c cs) as (cs1 & E1 & M1).
    destruct (IH cs1) as (cs2 & E2 & M2).
    exists cs2. split; [|econstructor; eassumption].
    now rewrite (for_each_cons_ok _ _ _ _ _ E1).
Qed.

Lemma values_of_contacts (d : list (string * Contact.t)) :
  values (map (fun kc => (fst kc, PContact (snd kc))) d)
  = map PContact (map snd d).
Proof. unfold values. rewrite !map_map. reflexivity. Qed.

Lemma extend_merged (input : pyobj) (l cs : list Contact.t) :
  carries input l ->
  exists cs',
    ContactsCollection._extend input cs = (inr tt, cs') /\ merged_all cs l cs'.
Proof.
  intros C. destruct C; cbn [ContactsCollection._extend];
    try apply for_each_add_merged.
  - destruct (add_contact_merged c cs) as (cs' & E & M).
    exists cs'. split; [assumption|]. econstructor; [eassumption | constructor].
  - rewrite values_of_contacts. apply for_each_add_merged.
Qed.

Lemma merged_present (cs : list Contact.t) (c : Contact.t) (cs' : list Contact.t) :
  merged cs c cs' -> exists e, In e cs' /\ same_name e c.
Proof.
  intros [H | (e & He & Hs)].
  - exists c. split; [apply in_or_app; right; now left | reflexivity].
  - now exists e.
Qed.

Lemma merged_grows (cs : list Contact.t) (c : Contact.t) (cs' : list Contact.t) :
  merged cs c cs' -> forall e, In e cs -> In e cs'.
Proof.
  intros [H | H] e He; [apply in_or_app; now left | assumption].
Qed.

Lemma merged_all_present (cs l cs' : list Contact.t) :
  merged_all cs l cs' ->
  (forall e, In e cs -> In e cs')
  /\ (forall c, In c l -> exists e, In e cs' /\ same_name e c).
Proof.
  induction 1 as [cs | cs c cs1 l cs2 M1 M2 [IHa IHb]].
  - split; [auto | intros c []].
  - split.
    + intros e He. apply IHa. eapply merged_grows; eassumption.
    + intros x [<- | Hx]; [|now apply IHb].
      destruct (merged_present _ _ _ M1) as (e & He & Hs).
      exists e. split; [now apply IHa | assumption].
Qed.

Lemma for_each_add_present (l : list Contact.t) (cs : list Contact.t) :
  (forall c, In c l -> exists e, In e cs /\ same_name e c) ->
  for_each ContactsCollection._add_contact (map PContact l) cs = (inr tt, cs).
Proof.
  induction l as [|c l IH]; intros H; cbn [map]; [reflexivity|].
  rewrite (for_each_cons_ok _ _ _ cs cs).
  - apply IH. intros x Hx. apply H. now right.
  - assert (P : ContactsCollection.list_contains c cs = true)
      by (apply list_contains_true; apply H; now left).
    unfold ContactsCollection._add_contact, bind, get. now rewrite P.
Qed.

Lemma extend_present (input : pyobj) (l cs : list Contact.t) :
  carries input l ->
  (forall c, In c l -> exists e, In e cs /\ same_name e c) ->
  ContactsCollection._extend input cs = (inr tt, cs).
Proof.
  intros C H. destruct C; cbn [ContactsCollection._extend];
    try now apply for_each_add_present.
  - assert (P : ContactsCollection.list_contains c cs = true)
      by (apply list_contains_true; apply H; now left).
    unfold ContactsCollection._add_contact, bind, get. now rewrite P.
  - rewrite values_of_contacts. now apply for_each_add_present.
Qed.

(** C1. Whatever the store holds, merging an operand that carries contacts
    (one contact, a sequence of contacts, or a mapping whose values are
    contacts) never raises and handles the contacts in order: a contact is
    appended when no stored contact equals it by lower-cased name, and the
    store is left exactly as it is when one does.  Merging the same operand
    again changes nothing, and merging a contact whose name is already
    stored, whatever its phone and email, returns the very same store. *)
Theorem merge_appends_unless_present
        (cs : list Contact.t) (input : pyobj) (l : list Contact.t) :
  carries input l ->
  (exists cs',
      ContactsCollection.__iadd__ input cs = (inr tt, cs')
      /\ merged_all cs l cs'
      /\ ContactsCollection.__iadd__ input cs' = (inr tt, cs'))
  /\ (forall c e, In e cs -> same_name e c ->
                  ContactsCollection.__iadd__ (PContact c) cs = (inr tt, cs)).
Proof.
  intros C. unfold ContactsCollection.__iadd__. split.
  - destruct (extend_merged input l cs C) as (cs' & E & Mall).
    exists cs'. repeat split; try assumption.
    apply (extend_present input l cs' C).
    now apply (merged_all_present _ _ _ Mall).
  - intros c e He Hs. apply (extend_present _ _ cs (carries_contact c)).
    intros x [<- | []]. now exists e.
Qed.

Lemma merge_appends_unless_present_witness :
  (exists cs',
      ContactsCollection.__iadd__ (PList [PContact alice2; PContact bob]) [alice]
      = (inr tt, cs')
      /\ merged_all [alice] [alice2; bob] cs'
      /\ ContactsCollection.__iadd__ (PList [PContact alice2; PContact bob]) cs'
         = (inr tt, cs'))
  /\ (forall c e, In e [alice] -> same_name e c ->
                  ContactsCollection.__iadd__ (PContact c) [alice] = (inr tt, [alice])).
Proof.
  exact (merge_appends_unless_present [alice] _ _ (carries_list [alice2; bob])).
Defined.

(** Adding "ALICE" with another phone and email to a store that holds
    "Alice", and then "Bob": the first is dropped, the second appended. *)
Example merge_scenario :
  ContactsCollection.__iadd__ (PList [PContact alice2; PContact bob]) [alice]
  = (inr tt, [alice; bob]).
Proof. reflexivity. Qed.

(** ** Removing *)

Lemma list_remove_contact_some (c : Contact.t) (cs : list Contact.t) :
  forall cs', ContactsCollection.list_remove_contact c cs = Some cs'
              <-> removed c cs cs'.
Proof.
  induction cs as [|e cs IH]; intros cs'; simpl.
  - split; [discriminate|]. intros R. inversion R as [before x after Hb Hx E].
    now destruct before.
  - destruct (Contact.__eq__ e c) eqn:Ee.
    + apply eq_same_name in Ee. split.
      * intros [= <-]. apply (removed_first c [] e cs); [intros x []|assumption].
      * intros R. inversion R as [before x after Hb Hx E E'].
        destruct before as [|b before]; simpl in *.
        -- now injection E as _ <-.
        -- injection E as <- _. destruct (Hb b); [now left | assumption].
    + apply eq_not_same_name in Ee.
      destruct (ContactsCollection.list_remove_contact c cs) as [r|] eqn:Er.
      * split.
        -- intros [= <-].
           destruct (proj1 (IH r) eq_refl) as [before x after Hb Hx].
           apply (removed_first c (e :: before) x after); [|assumption].
           intros y [<- | Hy]; [assumption | now apply Hb].
        -- intros R. inversion R as [before x after Hb Hx E E'].
           destruct before as [|b before]; simpl in *.
           ++ injection E as -> _. contradiction.
           ++ injection E as -> <-.
              assert (R' : removed c (before ++ x :: after) (before ++ after)).
              { constructor; [|assumption]. intros y Hy. apply Hb. now right. }
              apply IH in R'. now injection R' as ->.
      * split; [discriminate|].
        intros R. inversion R as [before x after Hb Hx E E'].
        destruct before as [|b before]; simpl in *.
        -- injection E as -> _. contradiction.
        -- injection E as -> <-.
           assert (R' : removed c (before ++ x :: after) (before ++ after)).
           { constructor; [|assumption]. intros y Hy. apply Hb. now right. }
           apply IH in R'. discriminate.
Qed.

Lemma list_remove_contact_none (c : Contact.t) (cs : list Contact.t) :
  ContactsCollection.list_remove_contact c cs = None
  <-> forall e, In e cs -> ~ same_name e c.
Proof.
  induction cs as [|e cs IH]; simpl.
  - split; [intros _ e [] | reflexivity].
  - destruct (Contact.__eq__ e c) eqn:Ee.
    + apply eq_same_name in Ee. split; [discriminate|].
      intros H. destruct (H e); [now left | assumption].
    + apply eq_not_same_name in Ee.
      destruct (ContactsCollection.list_remove_contact c cs) as [r|] eqn:Er.
      * split; [discriminate|]. intros H.
        assert (N : Some r = None); [|discriminate].
        apply IH. intros y Hy. apply H. now right.
      * split; [|reflexivity]. intros _ y [<- | Hy]; [assumption|].
        now apply IH.
Qed.

Lemma list_remove_found (c : Contact.t) (cs cs' : list Contact.t) :
  removed c cs cs' ->
  ContactsCollection.list_remove (PContact c) cs = (inr tt, cs').
Proof.
  intros R. apply list_remove_contact_some in R.
  unfold ContactsCollection.list_remove, bind, get. simpl. now rewrite R.
Qed.

Lemma list_remove_missing (c : Contact.t) (cs : list Contact.t) :
  (forall e, In e cs -> ~ same_name e c) ->
  ContactsCollection.list_remove (PContact c) cs = (inl not_in_list, cs).
Proof.
  intros R. apply list_remove_contact_none in R.
  unfold ContactsCollection.list_remove, bind, get. simpl. now rewrite R.
Qed.

Lemma for_each_remove_outcome (l : list Contact.t) :
  forall cs,
    removal_outcome cs l
      (for_each ContactsCollection.list_remove (map PContact l) cs).
Proof.
  induction l as [|c l IH]; intros cs; cbn [map].
  - left. exists cs. split; [constructor | reflexivity].
  - destruct (ContactsCollection.list_remove_contact c cs) as [cs1|] eqn:E.
    + apply list_remove_contact_some in E.
      rewrite (for_each_cons_ok _ _ _ cs cs1 (list_remove_found c cs cs1 E)).
      destruct (IH cs1) as [(cs' & R & Eq) | (b & x & a & cs2 & El & R & N & Eq)].
      * left. exists cs'. split; [econstructor; eassumption | assumption].
      * right. exists (c :: b), x, a, cs2. repeat split; try assumption.
        -- now rewrite El.
        -- econstructor; eassumption.
    + pose proof (proj1 (list_remove_contact_none c cs) E) as N.
      rewrite (for_each_cons_raise _ _ _ cs cs not_in_list
                 (list_remove_missing c cs N)).
      right. exists [], c, l, cs. repeat split; try assumption. constructor.
Qed.

Lemma for_each_remove_all (cs l cs' : list Contact.t) :
  removed_all cs l cs' ->
  for_each ContactsCollection.list_remove (map PContact l) cs = (inr tt, cs').
Proof.
  induction 1 as [cs | cs c cs1 l cs2 R1 R2 IH]; cbn [map]; [reflexivity|].
  now rewrite (for_each_cons_ok _ _ _ cs cs1 (list_remove_found c cs cs1 R1)).
Qed.

Lemma for_each_remove_stops (cs before cs1 after : list Contact.t) (x : Contact.t) :
  removed_all cs before cs1 ->
  (forall e, In e cs1 -> ~ same_name e x) ->
  for_each ContactsCollection.list_remove (map PContact (before ++ x :: after)) cs
  = (inl not_in_list, cs1).
Proof.
  intros R N. rewrite map_app.
  rewrite (for_each_app_ok _ _ _ cs cs1 (for_each_remove_all cs before cs1 R)).
  cbn [map]. apply for_each_cons_raise. now apply list_remove_missing.
Qed.

Lemma remove_carries (input : pyobj) (l cs : list Contact.t) :
  carries input l ->
  ContactsCollection._remove input cs
  = for_each ContactsCollection.list_remove (map PContact l) cs.
Proof.
  intros C. destruct C; cbn [ContactsCollection._remove]; try reflexivity.
  - cbn [map for_each]. unfold bind.
    destruct (ContactsCollection.list_remove (PContact c) cs) as [[e|[]] s];
      reflexivity.
  - now rewrite values_of_contacts.
Qed.

(** C2. Whatever the store holds, a bulk removal (a sequence of contacts or
    a mapping whose values are contacts) takes the contacts of its input in
    order and removes for each the first stored contact that equals it by
    lower-cased name.  When every contact finds one, the removal returns.
    At the first contact that finds none it raises and stops: the store is
    then the one left by the removals made for the contacts before it, so
    the removal is not all-or-nothing.  One of the two always happens. *)
Theorem remove_stops_at_first_missing
        (cs : list Contact.t) (input : pyobj) (l : list Contact.t) :
  carries input l ->
  (forall cs', removed_all cs l cs' ->
               ContactsCollection.__isub__ input cs = (inr tt, cs'))
  /\ (forall before x after cs1,
         l = before ++ x :: after ->
         removed_all cs before cs1 ->
         (forall e, In e cs1 -> ~ same_name e x) ->
         ContactsCollection.__isub__ input cs = (inl not_in_list, cs1))
  /\ removal_outcome cs l (ContactsCollection.__isub__ input cs).
Proof.
  intros C. unfold ContactsCollection.__isub__.
  rewrite (remove_carries input l cs C). repeat split.
  - apply for_each_remove_all.
  - intros before x after cs1 -> R N. now apply for_each_remove_stops.
  - apply for_each_remove_outcome.
Qed.

Lemma removed_alice2 : removed alice2 [alice; carol] [carol].
Proof.
  apply (removed_first alice2 [] alice [carol]); [intros x [] | reflexivity].
Qed.

Lemma removed_bob : removed bob [alice; bob; carol] [alice; carol].
Proof.
  apply (removed_first bob [alice] bob [carol]); [|reflexivity].
  intros x [<- | []]. discriminate.
Qed.

Lemma remove_stops_at_first_missing_witness :
  ContactsCollection.__isub__
    (PList [PContact bob; PContact alice2; PContact bob; PContact carol])
    [alice; bob; carol]
  = (inl not_in_list, [carol]).
Proof.
  refine (proj1 (proj2 (remove_stops_at_first_missing
                          [alice; bob; carol] _ _
                          (carries_list [bob; alice2; bob; carol])))
            [bob; alice2] bob [carol] [carol] eq_refl _ _).
  - apply (removed_cons _ _ _ _ _ removed_bob).
    apply (removed_cons _ _ _ _ _ removed_alice2). constructor.
  - intros e [<- | []]. discriminate.
Defined.

(** ** Sorting *)

Lemma insert_sorted_perm (x : Contact.t) (l : list Contact.t) :
  Permutation (ContactsCollection.insert_sorted x l) (x :: l).
Proof.
  induction l as [|y l IH]; simpl; [reflexivity|].
  destruct (Contact.__lt__ y x); [|reflexivity].
  rewrite IH. apply perm_swap.
Qed.

Lemma list_sort_perm (l : list Contact.t) :
  Permutation (ContactsCollection.list_sort l) l.
Proof.
  induction l as [|x l IH]; simpl; [reflexivity|].
  rewrite insert_sorted_perm. now constructor.
Qed.

(** ** The store holds no two equal contacts *)

(** [unique] says what it should: two places of the store that hold equal
    contacts are one place. *)
Lemma unique_pairwise (cs : list Contact.t) :
  unique cs
  <-> forall i j a b,
      nth_error cs i = Some a -> nth_error cs j = Some b ->
      same_name a b -> i = j.
Proof.
  unfold unique. rewrite NoDup_nth_error. split.
  - intros H i j a b Hi Hj Hab. apply H.
    + rewrite length_map. apply nth_error_Some. congruence.
    + rewrite !nth_error_map, Hi, Hj. simpl. now f_equal.
  - intros H i j Hlt E. rewrite length_map in Hlt.
    destruct (nth_error cs i) as [a|] eqn:Hi;
      [|apply nth_error_Some in Hlt; contradiction].
    rewrite !nth_error_map, Hi in E. simpl in E.
    destruct (nth_error cs j) as [b|] eqn:Hj; [|discriminate].
    simpl in E. injection E as E. now apply (H i j a b).
Qed.

Lemma unique_perm (l l' : list Contact.t) :
  Permutation l l' -> unique l -> unique l'.
Proof.
  unfold unique. intros P. apply Permutation_NoDup. now apply Permutation_map.
Qed.

Lemma unique_merged (cs : list Contact.t) (c : Contact.t) (cs' : list Contact.t) :
  merged cs c cs' -> unique cs -> unique cs'.
Proof.
  intros [N | _] U; [|assumption].
  unfold unique in *. rewrite map_app. simpl.
  apply NoDup_app; [assumption | repeat constructor; intros [] |].
  intros k Hk [<- | []]. apply in_map_iff in Hk as (e & Ee & He).
  now apply (N e He).
Qed.

Lemma unique_removed (c : Contact.t) (cs cs' : list Contact.t) :
  removed c cs cs' -> unique cs -> unique cs'.
Proof.
  intros [before e after _ _]. unfold unique. rewrite !map_app. simpl.
  apply NoDup_remove_1.
Qed.

Lemma add_contact_unique (x : pyobj) (cs : list Contact.t) :
  unique cs -> unique (snd (ContactsCollection._add_contact x cs)).
Proof.
  intros U. destruct x; try exact U.
  destruct (add_contact_merged c cs) as (cs' & E & Mg). rewrite E.
  now apply (unique_merged cs c cs').
Qed.

Lemma list_remove_unique (x : pyobj) (cs : list Contact.t) :
  unique cs -> unique (snd (ContactsCollection.list_remove x cs)).
Proof.
  intros U. destruct x; try exact U.
  destruct (ContactsCollection.list_remove_contact c cs) as [cs'|] eqn:E.
  - apply list_remove_contact_some in E.
    rewrite (list_remove_found c cs cs' E). now apply (unique_removed c cs cs').
  - pose proof (proj1 (list_remove_contact_none c cs) E) as N.
    now rewrite (list_remove_missing c cs N).
Qed.

(** A loop keeps what each of its steps keeps, whether it ends or raises. *)
Lemma for_each_keeps {S X} (P : S -> Prop) (body : X -> M S unit) :
  (forall x s, P s -> P (snd (body x s))) ->
  forall l s, P s -> P (snd (for_each body l s)).
Proof.
  intros Hbody l. induction l as [|x l IH]; intros s Hs; [exact Hs|].
  cbn [for_each]. unfold bind. specialize (Hbody x s Hs).
  destruct (body x s) as [[e|[]] s1]; simpl in *; [assumption | now apply IH].
Qed.

Lemma extend_unique (input : pyobj) (cs : list Contact.t) :
  unique cs -> unique (snd (ContactsCollection._extend input cs)).
Proof.
  intros U. destruct input; cbn [ContactsCollection._extend];
    try (apply for_each_keeps; [apply add_contact_unique | assumption]).
  - now apply add_contact_unique.
  - exact U.
Qed.

Lemma remove_unique (input : pyobj) (cs : list Contact.t) :
  unique cs -> unique (snd (ContactsCollection._remove input cs)).
Proof.
  intros U. destruct input; cbn [ContactsCollection._remove];
    try (apply for_each_keeps; [apply list_remove_unique | assumption]).
  - now apply list_remove_unique.
  - exact U.
Qed.

Lemma sort_unique (cs : list Contact.t) :
  unique cs -> unique (snd (ContactsCollection.sort cs)).
Proof.
  intros U. simpl. apply (unique_perm cs); [|assumption].
  symmetry. apply list_sort_perm.
Qed.

Lemma init_unique (data : option pyobj) (cs : list Contact.t) :
  unique (snd (ContactsCollection.__init__ data cs)).
Proof.
  assert (U0 : unique []) by constructor.
  unfold ContactsCollection.__init__, bind, put.
  destruct data as [d|]; [|exact U0].
  destruct (truthy d); [|exact U0].
  now apply extend_unique.
Qed.

Lemma new_unique (data : option pyobj) (cs : list Contact.t) :
  ContactsCollection.new data = inr cs -> unique cs.
Proof.
  unfold ContactsCollection.new. intros H.
  pose proof (init_unique data []) as U.
  destruct (ContactsCollection.__init__ data []) as [[e|[]] s];
    [discriminate|]. now injection H as <-.
Qed.

(** X1. What every mutating operation of the collection but index
    assignment keeps: a store without equal contacts stays one, whatever the operand
    and whether the operation returns or raises; a collection built from
    initial data has none, and neither have [self + other] and
    [self - other]. *)
Theorem unique_kept_by_merge_remove_sort (cs : list Contact.t) (input : pyobj) :
  unique cs ->
  unique (snd (ContactsCollection.__iadd__ input cs))
  /\ unique (snd (ContactsCollection.__isub__ input cs))
  /\ unique (snd (ContactsCollection.sort cs))
  /\ (forall cs', ContactsCollection.new (Some input) = inr cs' -> unique cs')
  /\ (forall cs', ContactsCollection.__add__ cs input = inr cs' -> unique cs')
  /\ (forall cs', ContactsCollection.__sub__ cs input = inr cs' -> unique cs').
Proof.
  intros U. repeat split.
  - now apply extend_unique.
  - now apply remove_unique.
  - now apply sort_unique.
  - apply new_unique.
  - unfold ContactsCollection.__add__. intros cs' H.
    destruct (ContactsCollection.new (Some (PList (map PContact cs))))
      as [e|n] eqn:En; [discriminate|].
    apply new_unique in En.
    pose proof (extend_unique input n En) as U'.
    unfold ContactsCollection.__iadd__ in H.
    destruct (ContactsCollection._extend input n) as [[e|[]] s];
      [discriminate|]. now injection H as <-.
  - unfold ContactsCollection.__sub__. intros cs' H.
    destruct (ContactsCollection.new (Some (PList (map PContact cs))))
      as [e|n] eqn:En; [discriminate|].
    apply new_unique in En.
    pose proof (remove_unique input n En) as U'.
    unfold ContactsCollection.__isub__ in H.
    destruct (ContactsCollection._remove input n) as [[e|[]] s];
      [discriminate|]. now injection H as <-.
Qed.

Lemma unique_kept_by_merge_remove_sort_witness :
  unique (snd (ContactsCollection.__iadd__ (PList [PContact alice2; PContact carol])
                 [alice; bob]))
  /\ unique (snd (ContactsCollection.__isub__ (PList [PContact alice2; PContact carol])
                    [alice; bob])).
Proof.
  assert (U : unique [alice; bob]).
  { repeat constructor; simpl; intuition discriminate. }
  destruct (unique_kept_by_merge_remove_sort [alice; bob]
              (PList [PContact alice2; PContact carol]) U) as (H1 & H2 & _).
  split; assumption.
Defined.

(** C3. Index assignment does not look for an equal contact: in the store
    that holds "Alice" and "Bob", which has no two equal contacts, assigning
    a contact named "ALICE" at index 1 returns normally and leaves a store
    with two contacts of the same lower-cased name. *)
Theorem setitem_breaks_uniqueness :
  unique [alice; bob]
  /\ ContactsCollection.__setitem__ 1 (PContact alice2) [alice; bob]
     = (inr tt, [alice; alice2])
  /\ same_name alice alice2
  /\ ~ unique [alice; alice2].
Proof.
  repeat split.
  - repeat constructor; simpl; intuition discriminate.
  - intros U. inversion U as [|k ks N _]. apply N. now left.
Qed.

(** ** The manager *)

Section Manager.

Variable pickle : pickle_module.

Lemma find_by_name_absent (name : string) (cs : list Contact.t) :
  absent name cs <-> ContactsCollection.find_by_name name cs = [].
Proof.
  unfold absent, ContactsCollection.find_by_name.
  induction cs as [|c cs IH]; simpl.
  - split; [reflexivity | intros _ c []].
  - destruct (String.eqb_spec (Py.lower (Contact.name c)) (Py.lower name))
      as [E|E].
    + split; [|discriminate]. intros H. destruct (H c); [now left | exact E].
    + rewrite <- IH. split.
      * intros H x Hx. apply H. now right.
      * intros H x [<- | Hx]; [exact E | now apply H].
Qed.

Lemma update_absent (name : string) (phone email : option string)
      (s : ContactManager.state) :
  absent name (ContactManager.contacts s) ->
  ContactManager.update_contact pickle name phone email s
  = (inr tt, printed s (NotFound name)).
Proof.
  intros H. apply find_by_name_absent in H.
  unfold ContactManager.update_contact, bind, get. now rewrite H.
Qed.

Lemma delete_absent (name : string) (s : ContactManager.state) :
  absent name (ContactManager.contacts s) ->
  ContactManager.delete_contact pickle name s
  = (inr tt, printed s (NotFound name)).
Proof.
  intros H. apply find_by_name_absent in H.
  unfold ContactManager.delete_contact, bind, get. now rewrite H.
Qed.

Lemma search_absent (name : string) (s : ContactManager.state) :
  absent name (ContactManager.contacts s) ->
  ContactManager.search_contact name s
  = (inr tt, printed s (NotFound name)).
Proof.
  intros H. apply find_by_name_absent in H.
  unfold ContactManager.search_contact, bind, get. now rewrite H.
Qed.

Lemma add_contact_invalid (name phone email : string) (s : ContactManager.state) :
  ~ acceptable name phone email ->
  exists msg,
    ContactManager.add_contact pickle name phone email s
    = (inr tt, printed s (Error (ValueError msg))).
Proof.
  intros H. destruct (init_fails name phone email H) as [msg E].
  exists msg.
  unfold ContactManager.add_contact, try_except, bind. rewrite E.
  destruct s as [cs [d t]]. reflexivity.
Qed.

Lemma update_contact_invalid (name : string) (phone email : option string)
      (s : ContactManager.state) (contact : Contact.t) (rest : list Contact.t) :
  ContactsCollection.find_by_name name (ContactManager.contacts s)
  = contact :: rest ->
  ~ acceptable (Contact.name contact)
      (ContactManager.strip_or phone (Contact.phone contact))
      (ContactManager.strip_or email (Contact.email contact)) ->
  exists msg,
    ContactManager.update_contact pickle name phone email s
    = (inr tt, printed s (Error (ValueError msg))).
Proof.
  intros F H. destruct (init_fails _ _ _ H) as [msg E].
  exists msg.
  unfold ContactManager.update_contact, bind, get. rewrite F.
  unfold try_except, bind. rewrite E.
  destruct s as [cs [d t]]. reflexivity.
Qed.

End Manager.

(** C7. Whatever the store holds, when no stored contact has the given name
    (case apart), updating, deleting and searching that name each return
    normally, print the "no contact found" line and nothing else, leave the
    contacts as they are and do not write the storage file. *)
Theorem absent_name_changes_nothing
        (pickle : pickle_module) (s : ContactManager.state) (name : string) :
  absent name (ContactManager.contacts s) ->
  (forall phone email,
      ContactManager.update_contact pickle name phone email s
      = (inr tt, printed s (NotFound name)))
  /\ ContactManager.delete_contact pickle name s
     = (inr tt, printed s (NotFound name))
  /\ ContactManager.search_contact name s
     = (inr tt, printed s (NotFound name)).
Proof.
  intros H. repeat split.
  - intros phone email. now apply update_absent.
  - now apply delete_absent.
  - now apply search_absent.
Qed.

Lemma absent_bob : absent "bob" [alice; carol].
Proof. intros c [<- | [<- | []]]; discriminate. Qed.

Lemma absent_name_changes_nothing_witness :
  ContactManager.delete_contact RefPickle.pickle "bob"
    (ContactManager.mkState [alice; carol] (mkEnv (Some []) []))
  = (inr tt,
     ContactManager.mkState [alice; carol]
       (mkEnv (Some []) [Printed (NotFound "bob")])).
Proof.
  exact (proj1 (proj2 (absent_name_changes_nothing RefPickle.pickle
                         (ContactManager.mkState [alice; carol] (mkEnv (Some []) []))
                         "bob" absent_bob))).
Defined.

(** C5. Whatever the manager's state, adding a triple that the constructor
    rejects (stripped name empty, stripped phone empty, or stripped email
    not of the required shape) and updating a stored contact with a
    replacement triple that the constructor rejects both return normally:
    the [ValueError] is caught and printed, the contacts and the storage file
    are what they were, and nothing is written. *)
Theorem invalid_input_changes_nothing
        (pickle : pickle_module) (s : ContactManager.state) :
  (forall name phone email,
      ~ acceptable name phone email ->
      exists msg,
        ContactManager.add_contact pickle name phone email s
        = (inr tt, printed s (Error (ValueError msg))))
  /\ (forall name phone email contact rest,
         ContactsCollection.find_by_name name (ContactManager.contacts s)
         = contact :: rest ->
         ~ acceptable (Contact.name contact)
             (ContactManager.strip_or phone (Contact.phone contact))
             (ContactManager.strip_or email (Contact.email contact)) ->
         exists msg,
           ContactManager.update_contact pickle name phone email s
           = (inr tt, printed s (Error (ValueError msg)))).
Proof.
  split.
  - intros name phone email. apply add_contact_invalid.
  - intros name phone email contact rest. apply update_contact_invalid.
Qed.

(** ** Updating a stored contact *)

Lemma filter_singleton {A} (f : A -> bool) (l : list A) (x : A) :
  filter f l = [x] ->
  exists before after,
    l = before ++ x :: after
    /\ f x = true
    /\ (forall y, In y before -> f y = false)
    /\ (forall y, In y after -> f y = false).
Proof.
  induction l as [|a l IH]; simpl; [discriminate|].
  destruct (f a) eqn:Fa.
  - intros [= -> Hl]. exists [], l. repeat split; try assumption.
    + intros y [].
    + intros y Hy. destruct (f y) eqn:Fy; [|reflexivity].
      assert (In y (filter f l)) by (apply filter_In; now split).
      rewrite Hl in *. contradiction.
  - intros H. destruct (IH H) as (b & a' & -> & Fx & Hb & Ha).
    exists (a :: b), a'. repeat split; try assumption.
    intros y [<- | Hy]; [assumption | now apply Hb].
Qed.

Lemma filter_none {A} (f : A -> bool) (l : list A) :
  (forall y, In y l -> f y = false) -> filter f l = [].
Proof.
  induction l as [|a l IH]; simpl; intros H; [reflexivity|].
  rewrite (H a (or_introl eq_refl)). apply IH. intros y Hy. apply H. now right.
Qed.

Lemma Permutation_filter {A} (f : A -> bool) (l l' : list A) :
  Permutation l l' -> Permutation (filter f l) (filter f l').
Proof.
  induction 1 as [|x l l' P IH|x y l|l l' l'' P1 IH1 P2 IH2]; simpl.
  - constructor.
  - destruct (f x); [now constructor | assumption].
  - destruct (f x), (f y); try reflexivity. apply perm_swap.
  - now transitivity (filter f l').
Qed.

Lemma strip_nonempty_truthy (v : string) :
  Py.strip v <> "" -> Py.truthy v = true.
Proof.
  intros H. apply truthy_nonempty. intros ->. now apply H.
Qed.

(** The fields of a contact the constructor has made pass validation again
    and come out as they are. *)
Lemma constructed_fields (c : Contact.t) :
  constructed c ->
  Py.strip (Contact.name c) = Contact.name c
  /\ Contact.name c <> ""
  /\ Py.strip (Contact.phone c) = Contact.phone c
  /\ Contact.phone c <> ""
  /\ Py.strip (Contact.email c) = Contact.email c
  /\ email_shape (Contact.email c).
Proof.
  intros (n & p & e & H).
  destruct (init_cases n p e) as [A | [msg Hm]]; [|congruence].
  rewrite (init_ok n p e A) in H. injection H as <-. simpl.
  destruct A as (Hn & Hp & He).
  rewrite !strip_idempotent. now repeat split.
Qed.

Lemma find_by_name_spec (name : string) (cs : list Contact.t) (c : Contact.t) :
  In c (ContactsCollection.find_by_name name cs)
  <-> In c cs /\ Py.lower (Contact.name c) = Py.lower name.
Proof.
  unfold ContactsCollection.find_by_name. rewrite filter_In.
  now rewrite String.eqb_eq.
Qed.

Section Update.

Variable pickle : pickle_module.

(** The steps of a successful update, one after the other. *)
Lemma update_contact_steps (name : string) (phone email : option string)
      (s : ContactManager.state) (contact updated : Contact.t)
      (rest cs1 : list Contact.t) :
  ContactsCollection.find_by_name name (ContactManager.contacts s)
  = contact :: rest ->
  Contact.__init__ (Contact.name contact)
    (ContactManager.strip_or phone (Contact.phone contact))
    (ContactManager.strip_or email (Contact.email contact)) = inr updated ->
  removed contact (ContactManager.contacts s) cs1 ->
  (forall e, In e cs1 -> ~ same_name e updated) ->
  let cs3 := ContactsCollection.list_sort (cs1 ++ [updated]) in
  let data := dumps pickle (PList (map PContact cs3)) in
  ContactManager.update_contact pickle name phone email s
  = (inr tt, printed (saved (holding s cs3) data) (Updated updated)).
Proof.
  intros F E R N cs3 data.
  apply list_remove_contact_some in R.
  apply list_contains_false in N.
  unfold ContactManager.update_contact, bind, get. rewrite F.
  unfold try_except, bind. rewrite E.
  destruct s as [cs [d t]]. simpl in *.
  unfold ContactManager.on_contacts, bind, get. simpl.
  rewrite R. simpl. rewrite N. reflexivity.
Qed.

End Update.

(** C6. In a store where exactly one contact, one the constructor has made,
    has the given name (case apart), updating that name with a new phone
    whose stripped form is not empty and with no email returns normally;
    the store has as many contacts as before, and its only contact of that
    name has the stored name, the stripped new phone and the stored email.
    The other contacts are those that were there, and the sorted store has
    been written to the storage file. *)
Theorem update_phone_keeps_email
        (pickle : pickle_module) (s : ContactManager.state)
        (name new_phone : string) (contact : Contact.t) :
  ContactsCollection.find_by_name name (ContactManager.contacts s) = [contact] ->
  constructed contact ->
  Py.strip new_phone <> "" ->
  let updated :=
    Contact.mk (Contact.name contact) (Py.strip new_phone) (Contact.email contact) in
  exists s',
    ContactManager.update_contact pickle name (Some new_phone) None s = (inr tt, s')
    /\ List.length (ContactManager.contacts s')
       = List.length (ContactManager.contacts s)
    /\ ContactsCollection.find_by_name name (ContactManager.contacts s') = [updated]
    /\ (exists before after,
           ContactManager.contacts s = before ++ contact :: after
           /\ Permutation (ContactManager.contacts s') (before ++ after ++ [updated]))
    /\ disk (ContactManager.world s')
       = Some (dumps pickle (PList (map PContact (ContactManager.contacts s')))).
Proof.
  intros F C P updated.
  destruct (constructed_fields contact C) as (Hn & Hn' & _ & _ & He & He').
  destruct (filter_singleton _ _ _ F) as (before & after & Ecs & Fc & Hb & Ha).
  apply String.eqb_eq in Fc.
  assert (Hother : forall y, In y (before ++ after) -> ~ same_name y contact).
  { intros y Hy. unfold same_name. rewrite Fc. apply String.eqb_neq.
    apply in_app_or in Hy as [Hy|Hy]; [now apply Hb | now apply Ha]. }
  assert (E : Contact.__init__ (Contact.name contact)
                (ContactManager.strip_or (Some new_phone) (Contact.phone contact))
                (ContactManager.strip_or None (Contact.email contact))
              = inr updated).
  { simpl. rewrite (strip_nonempty_truthy new_phone P).
    rewrite init_ok.
    - subst updated. now rewrite Hn, He, strip_idempotent.
    - unfold acceptable. rewrite Hn, He, strip_idempotent. now repeat split. }
  assert (R : removed contact (ContactManager.contacts s) (before ++ after)).
  { rewrite Ecs. constructor; [|reflexivity].
    intros x Hx. apply Hother. apply in_or_app. now left. }
  assert (N : forall e, In e (before ++ after) -> ~ same_name e updated).
  { intros e Hin. now apply Hother. }
  pose proof (update_contact_steps pickle name (Some new_phone) None s
                contact updated [] (before ++ after) F E R N) as Hrun.
  cbv zeta in Hrun.
  eexists. split; [exact Hrun|]. simpl.
  pose proof (list_sort_perm ((before ++ after) ++ [updated])) as Psort.
  repeat split.
  - rewrite (Permutation_length Psort), Ecs, !length_app. simpl. lia.
  - apply Permutation_length_1_inv.
    unfold ContactsCollection.find_by_name.
    rewrite (Permutation_filter _ _ _ Psort), filter_app, filter_app.
    rewrite (filter_none _ before Hb), (filter_none _ after Ha). simpl.
    rewrite Fc, String.eqb_refl. reflexivity.
  - exists before, after. split; [assumption|].
    rewrite (app_assoc before after [updated]). exact Psort.
Qed.

Lemma update_phone_keeps_email_witness :
  exists s',
    ContactManager.update_contact RefPickle.pickle "ALICE" (Some " 555-3333 ") None
      s_alice = (inr tt, s')
    /\ List.length (ContactManager.contacts s') = 1
    /\ ContactsCollection.find_by_name "ALICE" (ContactManager.contacts s')
       = [Contact.mk "Alice" "555-3333" "alice@example.com"]
    /\ (exists before after,
           [alice] = before ++ alice :: after
           /\ Permutation (ContactManager.contacts s')
                (before ++ after
                 ++ [Contact.mk "Alice" "555-3333" "alice@example.com"]))
    /\ disk (ContactManager.world s')
       = Some (RefPickle.enc (PList (map PContact (ContactManager.contacts s')))).
Proof.
  refine (update_phone_keeps_email RefPickle.pickle s_alice "ALICE" " 555-3333 "
            alice eq_refl _ _).
  - exists "Alice", "555-1111", "alice@example.com". reflexivity.
  - discriminate.
Defined.

(** ** Saving and loading *)

(** What the collection raises is an [Exception]. *)
Lemma for_each_raises_Exception {S X} (body : X -> M S unit) :
  (forall x s e s', body x s = (inl e, s') -> is_Exception e = true) ->
  forall l s e s', for_each body l s = (inl e, s') -> is_Exception e = true.
Proof.
  intros Hb. induction l as [|x l IH]; intros s e s'; [discriminate|].
  cbn [for_each]. unfold bind.
  destruct (body x s) as [[e1|[]] s1] eqn:E.
  - intros [= <- <-]. exact (Hb x s e1 s1 E).
  - apply IH.
Qed.

Lemma add_contact_raises (v : pyobj) (cs : list Contact.t) (e : exn)
      (cs' : list Contact.t) :
  ContactsCollection._add_contact v cs = (inl e, cs') -> is_Exception e = true.
Proof.
  destruct v; try (intros [= <- <-]; reflexivity).
  unfold ContactsCollection._add_contact, bind, get.
  destruct (negb (ContactsCollection.list_contains c cs)); discriminate.
Qed.

Lemma iadd_raises (v : pyobj) (cs : list Contact.t) (e : exn)
      (cs' : list Contact.t) :
  ContactsCollection.__iadd__ v cs = (inl e, cs') -> is_Exception e = true.
Proof.
  unfold ContactsCollection.__iadd__.
  destruct v; cbn [ContactsCollection._extend];
    try apply add_contact_raises;
    try (apply for_each_raises_Exception; apply add_contact_raises).
  intros [= <- <-]. reflexivity.
Qed.

Lemma for_each_iadd_raises (items : list pyobj) (cs : list Contact.t) (e : exn)
      (cs' : list Contact.t) :
  for_each ContactsCollection.__iadd__ items cs = (inl e, cs') ->
  is_Exception e = true.
Proof. apply for_each_raises_Exception. apply iadd_raises. Qed.

Section Persistence.

Variable pickle : pickle_module.

Lemma save_contacts_run (s : ContactManager.state) :
  ContactManager._save_contacts pickle s
  = (inr tt,
     saved s (dumps pickle (PList (map PContact (ContactManager.contacts s))))).
Proof. destruct s as [cs [d t]]. reflexivity. Qed.

Lemma for_each_on_contacts {X} (body : X -> M ContactsCollection.self unit)
      (items : list X) :
  forall s,
    for_each (fun x => ContactManager.on_contacts (body x)) items s
    = (fst (for_each body items (ContactManager.contacts s)),
       holding s (snd (for_each body items (ContactManager.contacts s)))).
Proof.
  induction items as [|x items IH]; intros s.
  - destruct s. reflexivity.
  - cbn [for_each]. unfold bind. unfold ContactManager.on_contacts at 1.
    destruct (body x (ContactManager.contacts s)) as [[e|[]] cs1]; simpl.
    + reflexivity.
    + rewrite IH. reflexivity.
Qed.

(** What [ContactManager()] does on a storage file that is not empty. *)
Lemma start_nonempty (raw : bytes) :
  raw <> [] ->
  ContactManager.start pickle (Some raw)
  = match loads pickle raw with
    | inl e =>
        if is_Exception e then (inr tt, printed (fresh raw) ParseFailed)
        else (inl e, fresh raw)
    | inr (PList items) =>
        match for_each ContactsCollection.__iadd__ items [] with
        | (inr _, cs) =>
            (inr tt, printed (holding (fresh raw) cs) (Loaded (List.length cs)))
        | (inl _, cs) => (inr tt, printed (holding (fresh raw) cs) ParseFailed)
        end
    | inr _ => (inr tt, fresh raw)
    end.
Proof.
  intros H. destruct raw as [|b raw]; [contradiction|].
  unfold ContactManager.start, ContactManager.__init__, bind. simpl.
  unfold ContactManager._load_contacts, bind. simpl.
  unfold try_except, bind. unfold ContactManager.call.
  destruct (loads pickle (b :: raw)) as [e|v].
  { unfold raise. now destruct (is_Exception e). }
  destruct v; try reflexivity. simpl.
  rewrite for_each_on_contacts. simpl.
  destruct (for_each ContactsCollection.__iadd__ items []) as [[e|[]] cs] eqn:E;
    [|reflexivity].
  cbn [fst snd]. now rewrite (for_each_iadd_raises items [] e cs E).
Qed.

(** What it does when the file is missing or empty. *)
Lemma start_empty (file : option bytes) :
  file = None \/ file = Some [] ->
  ContactManager.start pickle file = (inr tt, fresh []).
Proof. intros [-> | ->]; reflexivity. Qed.

(** The only exceptions [ContactManager()] lets through are those that are
    no [Exception], raised by [pickle.loads] on the bytes of the file;
    nothing has been loaded or printed for the load then. *)
Lemma start_raises (file : option bytes) (e : exn) :
  fst (ContactManager.start pickle file) = inl e ->
  is_Exception e = false
  /\ exists raw,
       file = Some raw /\ raw <> [] /\ loads pickle raw = inl e
       /\ ContactManager.start pickle file = (inl e, fresh raw).
Proof.
  destruct file as [[|b raw]|]; try discriminate.
  rewrite start_nonempty by discriminate.
  destruct (loads pickle (b :: raw)) as [e'|v] eqn:L.
  - destruct (is_Exception e') eqn:X; [discriminate|].
    intros [= <-]. split; [exact X|].
    exists (b :: raw). repeat split; [discriminate | exact L].
  - destruct v; try discriminate.
    destruct (for_each ContactsCollection.__iadd__ items []) as [[e'|[]] cs];
      discriminate.
Qed.

(** It returns whenever [pickle.loads] returns or raises an [Exception]. *)
Lemma start_returns (file : option bytes) :
  (forall raw e, file = Some raw -> loads pickle raw = inl e ->
                 is_Exception e = true) ->
  fst (ContactManager.start pickle file) = inr tt.
Proof.
  intros H.
  destruct (ContactManager.start pickle file) as [[e|[]] s] eqn:E;
    [|reflexivity].
  destruct (start_raises file e) as (X & raw & -> & _ & L & _);
    [now rewrite E|].
  rewrite (H raw e eq_refl L) in X. discriminate.
Qed.

End Persistence.

Lemma iadd_contacts (l : list Contact.t) :
  forall cs,
    for_each ContactsCollection.__iadd__ (map PContact l) cs
    = for_each ContactsCollection._add_contact (map PContact l) cs.
Proof.
  induction l as [|c l IH]; intros cs; [reflexivity|].
  cbn [map for_each]. unfold bind.
  change (ContactsCollection.__iadd__ (PContact c) cs)
    with (ContactsCollection._add_contact (PContact c) cs).
  destruct (ContactsCollection._add_contact (PContact c) cs) as [[e|[]] cs1];
    [reflexivity | apply IH].
Qed.

Lemma for_each_add_unique (l : list Contact.t) :
  forall cs, unique (cs ++ l) ->
             for_each ContactsCollection._add_contact (map PContact l) cs
             = (inr tt, cs ++ l).
Proof.
  induction l as [|c l IH]; intros cs U; cbn [map].
  - now rewrite app_nil_r.
  - assert (N : ContactsCollection.list_contains c cs = false).
    { destruct (ContactsCollection.list_contains c cs) eqn:E; [|reflexivity].
      apply list_contains_key in E. unfold unique in U.
      rewrite map_app in U. simpl in U. apply NoDup_remove_2 in U.
      destruct U. apply in_or_app. now left. }
    rewrite (for_each_cons_ok _ _ _ cs (cs ++ [c])).
    + rewrite IH; rewrite <- app_assoc; [reflexivity | exact U].
    + unfold ContactsCollection._add_contact, bind, get. now rewrite N.
Qed.

Lemma find_app {A} (f : A -> bool) (l1 l2 : list A) :
  find f (l1 ++ l2)
  = match find f l1 with
    | Some x => Some x
    | None => find f l2
    end.
Proof.
  induction l1 as [|a l1 IH]; simpl; [reflexivity|].
  destruct (f a); [reflexivity | exact IH].
Qed.

(** Merging keeps, for every name, the first contact of that name. *)
Lemma merged_all_first (cs l cs' : list Contact.t) :
  merged_all cs l cs' ->
  forall k, find (has_key k) cs' = find (has_key k) (cs ++ l).
Proof.
  induction 1 as [cs | cs c cs1 l cs2 M1 M2 IH]; intros k.
  - now rewrite app_nil_r.
  - rewrite IH. destruct M1 as [N | (e & He & Hs)].
    + now rewrite <- app_assoc.
    + rewrite !find_app.
      destruct (find (has_key k) cs) as [x|] eqn:F; [reflexivity|].
      simpl. destruct (has_key k c) eqn:Kc; [|reflexivity].
      pose proof (find_none _ _ F e He) as Ke.
      unfold has_key, key in *. unfold same_name in Hs.
      rewrite Hs in Ke. congruence.
Qed.

(** C10. When the storage file is not empty and unpickles to a list of
    contacts, the manager starts normally with a store that holds no two
    contacts of the same lower-cased name: the contacts of the list have
    been merged one after the other, so for every name the store holds the
    first contact of the list with that name and no other, even when the
    list itself has several. *)
Theorem load_keeps_first_of_each_name
        (pickle : pickle_module) (raw : bytes) (l : list Contact.t) :
  raw <> [] ->
  loads pickle raw = inr (PList (map PContact l)) ->
  exists cs,
    ContactManager.start pickle (Some raw)
    = (inr tt, printed (holding (fresh raw) cs) (Loaded (List.length cs)))
    /\ merged_all [] l cs
    /\ unique cs
    /\ (forall k, find (has_key k) cs = find (has_key k) l).
Proof.
  intros Hraw Hl.
  rewrite (start_nonempty pickle raw Hraw), Hl, iadd_contacts.
  destruct (for_each_add_merged l []) as (cs & E & Mall).
  rewrite E. exists cs. repeat split.
  - exact Mall.
  - change cs with (snd (@inr exn unit tt, cs)). rewrite <- E.
    apply for_each_keeps; [apply add_contact_unique | constructor].
  - intros k. now rewrite (merged_all_first [] l cs Mall).
Qed.

Lemma load_keeps_first_of_each_name_witness :
  exists cs,
    ContactManager.start RefPickle.pickle
      (Some (RefPickle.enc (PList [PContact alice; PContact bob; PContact alice2])))
    = (inr tt,
       printed (holding (fresh (RefPickle.enc
                                  (PList [PContact alice; PContact bob; PContact alice2])))
                  cs)
         (Loaded (List.length cs)))
    /\ merged_all [] [alice; bob; alice2] cs
    /\ unique cs
    /\ (forall k, find (has_key k) cs = find (has_key k) [alice; bob; alice2]).
Proof.
  refine (load_keeps_first_of_each_name RefPickle.pickle
            (RefPickle.enc (PList [PContact alice; PContact bob; PContact alice2]))
            [alice; bob; alice2] _ _).
  - discriminate.
  - vm_compute. reflexivity.
Defined.

(** A file that holds "Alice", "Bob" and then "ALICE" with another phone:
    the manager starts with "Alice" and "Bob". *)
Example load_duplicates :
  ContactManager.contacts
    (snd (ContactManager.start RefPickle.pickle
            (Some (RefPickle.enc
                     (PList [PContact alice; PContact bob; PContact alice2])))))
  = [alice; bob].
Proof. vm_compute. reflexivity. Qed.

Lemma saved_then_loaded_run (pickle : pickle_module) (s : ContactManager.state) :
  saved_then_loaded pickle s
  = Some (loads pickle
            (dumps pickle (PList (map PContact (ContactManager.contacts s))))).
Proof.
  unfold saved_then_loaded. rewrite save_contacts_run. reflexivity.
Qed.

(** C8. Whatever the manager's state, if [pickle.loads] gives back the list
    of contacts that [pickle.dumps] was given, then saving the store puts
    exactly the pickled list of its contacts in the storage file, whatever
    the file held before; loading the file and unpickling gives back the
    list of the stored contacts itself, so the same contacts up to order,
    equal one by one, with the same name, phone and email each.  A manager
    started on that file, when it is not empty and the store had no two
    equal contacts, holds the same contacts again. *)
Theorem save_load_roundtrip (pickle : pickle_module) (s : ContactManager.state) :
  let cs := ContactManager.contacts s in
  let blob := dumps pickle (PList (map PContact cs)) in
  loads pickle blob = inr (PList (map PContact cs)) ->
  ContactManager._save_contacts pickle s = (inr tt, saved s blob)
  /\ disk (ContactManager.world (saved s blob)) = Some blob
  /\ saved_then_loaded pickle s = Some (inr (PList (map PContact cs)))
  /\ (forall loaded,
         saved_then_loaded pickle s = Some (inr (PList (map PContact loaded))) ->
         loaded = cs
         /\ Permutation loaded cs
         /\ Forall2 same_name loaded cs
         /\ map Contact.to_dict loaded = ContactsCollection.to_list cs)
  /\ (unique cs -> blob <> [] ->
      ContactManager.start pickle (Some blob)
      = (inr tt, printed (holding (fresh blob) cs) (Loaded (List.length cs)))).
Proof.
  intros cs blob H.
  assert (L : saved_then_loaded pickle s = Some (inr (PList (map PContact cs)))).
  { rewrite saved_then_loaded_run. fold cs. fold blob. now rewrite H. }
  split; [apply save_contacts_run|].
  split; [reflexivity|].
  split; [exact L|].
  split.
  - intros loaded Hl. rewrite L in Hl.
    assert (E : map PContact loaded = map PContact cs) by congruence.
    assert (loaded = cs) as ->.
    { clear -E. revert loaded E.
      induction cs as [|c cs IH]; intros [|x loaded] E; try discriminate;
        [reflexivity|].
      simpl in E. injection E as -> E. f_equal. now apply IH. }
    repeat split; try reflexivity.
    clear. induction cs; constructor; [reflexivity | assumption].
  - intros U Hb.
    rewrite (start_nonempty pickle blob Hb), H, iadd_contacts.
    now rewrite (for_each_add_unique cs [] U).
Qed.

Lemma save_load_roundtrip_witness :
  saved_then_loaded RefPickle.pickle
    (ContactManager.mkState [alice; bob] (mkEnv (Some [x00; x01]) []))
  = Some (inr (PList [PContact alice; PContact bob])).
Proof.
  refine (proj1 (proj2 (proj2 (save_load_roundtrip RefPickle.pickle
            (ContactManager.mkState [alice; bob] (mkEnv (Some [x00; x01]) []))
            _)))).
  vm_compute. reflexivity.
Defined.

(** ** Loading a file that is not a list of contacts *)

Lemma mixed_blob_loads :
  RefPickle.decode mixed_blob = inr (PList [PContact alice; POther true]).
Proof. vm_compute. reflexivity. Qed.


Lemma mixed_blob_not_contacts : not_a_contact_list RefPickle.pickle mixed_blob.
Proof.
  intros l H. simpl in H. rewrite mixed_blob_loads in H.
  destruct l as [|a [|b l]]; discriminate.
Qed.


Lemma mixed_blob_start :
  ContactManager.start RefPickle.pickle (Some mixed_blob)
  = (inr tt, printed (holding (fresh mixed_blob) [alice]) ParseFailed).
Proof. vm_compute. reflexivity. Qed.



Lemma exit_blob_start :
  ContactManager.start ExitPickle.pickle (Some ExitPickle.exit_blob)
  = (inl (SystemExit 3), fresh ExitPickle.exit_blob).
Proof. vm_compute. reflexivity. Qed.




(** In particular the claim that every file that does not unpickle to a
    list of contacts leaves an empty store and a warning does not hold. *)
Lemma corrupt_load_claim_fails :
  ~ (forall pickle raw,
        not_a_contact_list pickle raw ->
        ContactManager.contacts (snd (ContactManager.start pickle (Some raw))) = []
        /\ In (Printed ParseFailed)
             (trace (ContactManager.world
                       (snd (ContactManager.start pickle (Some raw)))))).
Proof.
  intros H.
  destruct (H RefPickle.pickle mixed_blob mixed_blob_not_contacts) as [E _].
  rewrite mixed_blob_start in E. discriminate.
Qed.

(** Nor does the claim that no exception escapes the load step. *)
Lemma corrupt_load_can_escape :
  ~ (forall pickle file, fst (ContactManager.start pickle file) = inr tt).
Proof.
  intros H. specialize (H ExitPickle.pickle (Some ExitPickle.exit_blob)).
  rewrite exit_blob_start in H. discriminate.
Qed.

(** ** The order after sorting *)

Lemma lt_name_le (a b : Contact.t) : Contact.__lt__ a b = true -> name_le a b.
Proof.
  unfold Contact.__lt__, Py.lt, name_le, key, String.ltb, String.leb.
  now destruct (String.compare _ _).
Qed.

Lemma not_lt_name_le (a b : Contact.t) : Contact.__lt__ b a = false -> name_le a b.
Proof.
  unfold Contact.__lt__, Py.lt, name_le, key, String.ltb, String.leb.
  rewrite (String.compare_antisym (Py.lower (Contact.name a))).
  now destruct (String.compare _ _).
Qed.

Lemma insert_sorted_ordered (x : Contact.t) (l : list Contact.t) :
  ordered l -> ordered (ContactsCollection.insert_sorted x l).
Proof.
  unfold ordered. induction 1 as [|y|y z l' Hl IH Hyz]; simpl.
  - constructor.
  - destruct (Contact.__lt__ y x) eqn:E.
    + constructor; [constructor | now apply lt_name_le].
    + constructor; [constructor | now apply not_lt_name_le].
  - destruct (Contact.__lt__ y x) eqn:E.
    + simpl in IH. destruct (Contact.__lt__ z x) eqn:E'.
      * constructor; assumption.
      * constructor; [assumption | now apply lt_name_le].
    + constructor; [now constructor | now apply not_lt_name_le].
Qed.

Lemma list_sort_ordered (cs : list Contact.t) :
  ordered (ContactsCollection.list_sort cs).
Proof.
  induction cs as [|x cs IH]; simpl; [constructor|].
  now apply insert_sorted_ordered.
Qed.

(** X2. After [sort] the store holds the contacts it held, and the
    lower-cased name of each is at most that of the next. *)
Theorem sort_orders_by_name (cs : list Contact.t) :
  ContactsCollection.sort cs = (inr tt, ContactsCollection.list_sort cs)
  /\ ordered (ContactsCollection.list_sort cs)
  /\ Permutation (ContactsCollection.list_sort cs) cs.
Proof.
  split; [reflexivity|]. split; [apply list_sort_ordered | apply list_sort_perm].
Qed.

(** ** Adding and deleting *)

Lemma add_contact_run
        (pickle : pickle_module) (s : ContactManager.state)
        (name phone email : string) :
  acceptable name phone email ->
  let c := Contact.mk (Py.strip name) (Py.strip phone) (Py.strip email) in
  exists cs,
    merged (ContactManager.contacts s) c cs
    /\ ContactManager.add_contact pickle name phone email s
       = (inr tt,
          printed
            (saved (holding s (ContactsCollection.list_sort cs))
               (dumps pickle
                  (PList (map PContact (ContactsCollection.list_sort cs)))))
            (Added c)).
Proof.
  intros A c.
  destruct (add_contact_merged c (ContactManager.contacts s)) as (cs & E & Mg).
  exists cs. split; [exact Mg|].
  unfold ContactManager.add_contact, try_except, bind.
  rewrite (init_ok name phone email A). fold c.
  destruct s as [cs0 [d t]]. simpl in *.
  unfold ContactManager.on_contacts. simpl.
  change (ContactsCollection.__iadd__ (PContact c) cs0)
    with (ContactsCollection._add_contact (PContact c) cs0).
  rewrite E. reflexivity.
Qed.

(** X3. Adding an acceptable triple merges the contact made of the stripped
    fields, sorts the store, writes it to the storage file and prints the
    contact. *)
Theorem add_contact_valid
        (pickle : pickle_module) (s : ContactManager.state)
        (name phone email : string) :
  acceptable name phone email ->
  let c := Contact.mk (Py.strip name) (Py.strip phone) (Py.strip email) in
  exists cs,
    merged (ContactManager.contacts s) c cs
    /\ ContactManager.add_contact pickle name phone email s
       = (inr tt,
          printed
            (saved (holding s (ContactsCollection.list_sort cs))
               (dumps pickle
                  (PList (map PContact (ContactsCollection.list_sort cs)))))
            (Added c)).
Proof. exact (add_contact_run pickle s name phone email). Qed.

Lemma acceptable_alice : acceptable " Alice " "555-1111" "alice@example.com".
Proof.
  repeat split; try discriminate.
  apply EMAIL_REGEX_shape. vm_compute. reflexivity.
Qed.

Lemma add_contact_valid_witness :
  exists cs,
    merged [bob] alice cs
    /\ ContactManager.add_contact RefPickle.pickle " Alice " "555-1111"
         "alice@example.com"
         (ContactManager.mkState [bob] (mkEnv (Some []) []))
       = (inr tt,
          printed
            (saved (holding (ContactManager.mkState [bob] (mkEnv (Some []) []))
                      (ContactsCollection.list_sort cs))
               (RefPickle.enc
                  (PList (map PContact (ContactsCollection.list_sort cs)))))
            (Added alice)).
Proof.
  exact (add_contact_valid RefPickle.pickle
           (ContactManager.mkState [bob] (mkEnv (Some []) []))
           " Alice " "555-1111" "alice@example.com" acceptable_alice).
Defined.

(** Adding " Alice " to a store that holds "Bob": the store is then "Alice",
    "Bob", in this order, and it is what the storage file holds. *)
Example add_scenario :
  ContactManager.add_contact RefPickle.pickle " Alice " "555-1111"
    "alice@example.com" (ContactManager.mkState [bob] (mkEnv (Some []) []))
  = (inr tt,
     ContactManager.mkState [alice; bob]
       (mkEnv (Some (RefPickle.enc (PList [PContact alice; PContact bob])))
          [Wrote (RefPickle.enc (PList [PContact alice; PContact bob]));
           Printed (Added alice)])).
Proof. vm_compute. reflexivity. Qed.

(** An email without '@' is rejected and nothing changes. *)
Example add_not_an_email :
  ContactManager.add_contact RefPickle.pickle "Alice" "555-1111" "not-an-email"
    s_alice
  = (inr tt, printed s_alice (Error (ValueError "Invalid email format: not-an-email"))).
Proof. vm_compute. reflexivity. Qed.

(** A phone of blanks only is rejected by an update and nothing changes. *)
Example update_blank_phone :
  ContactManager.update_contact RefPickle.pickle "alice" (Some "   ") None s_alice
  = (inr tt, printed s_alice (Error (ValueError "Phone cannot be empty."))).
Proof. vm_compute. reflexivity. Qed.

Lemma not_an_email : ~ acceptable "Alice" "555-1111" "not-an-email".
Proof.
  intros (_ & _ & H). apply EMAIL_REGEX_shape in H. vm_compute in H. discriminate.
Qed.

Lemma invalid_input_changes_nothing_witness :
  exists msg,
    ContactManager.add_contact RefPickle.pickle "Alice" "555-1111" "not-an-email"
      s_alice
    = (inr tt, printed s_alice (Error (ValueError msg))).
Proof.
  exact (proj1 (invalid_input_changes_nothing RefPickle.pickle s_alice)
           "Alice" "555-1111" "not-an-email" not_an_email).
Defined.

(** The fields are stripped, the email may hold several dots. *)
Example construct_stripped :
  Contact.__init__ "  Alice " " 555-1111" "alice@mail.example.com "
  = inr (Contact.mk "Alice" "555-1111" "alice@mail.example.com").
Proof. vm_compute. reflexivity. Qed.

Example construct_two_ats :
  Contact.__init__ "Alice" "555-1111" "alice@home@example.com"
  = inl (ValueError "Invalid email format: alice@home@example.com").
Proof. vm_compute. reflexivity. Qed.

Example construct_blank_name :
  Contact.__init__ "   " "555-1111" "alice@example.com"
  = inl (ValueError "Name cannot be empty.").
Proof. vm_compute. reflexivity. Qed.

(** ** Deleting by name *)

(** Removing one after the other the contacts of a name, as [find_by_name]
    lists them, always finds them and leaves the others. *)
Lemma for_each_remove_named (name : string) (cs : list Contact.t) :
  forall before,
    absent name before ->
    for_each ContactsCollection.list_remove
      (map PContact (ContactsCollection.find_by_name name cs)) (before ++ cs)
    = (inr tt, before ++ others name cs).
Proof.
  unfold ContactsCollection.find_by_name, others.
  induction cs as [|a cs IH]; intros before Hb; cbn [filter map];
    [reflexivity|].
  destruct (String.eqb_spec (Py.lower (Contact.name a)) (Py.lower name)) as [E|E];
    cbn [filter map negb].
  - rewrite (for_each_cons_ok _ _ _ (before ++ a :: cs) (before ++ cs)).
    + now apply IH.
    + apply list_remove_found. constructor; [|reflexivity].
      intros x Hx. unfold same_name. rewrite E. now apply Hb.
  - change (before ++ a :: cs) with (before ++ [a] ++ cs).
    rewrite app_assoc, IH, <- app_assoc; [reflexivity|].
    intros x Hx. apply in_app_or in Hx as [Hx | [<- | []]];
      [now apply Hb | assumption].
Qed.

Lemma isub_contacts (l : list Contact.t) :
  forall cs,
    for_each (fun c => ContactsCollection.__isub__ (PContact c)) l cs
    = for_each ContactsCollection.list_remove (map PContact l) cs.
Proof.
  induction l as [|c l IH]; intros cs; [reflexivity|].
  cbn [map for_each]. unfold bind.
  change (ContactsCollection.__isub__ (PContact c) cs)
    with (ContactsCollection.list_remove (PContact c) cs).
  destruct (ContactsCollection.list_remove (PContact c) cs) as [[e|[]] cs1];
    [reflexivity | apply IH].
Qed.

Lemma delete_contact_run
        (pickle : pickle_module) (s : ContactManager.state) (name : string) :
  ContactsCollection.find_by_name name (ContactManager.contacts s) <> [] ->
  let cs := ContactsCollection.list_sort (others name (ContactManager.contacts s)) in
  ContactManager.delete_contact pickle name s
  = (inr tt,
     printed (saved (holding s cs) (dumps pickle (PList (map PContact cs))))
       (Deleted
          (List.length
             (ContactsCollection.find_by_name name (ContactManager.contacts s)))
          name))
  /\ absent name cs.
Proof.
  intros H cs. split.
  - unfold ContactManager.delete_contact, bind at 1, get.
    destruct (ContactsCollection.find_by_name name (ContactManager.contacts s))
      as [|m ms] eqn:F; [contradiction|].
    rewrite <- F.
    pose proof (for_each_remove_named name (ContactManager.contacts s) []
                  (fun c (Hc : In c []) => match Hc with end)) as R.
    simpl app in R. rewrite <- isub_contacts in R.
    unfold bind at 1. rewrite for_each_on_contacts, R.
    destruct s as [cs0 [d t]]. reflexivity.
  - intros c Hc. subst cs.
    apply (Permutation_in _ (list_sort_perm _)) in Hc.
    unfold others in Hc. apply filter_In in Hc as [_ Hc].
    apply negb_true_iff in Hc. now apply String.eqb_neq.
Qed.

(** X4. Deleting a name that some stored contact has removes every contact
    of that name and no other, sorts the store, writes it to the storage
    file and prints how many were removed; it never raises. *)
Theorem delete_contact_removes_named
        (pickle : pickle_module) (s : ContactManager.state) (name : string) :
  ContactsCollection.find_by_name name (ContactManager.contacts s) <> [] ->
  let cs := ContactsCollection.list_sort (others name (ContactManager.contacts s)) in
  ContactManager.delete_contact pickle name s
  = (inr tt,
     printed (saved (holding s cs) (dumps pickle (PList (map PContact cs))))
       (Deleted
          (List.length
             (ContactsCollection.find_by_name name (ContactManager.contacts s)))
          name))
  /\ absent name cs.
Proof. exact (delete_contact_run pickle s name). Qed.

Lemma delete_contact_removes_named_witness :
  ContactManager.delete_contact RefPickle.pickle "ALICE"
    (ContactManager.mkState [alice; bob] (mkEnv (Some []) []))
  = (inr tt,
     ContactManager.mkState [bob]
       (mkEnv (Some (RefPickle.enc (PList [PContact bob])))
          [Wrote (RefPickle.enc (PList [PContact bob]));
           Printed (Deleted 1 "ALICE")])).
Proof.
  refine (proj1 (delete_contact_removes_named RefPickle.pickle
                   (ContactManager.mkState [alice; bob] (mkEnv (Some []) []))
                   "ALICE" _)).
  discriminate.
Defined.

(** ** What the manager keeps *)

Lemma removed_of_in (c : Contact.t) (cs : list Contact.t) :
  In c cs -> exists cs1, removed c cs cs1.
Proof.
  intros H.
  destruct (ContactsCollection.list_remove_contact c cs) as [cs1|] eqn:E.
  - exists cs1. now apply list_remove_contact_some.
  - pose proof (proj1 (list_remove_contact_none c cs) E c H) as N.
    now destruct N.
Qed.

Lemma removed_incl (c : Contact.t) (cs cs1 : list Contact.t) :
  removed c cs cs1 -> incl cs1 cs.
Proof.
  intros [before e after _ _] x Hx.
  apply in_or_app. apply in_app_or in Hx as [Hx|Hx]; [now left | right; now right].
Qed.

Lemma merged_incl (cs : list Contact.t) (c : Contact.t) (cs' : list Contact.t) :
  merged cs c cs' -> incl cs' (c :: cs).
Proof.
  intros [_ | _] x Hx; [|now right].
  apply in_app_or in Hx as [Hx | [<- | []]]; [now right | now left].
Qed.

Lemma unique_others (name : string) (cs : list Contact.t) :
  unique cs -> unique (others name cs).
Proof.
  unfold unique, others. induction cs as [|a cs IH]; simpl; intros U; [exact U|].
  inversion U as [|k ks Hk Hks]; subst.
  destruct (negb _); simpl; [|now apply IH].
  constructor; [|now apply IH].
  intros Hin. apply Hk. apply in_map_iff in Hin as (x & Ex & Hx).
  apply filter_In in Hx as [Hx _]. apply in_map_iff. now exists x.
Qed.

Section Invariant.

Variable pickle : pickle_module.

(** A successful update, whatever else the store holds. *)
Lemma update_contact_run (name : string) (phone email : option string)
      (s : ContactManager.state) (contact updated : Contact.t)
      (rest cs1 : list Contact.t) :
  ContactsCollection.find_by_name name (ContactManager.contacts s)
  = contact :: rest ->
  Contact.__init__ (Contact.name contact)
    (ContactManager.strip_or phone (Contact.phone contact))
    (ContactManager.strip_or email (Contact.email contact)) = inr updated ->
  removed contact (ContactManager.contacts s) cs1 ->
  exists cs2,
    merged cs1 updated cs2
    /\ ContactManager.contacts
         (snd (ContactManager.update_contact pickle name phone email s))
       = ContactsCollection.list_sort cs2.
Proof.
  intros F E R.
  destruct (add_contact_merged updated cs1) as (cs2 & E2 & Mg).
  exists cs2. split; [exact Mg|].
  apply list_remove_contact_some in R.
  unfold ContactManager.update_contact, bind, get. rewrite F.
  unfold try_except, bind. rewrite E.
  destruct s as [cs [d t]]. simpl in *.
  unfold ContactManager.on_contacts, bind, get. simpl.
  rewrite R. simpl.
  unfold ContactsCollection._add_contact, bind, get in E2. simpl in E2.
  destruct (ContactsCollection.list_contains updated cs1); simpl in *;
    injection E2 as <-; reflexivity.
Qed.

Lemma prints_keep_contacts {X} (line : X -> message) (l : list X) :
  forall s,
    ContactManager.contacts
      (snd (for_each (fun x => ContactManager.on_world (print (line x))) l s))
    = ContactManager.contacts s.
Proof.
  induction l as [|x l IH]; intros s; [reflexivity|].
  cbn [for_each]. unfold bind.
  destruct s as [cs [d t]]. simpl. now rewrite IH.
Qed.

(** What one call does to the contacts: nothing, or it leaves the sorted
    form of a store that has kept what the old one had. *)
Lemma call_step_contacts (s s' : ContactManager.state) :
  call_step pickle s s' ->
  ContactManager.contacts s' = ContactManager.contacts s
  \/ exists cs,
      ContactManager.contacts s' = ContactsCollection.list_sort cs
      /\ (unique (ContactManager.contacts s) -> unique cs)
      /\ (Forall constructed (ContactManager.contacts s) -> Forall constructed cs).
Proof.
  intros [name phone email | name phone email | name | | name].
  - (* add *)
    destruct (init_cases name phone email) as [A | [msg Hm]].
    + right. destruct (add_contact_run pickle s name phone email A) as (cs & Mg & E).
      cbv zeta in Mg. exists cs. rewrite E. repeat split.
      * intros U. eapply unique_merged; eassumption.
      * intros C. apply Forall_forall. intros x Hx.
        apply (merged_incl _ _ _ Mg) in Hx. destruct Hx as [<- | Hx].
        -- exists name, phone, email. now apply init_ok.
        -- revert x Hx. now apply Forall_forall.
    + left. unfold ContactManager.add_contact, try_except, bind. rewrite Hm.
      destruct s as [cs [d t]]. reflexivity.
  - (* update *)
    destruct (ContactsCollection.find_by_name name (ContactManager.contacts s))
      as [|contact rest] eqn:F.
    + left. apply find_by_name_absent in F.
      now rewrite (update_absent pickle name phone email s F).
    + destruct (Contact.__init__ (Contact.name contact)
                  (ContactManager.strip_or phone (Contact.phone contact))
                  (ContactManager.strip_or email (Contact.email contact)))
        as [e|updated] eqn:E.
      * left. unfold ContactManager.update_contact, bind, get. rewrite F.
        unfold try_except, bind. rewrite E.
        unfold ContactManager.call, raise. cbv beta iota.
        rewrite (init_raises _ _ _ e E).
        destruct s as [cs [d t]]. reflexivity.
      * right.
        assert (Hin : In contact (ContactManager.contacts s)).
        { apply (find_by_name_spec name). rewrite F. now left. }
        destruct (removed_of_in contact _ Hin) as (cs1 & R).
        destruct (update_contact_run name phone email s contact updated rest cs1
                    F E R) as (cs2 & Mg & Ecs).
        exists cs2. split; [exact Ecs|]. split.
        -- intros U. eapply unique_merged; [eassumption|].
           eapply unique_removed; eassumption.
        -- intros C. apply Forall_forall. intros x Hx.
           apply (merged_incl _ _ _ Mg) in Hx. destruct Hx as [<- | Hx].
           ++ now exists (Contact.name contact),
                (ContactManager.strip_or phone (Contact.phone contact)),
                (ContactManager.strip_or email (Contact.email contact)).
           ++ apply (removed_incl _ _ _ R) in Hx.
              revert x Hx. now apply Forall_forall.
  - (* delete *)
    destruct (ContactsCollection.find_by_name name (ContactManager.contacts s))
      as [|m ms] eqn:F.
    + left. apply find_by_name_absent in F.
      now rewrite (delete_absent pickle name s F).
    + right. exists (others name (ContactManager.contacts s)).
      assert (Hne : ContactsCollection.find_by_name name (ContactManager.contacts s)
                    <> []) by (rewrite F; discriminate).
      destruct (delete_contact_run pickle s name Hne) as [E _].
      cbv zeta in E. rewrite E. repeat split.
      * apply unique_others.
      * intros C. unfold others. apply Forall_forall. intros x Hx.
        apply filter_In in Hx as [Hx _]. revert x Hx. now apply Forall_forall.
  - (* view *)
    left. unfold ContactManager.view_contacts, bind, get.
    destruct (Nat.eqb _ _).
    + destruct s as [cs [d t]]. reflexivity.
    + unfold bind. destruct s as [cs [d t]]. simpl.
      now rewrite (prints_keep_contacts ListLine).
  - (* search *)
    left. unfold ContactManager.search_contact, bind, get.
    destruct (ContactsCollection.find_by_name name (ContactManager.contacts s))
      as [|m ms].
    + destruct s as [cs [d t]]. reflexivity.
    + unfold bind. destruct s as [cs [d t]].
      cbn [ContactManager.on_world print emit ContactManager.world
             ContactManager.contacts disk trace].
      now rewrite (prints_keep_contacts FoundLine).
Qed.

Lemma start_unique (file : option bytes) :
  unique (ContactManager.contacts (snd (ContactManager.start pickle file))).
Proof.
  assert (U0 : unique []) by constructor.
  destruct file as [[|b raw]|]; try exact U0.
  rewrite start_nonempty by discriminate.
  destruct (loads pickle (b :: raw)) as [e|v];
    [destruct (is_Exception e); exact U0|].
  destruct v; try exact U0.
  pose proof (@for_each_keeps ContactsCollection.self pyobj unique
                ContactsCollection.__iadd__ extend_unique items [] U0) as U.
  destruct (for_each ContactsCollection.__iadd__ items []) as [[e|[]] cs];
    exact U.
Qed.

End Invariant.

(** X5. In every state a manager reaches, whatever file it was started on,
    no two stored contacts are equal.  Started with no file or an empty one, it
    keeps its contacts in the order of their lower-cased names, and every
    stored contact is one the constructor has made. *)
Theorem manager_keeps_store_unique
        (pickle : pickle_module) (file : option bytes) (s : ContactManager.state) :
  reachable pickle file s ->
  unique (ContactManager.contacts s)
  /\ (file = None \/ file = Some [] ->
      ordered (ContactManager.contacts s)
      /\ Forall constructed (ContactManager.contacts s)).
Proof.
  induction 1 as [|s s' R [IHu IHo] St].
  - split; [apply start_unique|].
    intros H. rewrite (start_empty pickle file H). simpl.
    split; constructor.
  - destruct (call_step_contacts pickle s s' St) as [E | (cs & E & Hu & Hc)];
      rewrite E.
    + split; assumption.
    + split.
      * apply sort_unique with (cs := cs). now apply Hu.
      * intros H. destruct (IHo H) as [_ C]. split; [apply list_sort_ordered|].
        apply Forall_forall. intros x Hx.
        apply (Permutation_in _ (list_sort_perm cs)) in Hx.
        revert x Hx. apply Forall_forall. now apply Hc.
Qed.

Lemma manager_keeps_store_unique_witness :
  unique [alice; bob]
  /\ (@Some bytes [] = None \/ @Some bytes [] = Some [] ->
      ordered [alice; bob] /\ Forall constructed [alice; bob]).
Proof.
  refine (manager_keeps_store_unique RefPickle.pickle (Some [])
            (ContactManager.mkState [alice; bob]
               (mkEnv (Some (RefPickle.enc (PList [PContact alice; PContact bob])))
                  [Printed (StorageInitialized "contacts.dat");
                   Wrote (RefPickle.enc (PList [PContact bob]));
                   Printed (Added bob);
                   Wrote (RefPickle.enc (PList [PContact alice; PContact bob]));
                   Printed (Added alice)])) _).
  apply (reach_step RefPickle.pickle (Some [])
           (snd (ContactManager.add_contact RefPickle.pickle "Bob" "555-0000"
                   "bob@example.com"
                   (snd (ContactManager.start RefPickle.pickle (Some [])))))).
  - apply reach_step with (s := snd (ContactManager.start RefPickle.pickle (Some []))).
    + apply reach_start.
    + apply step_add.
  - exact (step_add RefPickle.pickle _ " Alice " "555-1111" "alice@example.com").
Defined.

(** ** The reference serializer gives back the stores it is given *)

Lemma enc_str_length (s : string) :
  List.length (RefPickle.enc_str s) = 2 * String.length s + 1.
Proof.
  unfold RefPickle.enc_str. rewrite length_app. simpl.
  induction s as [|a s IH]; simpl in *; lia.
Qed.

Lemma dec_enc_str (s : string) :
  forall fuel rest,
    String.length s < fuel ->
    RefPickle.dec_str fuel (RefPickle.enc_str s ++ rest) = Some (s, rest).
Proof.
  unfold RefPickle.enc_str.
  induction s as [|a s IH]; intros [|fuel] rest H; simpl in *; try lia.
  - reflexivity.
  - rewrite IH by lia. now rewrite ascii_of_byte_of_ascii.
Qed.

Lemma enc_contact_length (c : Contact.t) :
  List.length (RefPickle.enc_contact c)
  = 2 * (String.length (Contact.name c) + String.length (Contact.phone c)
         + String.length (Contact.email c)) + 4.
Proof.
  unfold RefPickle.enc_contact. simpl.
  rewrite !length_app, !enc_str_length. lia.
Qed.

Lemma dec_enc_contact (c : Contact.t) :
  forall fuel rest,
    List.length (RefPickle.enc_contact c) <= fuel + 2 ->
    RefPickle.dec_contact fuel
      (RefPickle.enc_str (Contact.name c) ++ RefPickle.enc_str (Contact.phone c)
       ++ RefPickle.enc_str (Contact.email c) ++ rest)
    = Some (c, rest).
Proof.
  intros fuel rest H. rewrite enc_contact_length in H.
  unfold RefPickle.dec_contact.
  rewrite !dec_enc_str by lia. now destruct c.
Qed.

Lemma dec_enc_contacts (cs : list Contact.t) :
  forall fuel rest,
    List.length (flat_map RefPickle.enc (map PContact cs)) < fuel ->
    RefPickle.dec_items fuel x5d
      (flat_map RefPickle.enc (map PContact cs) ++ x5d :: rest)
    = Some (map PContact cs, rest).
Proof.
  induction cs as [|c cs IH]; intros [|fuel] rest H;
    cbn [map flat_map] in H; try (simpl in H; lia).
  - reflexivity.
  - rewrite length_app in H.
    change (RefPickle.enc (PContact c)) with (RefPickle.enc_contact c) in H.
    pose proof (enc_contact_length c) as Lc.
    cbn [map flat_map RefPickle.enc].
    unfold RefPickle.enc_contact at 1. cbn [app RefPickle.dec_items Byte.eqb].
    replace (Byte.eqb x43 x5d) with false by reflexivity.
    destruct fuel as [|fuel]; [lia|]. cbn [RefPickle.dec].
    rewrite <- !app_assoc.
    rewrite dec_enc_contact by lia.
    now rewrite IH by lia.
Qed.

(** With the reference serializer every list of contacts comes back as it
    was written. *)
Lemma reference_roundtrip (cs : list Contact.t) :
  loads RefPickle.pickle (dumps RefPickle.pickle (PList (map PContact cs)))
  = inr (PList (map PContact cs)).
Proof.
  simpl. unfold RefPickle.decode.
  cbn [List.length RefPickle.dec].
  rewrite length_app. simpl List.length.
  rewrite dec_enc_contacts by lia. reflexivity.
Qed.

(** So a store saved with the reference serializer always comes back. *)
Lemma reference_store_roundtrip (s : ContactManager.state) :
  saved_then_loaded RefPickle.pickle s
  = Some (inr (PList (map PContact (ContactManager.contacts s)))).
Proof. now rewrite saved_then_loaded_run, reference_roundtrip. Qed.

(** ** A collection as its own operand *)

Lemma for_each_live_add (fuel : nat) :
  forall i cs,
    ContactsCollection.for_each_live ContactsCollection._add_contact fuel i cs
    = (inr tt, cs).
Proof.
  induction fuel as [|fuel IH]; intros i cs; [reflexivity|].
  cbn [ContactsCollection.for_each_live]. unfold bind at 1, get.
  destruct (nth_error cs i) as [item|] eqn:E; [|reflexivity].
  assert (P : ContactsCollection.list_contains item cs = true).
  { apply list_contains_true. exists item. split; [|reflexivity].
    eapply nth_error_In; eassumption. }
  unfold bind, ContactsCollection._add_contact, bind, get. rewrite P. apply IH.
Qed.

(** [c += c] changes nothing. *)
Lemma extend_self_unchanged (cs : list Contact.t) :
  ContactsCollection._extend_self cs = (inr tt, cs).
Proof.
  unfold ContactsCollection._extend_self, bind, get. apply for_each_live_add.
Qed.

(** [c -= c] does not empty the collection: each removal shifts the rest of
    the list under the iterator, and every other contact is skipped. *)
Example remove_self_skips :
  ContactsCollection._remove_self [alice; bob; carol] = (inr tt, [bob]).
Proof. reflexivity. Qed.

(** ** The order of contacts *)

Lemma ascii_compare_refl (a : ascii) : Ascii.compare a a = Eq.
Proof. unfold Ascii.compare. apply N.compare_refl. Qed.

Lemma ascii_compare_lt_trans (a b c : ascii) :
  Ascii.compare a b = Lt -> Ascii.compare b c = Lt -> Ascii.compare a c = Lt.
Proof.
  unfold Ascii.compare. rewrite !N.compare_lt_iff. apply N.lt_trans.
Qed.

Lemma string_compare_refl (s : string) : String.compare s s = Eq.
Proof.
  induction s as [|a s IH]; simpl; [reflexivity|].
  now rewrite ascii_compare_refl.
Qed.

Lemma string_compare_lt_trans (s1 : string) :
  forall s2 s3,
    String.compare s1 s2 = Lt -> String.compare s2 s3 = Lt ->
    String.compare s1 s3 = Lt.
Proof.
  induction s1 as [|a s1 IH]; intros [|b s2] [|c s3]; simpl; try discriminate;
    try reflexivity.
  destruct (Ascii.compare a b) eqn:Eab; try discriminate;
    destruct (Ascii.compare b c) eqn:Ebc; try discriminate; intros H1 H2.
  - apply Ascii.compare_eq_iff in Eab, Ebc. subst.
    rewrite ascii_compare_refl. now apply (IH s2).
  - apply Ascii.compare_eq_iff in Eab. subst. now rewrite Ebc.
  - apply Ascii.compare_eq_iff in Ebc. subst. now rewrite Eab.
  - now rewrite (ascii_compare_lt_trans a b c Eab Ebc).
Qed.

Lemma lt_compare (a b : Contact.t) :
  Contact.__lt__ a b = true <-> String.compare (key a) (key b) = Lt.
Proof.
  unfold Contact.__lt__, Py.lt, String.ltb, key.
  destruct (String.compare _ _); split; intros H; try discriminate; reflexivity.
Qed.

Lemma eq_compare (a b : Contact.t) :
  Contact.__eq__ a b = true <-> String.compare (key a) (key b) = Eq.
Proof.
  rewrite eq_same_name. unfold same_name, key. split.
  - intros ->. apply string_compare_refl.
  - apply String.compare_eq_iff.
Qed.

(** X6. The comparisons of contacts order them by lower-cased name without
    gaps: of [a < b], [a == b] and [b < a] exactly one holds, [<] is
    transitive, and the comparisons that [total_ordering] derives are the
    ones expected: [a <= b] is [not b < a], [a > b] is [b < a], [a >= b] is
    [b <= a]. *)
Theorem contact_order_total (a b c : Contact.t) :
  ((Contact.__lt__ a b = true /\ Contact.__eq__ a b = false /\ Contact.__lt__ b a = false)
   \/ (Contact.__lt__ a b = false /\ Contact.__eq__ a b = true /\ Contact.__lt__ b a = false)
   \/ (Contact.__lt__ a b = false /\ Contact.__eq__ a b = false /\ Contact.__lt__ b a = true))
  /\ (Contact.__lt__ a b = true -> Contact.__lt__ b c = true ->
      Contact.__lt__ a c = true)
  /\ Contact.__le__ a b = negb (Contact.__lt__ b a)
  /\ Contact.__gt__ a b = Contact.__lt__ b a
  /\ Contact.__ge__ a b = Contact.__le__ b a.
Proof.
  assert (T : forall x y,
             (Contact.__lt__ x y = true /\ Contact.__eq__ x y = false
              /\ Contact.__lt__ y x = false)
             \/ (Contact.__lt__ x y = false /\ Contact.__eq__ x y = true
                 /\ Contact.__lt__ y x = false)
             \/ (Contact.__lt__ x y = false /\ Contact.__eq__ x y = false
                 /\ Contact.__lt__ y x = true)).
  { intros x y.
    pose proof (lt_compare x y) as Lxy. pose proof (lt_compare y x) as Lyx.
    pose proof (eq_compare x y) as Exy.
    rewrite (String.compare_antisym (key y) (key x)) in Lyx.
    destruct (String.compare (key x) (key y)); simpl in *;
      destruct (Contact.__lt__ x y), (Contact.__eq__ x y), (Contact.__lt__ y x);
      intuition discriminate. }
  split; [apply T|]. split.
  - rewrite !lt_compare. apply string_compare_lt_trans.
  - unfold Contact.__le__, Contact.__gt__, Contact.__ge__, Contact.__ne__.
    pose proof (T a b) as Tab.
    assert (Eba : Contact.__eq__ b a = Contact.__eq__ a b).
    { unfold Contact.__eq__. apply String.eqb_sym. }
    rewrite Eba.
    destruct Tab as [(-> & -> & ->) | [(-> & -> & ->) | (-> & -> & ->)]];
      repeat split.
Qed.

(** ** Reading and assigning by index *)

Lemma resolve_index_in_range (index : Z) (len : nat) :
  (- Z.of_nat len <= index < Z.of_nat len)%Z ->
  ContactsCollection.resolve_index index len
  = Some (Z.to_nat (index mod Z.of_nat len))
  /\ Z.to_nat (index mod Z.of_nat len) < len.
Proof.
  intros H. unfold ContactsCollection.resolve_index.
  assert (Hm : (index mod Z.of_nat len
                = if (index <? 0)%Z then index + Z.of_nat len else index)%Z).
  { destruct (Z.ltb_spec index 0).
    - rewrite <- (Z.mod_add index 1 (Z.of_nat len)) by lia.
      rewrite Z.mul_1_l. apply Z.mod_small. lia.
    - apply Z.mod_small. lia. }
  rewrite <- Hm.
  assert (0 <= index mod Z.of_nat len < Z.of_nat len)%Z as Hr
      by (apply Z.mod_pos_bound; lia).
  destruct (Z.leb_spec 0 (index mod Z.of_nat len)); [|lia].
  destruct (Z.ltb_spec (index mod Z.of_nat len) (Z.of_nat len)); [|lia].
  simpl. split; [reflexivity | lia].
Qed.

Lemma resolve_index_out_of_range (index : Z) (len : nat) :
  (index < - Z.of_nat len \/ Z.of_nat len <= index)%Z ->
  ContactsCollection.resolve_index index len = None.
Proof.
  intros H. unfold ContactsCollection.resolve_index.
  destruct (Z.ltb_spec index 0).
  - destruct (Z.leb_spec 0 (index + Z.of_nat len)); [lia | reflexivity].
  - destruct (Z.leb_spec 0 index); [|lia].
    destruct (Z.ltb_spec index (Z.of_nat len)); [lia | reflexivity].
Qed.

Lemma list_set_length (l : list Contact.t) :
  forall i c, List.length (ContactsCollection.list_set l i c) = List.length l.
Proof.
  induction l as [|e l IH]; intros [|i] c; simpl; try reflexivity.
  now rewrite IH.
Qed.

Lemma list_set_same (l : list Contact.t) :
  forall i c, i < List.length l ->
              nth_error (ContactsCollection.list_set l i c) i = Some c.
Proof.
  induction l as [|e l IH]; intros [|i] c H; simpl in *; try lia;
    [reflexivity | apply IH; lia].
Qed.

Lemma list_set_other (l : list Contact.t) :
  forall i j c, j <> i ->
                nth_error (ContactsCollection.list_set l i c) j = nth_error l j.
Proof.
  induction l as [|e l IH]; intros [|i] [|j] c H; simpl; try reflexivity;
    try contradiction.
  apply IH. congruence.
Qed.

(** X7. Reading and assigning by index follow Python's list: an index from
    [-len] to [len - 1] names the place [index mod len]; reading returns the
    contact there and changes nothing; assigning a contact keeps the length,
    changes that place only, and a read at the same index then returns the
    contact assigned.  Any other index raises [IndexError], and assigning
    something that is no contact raises [TypeError]; the store is then as it
    was. *)
Theorem index_access (cs : list Contact.t) (index : Z) :
  let len := Z.of_nat (List.length cs) in
  let place := Z.to_nat (index mod len) in
  ((- len <= index < len)%Z ->
   (exists x,
       nth_error cs place = Some x
       /\ ContactsCollection.__getitem__ index cs = (inr x, cs))
   /\ (forall c, exists cs',
          ContactsCollection.__setitem__ index (PContact c) cs = (inr tt, cs')
          /\ List.length cs' = List.length cs
          /\ ContactsCollection.__getitem__ index cs' = (inr c, cs')
          /\ (forall j, j <> place -> nth_error cs' j = nth_error cs j)))
  /\ ((index < - len \/ len <= index)%Z ->
      ContactsCollection.__getitem__ index cs
      = (inl (IndexError "list index out of range"), cs)
      /\ (forall c,
             ContactsCollection.__setitem__ index (PContact c) cs
             = (inl (IndexError "list assignment index out of range"), cs)))
  /\ (forall v, (forall c, v <> PContact c) ->
                ContactsCollection.__setitem__ index v cs
                = (inl (TypeError "Only Contact instances can be assigned."), cs)).
Proof.
  intros len place. subst len place. split; [|split].
  - intros H. destruct (resolve_index_in_range index (List.length cs) H) as [R Hlt].
    set (place := Z.to_nat (index mod Z.of_nat (List.length cs))) in *. split.
    + destruct (nth_error cs place) as [x|] eqn:E;
        [|apply nth_error_None in E; lia].
      exists x. split; [reflexivity|].
      unfold ContactsCollection.__getitem__, bind, get. now rewrite R, E.
    + intros c. exists (ContactsCollection.list_set cs place c).
      split; [unfold ContactsCollection.__setitem__, bind, get; now rewrite R|].
      split; [apply list_set_length|]. split.
      * unfold ContactsCollection.__getitem__, bind, get.
        rewrite list_set_length, R, list_set_same by assumption. reflexivity.
      * intros j Hj. now apply list_set_other.
  - intros H. pose proof (resolve_index_out_of_range index (List.length cs) H) as R.
    split.
    + unfold ContactsCollection.__getitem__, bind, get. now rewrite R.
    + intros c. unfold ContactsCollection.__setitem__, bind, get. now rewrite R.
  - intros v Hv. destruct v; try reflexivity. now destruct (Hv c).
Qed.

Lemma index_access_witness :
  (exists x,
      nth_error [alice; bob; carol] 2 = Some x
      /\ ContactsCollection.__getitem__ (-1) [alice; bob; carol]
         = (inr x, [alice; bob; carol]))
  /\ (forall c, exists cs',
         ContactsCollection.__setitem__ (-1) (PContact c) [alice; bob; carol]
         = (inr tt, cs')
         /\ List.length cs' = 3
         /\ ContactsCollection.__getitem__ (-1) cs' = (inr c, cs')
         /\ (forall j, j <> 2 -> nth_error cs' j = nth_error [alice; bob; carol] j)).
Proof.
  apply (proj1 (index_access [alice; bob; carol] (-1))). simpl. lia.
Defined.

(** Reading the last contact with index -1, and an index one past the end. *)
Example getitem_last :
  ContactsCollection.__getitem__ (-1) [alice; bob; carol]
  = (inr carol, [alice; bob; carol])
  /\ ContactsCollection.__getitem__ 3 [alice; bob; carol]
     = (inl (IndexError "list index out of range"), [alice; bob; carol]).
Proof. split; reflexivity. Qed.

(** ** Membership *)

Lemma contains_find_by_name (c : Contact.t) (cs : list Contact.t) :
  ContactsCollection.__contains__ c cs = true
  <-> ContactsCollection.find_by_name (Contact.name c) cs <> [].
Proof.
  unfold ContactsCollection.__contains__. rewrite list_contains_true. split.
  - intros (e & He & Hs) F.
    assert (In e (ContactsCollection.find_by_name (Contact.name c) cs))
      by (apply find_by_name_spec; now split).
    rewrite F in *. contradiction.
  - intros F.
    destruct (ContactsCollection.find_by_name (Contact.name c) cs) as [|e l] eqn:E;
      [contradiction|].
    assert (He : In e (ContactsCollection.find_by_name (Contact.name c) cs))
      by (rewrite E; now left).
    apply find_by_name_spec in He as [He Hs]. now exists e.
Qed.

(** X8. [c in store] holds exactly when [find_by_name(c.name)] finds
    something; it holds after [store += c], whatever the store held; and in
    a store without equal contacts it no longer holds after a [store -= c]
    that returned. *)
Theorem contains_follows_merge_and_remove (cs : list Contact.t) (c : Contact.t) :
  (ContactsCollection.__contains__ c cs = true
   <-> ContactsCollection.find_by_name (Contact.name c) cs <> [])
  /\ ContactsCollection.__contains__ c
       (snd (ContactsCollection.__iadd__ (PContact c) cs)) = true
  /\ (unique cs ->
      forall cs', ContactsCollection.__isub__ (PContact c) cs = (inr tt, cs') ->
                  ContactsCollection.__contains__ c cs' = false).
Proof.
  split; [apply contains_find_by_name|]. split.
  - destruct (add_contact_merged c cs) as (cs' & E & Mg).
    change (ContactsCollection.__iadd__ (PContact c) cs)
      with (ContactsCollection._add_contact (PContact c) cs).
    rewrite E. apply list_contains_true. now apply (merged_present cs c cs').
  - intros U cs' E.
    change (ContactsCollection.__isub__ (PContact c) cs)
      with (ContactsCollection.list_remove (PContact c) cs) in E.
    destruct (ContactsCollection.list_remove_contact c cs) as [r|] eqn:R.
    + apply list_remove_contact_some in R.
      rewrite (list_remove_found c cs r R) in E. injection E as <-.
      destruct R as [before e after Hb He].
      apply list_contains_false. intros x Hx Hxc.
      unfold unique in U. rewrite map_app in U. simpl in U.
      apply NoDup_remove_2 in U. apply U.
      assert (Kx : key x = key e).
      { unfold key. unfold same_name in *. congruence. }
      rewrite <- Kx, <- map_app. now apply in_map.
    + pose proof (proj1 (list_remove_contact_none c cs) R) as N.
      rewrite (list_remove_missing c cs N) in E. discriminate.
Qed.

Lemma contains_follows_merge_and_remove_witness :
  ContactsCollection.__contains__ alice2 [bob] = false.
Proof.
  refine (proj2 (proj2 (contains_follows_merge_and_remove [alice; bob] alice2))
            _ [bob] eq_refl).
  repeat constructor; simpl; intuition discriminate.
Defined.

(** ** Merging and then removing *)

(** X9. Merging a contact and then removing it gives back the store only
    when no stored contact had its name: if one had, the merge changes
    nothing and the removal takes out the stored contact, the first of that
    name, whatever its phone and email. *)
Theorem merge_then_remove (cs : list Contact.t) (c : Contact.t) :
  (ContactsCollection.__contains__ c cs = false ->
   ContactsCollection.__iadd__ (PContact c) cs = (inr tt, cs ++ [c])
   /\ ContactsCollection.__isub__ (PContact c) (cs ++ [c]) = (inr tt, cs))
  /\ (forall before e after,
         cs = before ++ e :: after ->
         same_name e c ->
         (forall x, In x before -> ~ same_name x c) ->
         ContactsCollection.__iadd__ (PContact c) cs = (inr tt, cs)
         /\ ContactsCollection.__isub__ (PContact c) cs = (inr tt, before ++ after)).
Proof.
  split.
  - intros H. split.
    + unfold ContactsCollection.__iadd__. simpl.
      unfold bind, get. unfold ContactsCollection.__contains__ in H. now rewrite H.
    + change (ContactsCollection.__isub__ (PContact c) (cs ++ [c]))
        with (ContactsCollection.list_remove (PContact c) (cs ++ [c])).
      rewrite <- (app_nil_r cs) at 2. apply list_remove_found.
      constructor; [|reflexivity]. now apply list_contains_false.
  - intros before e after -> He Hb. split.
    + apply (extend_present _ _ _ (carries_contact c)).
      intros x [<- | []]. exists e. split; [|assumption].
      apply in_or_app. right. now left.
    + change (ContactsCollection.__isub__ (PContact c) (before ++ e :: after))
        with (ContactsCollection.list_remove (PContact c) (before ++ e :: after)).
      apply list_remove_found. now constructor.
Qed.

Lemma merge_then_remove_witness :
  ContactsCollection.__iadd__ (PContact alice2) [bob; alice] = (inr tt, [bob; alice])
  /\ ContactsCollection.__isub__ (PContact alice2) [bob; alice] = (inr tt, [bob]).
Proof.
  refine (proj2 (merge_then_remove [bob; alice] alice2) [bob] alice [] eq_refl
            eq_refl _).
  intros x [<- | []]. discriminate.
Defined.

(** ** New collections *)

Lemma new_of_unique (cs : list Contact.t) :
  unique cs -> ContactsCollection.new (Some (PList (map PContact cs))) = inr cs.
Proof.
  intros U. unfold ContactsCollection.new, ContactsCollection.__init__, bind, put.
  destruct cs as [|c cs]; [reflexivity|].
  cbn [truthy map List.length Nat.eqb negb].
  unfold ContactsCollection.__iadd__. cbn [ContactsCollection._extend].
  change (PContact c :: map PContact cs) with (map PContact (c :: cs)).
  now rewrite (for_each_add_unique (c :: cs) [] U).
Qed.

(** Removing from a list each of its own contacts empties it. *)
Lemma remove_each_of_itself (l : list Contact.t) :
  for_each ContactsCollection.list_remove (map PContact l) l = (inr tt, []).
Proof.
  induction l as [|c l IH]; [reflexivity|].
  cbn [map for_each]. unfold bind at 1.
  rewrite (list_remove_found c (c :: l) l); [exact IH|].
  apply (removed_first c [] c l); [intros x []|reflexivity].
Qed.

(** A loop over a list from a place past its end does nothing. *)
Lemma for_each_live_past (body : pyobj -> M ContactsCollection.self unit)
      (fuel i : nat) (cs : list Contact.t) :
  nth_error cs i = None ->
  ContactsCollection.for_each_live body fuel i cs = (inr tt, cs).
Proof.
  intros H. destruct fuel as [|fuel]; [reflexivity|].
  cbn [ContactsCollection.for_each_live]. unfold bind, get. now rewrite H.
Qed.

(** [for item in self: self.remove(item)] from the place after [kept]:
    the contact at the place goes, the next one moves into its place and is
    passed over. *)
Lemma for_each_live_remove (fuel : nat) :
  forall kept rest,
    unique (kept ++ rest) ->
    List.length rest <= fuel ->
    ContactsCollection.for_each_live ContactsCollection.list_remove fuel
      (List.length kept) (kept ++ rest)
    = (inr tt, kept ++ every_second rest).
Proof.
  induction fuel as [|fuel IH]; intros kept rest U Hlen.
  - destruct rest; [reflexivity | simpl in Hlen; lia].
  - destruct rest as [|x rest].
    { apply for_each_live_past. rewrite app_nil_r.
      apply nth_error_None. lia. }
    cbn [ContactsCollection.for_each_live]. unfold bind at 1, get.
    rewrite nth_error_app2 by lia. rewrite Nat.sub_diag. cbn [nth_error].
    assert (R : removed x (kept ++ x :: rest) (kept ++ rest)).
    { apply removed_first; [|reflexivity].
      intros y Hy E. unfold unique in U. rewrite map_app in U. cbn [map] in U.
      apply NoDup_remove_2 in U. apply U. apply in_or_app. left.
      unfold same_name in E. fold (key y) in E. fold (key x) in E.
      rewrite <- E. now apply in_map. }
    unfold bind. rewrite (list_remove_found x _ _ R).
    apply (unique_removed x _ _ R) in U.
    destruct rest as [|y rest].
    + cbn [every_second]. apply for_each_live_past.
      apply nth_error_None. rewrite app_nil_r. lia.
    + cbn [every_second].
      change (kept ++ y :: rest) with (kept ++ [y] ++ rest).
      change (kept ++ y :: every_second rest)
        with (kept ++ [y] ++ every_second rest).
      rewrite !app_assoc.
      replace (S (List.length kept)) with (List.length (kept ++ [y]))
        by (rewrite length_app; simpl; lia).
      apply IH; [now rewrite <- app_assoc | simpl in Hlen; lia].
Qed.

(** X10. On a store without equal contacts [self + other] and
    [self - other] return what [self += other] and [self -= other] would
    leave in the store, and raise what they would raise, for every operand
    that is an object of its own: a contact, a list, a tuple, a mapping,
    another collection.  With the store itself as the operand they agree
    for [+] only: [c + c] holds the contacts of [c], which [c += c] leaves
    as they are; but [c - c] is empty, the loop running over [c] untouched,
    while [c -= c] removes from the list it runs over and leaves every
    second contact. *)
Theorem add_and_sub_agree_with_in_place (cs : list Contact.t) (input : pyobj) :
  unique cs ->
  ContactsCollection.__add__ cs input
  = match ContactsCollection.__iadd__ input cs with
    | (inr _, cs') => inr cs'
    | (inl e, _) => inl e
    end
  /\ ContactsCollection.__sub__ cs input
     = match ContactsCollection.__isub__ input cs with
       | (inr _, cs') => inr cs'
       | (inl e, _) => inl e
       end
  /\ ContactsCollection.__add__ cs (PCollection cs) = inr cs
  /\ ContactsCollection._extend_self cs = (inr tt, cs)
  /\ ContactsCollection.__sub__ cs (PCollection cs) = inr []
  /\ ContactsCollection._remove_self cs = (inr tt, every_second cs).
Proof.
  intros U. unfold ContactsCollection.__add__, ContactsCollection.__sub__.
  rewrite (new_of_unique cs U).
  split; [reflexivity|]. split; [reflexivity|].
  split; [|split; [|split]].
  - unfold ContactsCollection.__iadd__. cbn [ContactsCollection._extend].
    rewrite (for_each_add_present cs cs); [reflexivity|].
    intros c Hc. exists c. split; [exact Hc | reflexivity].
  - apply extend_self_unchanged.
  - unfold ContactsCollection.__isub__. cbn [ContactsCollection._remove].
    now rewrite remove_each_of_itself.
  - unfold ContactsCollection._remove_self, bind, get.
    exact (for_each_live_remove (List.length cs) [] cs U (le_n _)).
Qed.

Lemma unique_alice_bob : unique [alice; bob].
Proof. repeat constructor; simpl; intuition discriminate. Qed.

Lemma add_and_sub_agree_with_in_place_witness :
  ContactsCollection.__add__ [alice; bob] (PList [PContact carol; PContact alice2])
  = inr [alice; bob; carol]
  /\ ContactsCollection.__sub__ [alice; bob] (PList [PContact carol; PContact alice2])
     = inl not_in_list.
Proof.
  exact (conj
           (proj1 (add_and_sub_agree_with_in_place [alice; bob]
                     (PList [PContact carol; PContact alice2]) unique_alice_bob))
           (proj1 (proj2 (add_and_sub_agree_with_in_place [alice; bob]
                            (PList [PContact carol; PContact alice2])
                            unique_alice_bob)))).
Defined.

(** The store as its own operand: [c - c] is empty, [c -= c] leaves "Bob". *)
Example sub_self_and_isub_self :
  ContactsCollection.__sub__ [alice; bob; carol] (PCollection [alice; bob; carol])
  = inr []
  /\ ContactsCollection._remove_self [alice; bob; carol] = (inr tt, [bob]).
Proof. split; reflexivity. Qed.

(** ** Finding by name *)

Lemma find_by_name_at_most_one (name : string) (cs : list Contact.t) :
  unique cs -> List.length (ContactsCollection.find_by_name name cs) <= 1.
Proof.
  unfold unique, ContactsCollection.find_by_name.
  induction cs as [|a cs IH]; simpl; intros U; [lia|].
  inversion U as [|k ks Hk Hks]; subst.
  destruct (String.eqb_spec (Py.lower (Contact.name a)) (Py.lower name)) as [E|E];
    [|now apply IH].
  rewrite filter_none; [simpl; lia|].
  intros y Hy. apply String.eqb_neq. intros Ey. apply Hk.
  apply in_map_iff. exists y. split; [|assumption]. unfold key. congruence.
Qed.

(** X11. [find_by_name] returns the stored contacts whose lower-cased name
    is that of the name asked for, and nothing else; names that differ in
    case only find the same contacts; in a store without equal contacts it
    finds at most one. *)
Theorem find_by_name_finds_the_name (cs : list Contact.t) (name : string) :
  (forall c, In c (ContactsCollection.find_by_name name cs)
             <-> In c cs /\ Py.lower (Contact.name c) = Py.lower name)
  /\ (forall name', Py.lower name' = Py.lower name ->
                    ContactsCollection.find_by_name name' cs
                    = ContactsCollection.find_by_name name cs)
  /\ (unique cs -> List.length (ContactsCollection.find_by_name name cs) <= 1).
Proof.
  split; [intros c; apply find_by_name_spec|]. split.
  - intros name' E. unfold ContactsCollection.find_by_name. now rewrite E.
  - apply find_by_name_at_most_one.
Qed.

Lemma find_by_name_finds_the_name_witness :
  List.length (ContactsCollection.find_by_name "ALICE" [alice; bob]) <= 1.
Proof.
  exact (proj2 (proj2 (find_by_name_finds_the_name [alice; bob] "ALICE"))
           unique_alice_bob).
Defined.

(** ** Listing and searching *)

Lemma for_each_print {X} (line : X -> message) (l : list X) :
  forall s,
    for_each (fun x => ContactManager.on_world (print (line x))) l s
    = (inr tt, said s (map line l)).
Proof.
  induction l as [|x l IH]; intros s.
  - destruct s as [cs [d t]]. unfold said. simpl. now rewrite app_nil_r.
  - cbn [for_each map]. unfold bind.
    destruct s as [cs [d t]].
    cbn [ContactManager.on_world print emit ContactManager.world
           ContactManager.contacts disk trace].
    rewrite IH. unfold said. simpl. now rewrite <- app_assoc.
Qed.

Lemma view_contacts_run (s : ContactManager.state) :
  ContactManager.view_contacts s
  = (inr tt,
     said s (match ContactManager.contacts s with
             | [] => [NothingToDisplay]
             | cs => ListHeader :: map ListLine cs
             end)).
Proof.
  unfold ContactManager.view_contacts, bind at 1, get.
  destruct s as [[|c cs] [d t]]; [reflexivity|].
  cbn [ContactManager.contacts ContactsCollection.__len__ List.length Nat.eqb].
  unfold bind.
  cbn [ContactManager.on_world print emit ContactManager.world
         ContactManager.contacts disk trace].
  rewrite for_each_print. unfold said. simpl. now rewrite <- app_assoc.
Qed.

Lemma search_contact_run (s : ContactManager.state) (name : string) :
  ContactManager.search_contact name s
  = (inr tt,
     said s (match ContactsCollection.find_by_name name (ContactManager.contacts s) with
             | [] => [NotFound name]
             | found => FoundHeader (List.length found) name :: map FoundLine found
             end)).
Proof.
  unfold ContactManager.search_contact, bind at 1, get.
  destruct (ContactsCollection.find_by_name name (ContactManager.contacts s))
    as [|m ms]; [destruct s as [cs [d t]]; reflexivity|].
  unfold bind. destruct s as [cs [d t]].
  cbn [ContactManager.on_world print emit ContactManager.world
         ContactManager.contacts disk trace].
  rewrite for_each_print. unfold said. simpl. now rewrite <- app_assoc.
Qed.

(** X12. Listing and searching only print: they return normally, leave the
    contacts and the storage file as they are and write nothing.  Listing
    prints one line when the store is empty, and otherwise a header and one
    line per contact in the order of the store; searching prints the "no
    contact found" line, or a header with the number of contacts found and
    one line for each, in the order of the store. *)
Theorem view_and_search_only_print (s : ContactManager.state) (name : string) :
  ContactManager.view_contacts s
  = (inr tt,
     said s (match ContactManager.contacts s with
             | [] => [NothingToDisplay]
             | cs => ListHeader :: map ListLine cs
             end))
  /\ ContactManager.search_contact name s
     = (inr tt,
        said s (match ContactsCollection.find_by_name name (ContactManager.contacts s) with
                | [] => [NotFound name]
                | found => FoundHeader (List.length found) name :: map FoundLine found
                end)).
Proof. split; [apply view_contacts_run | apply search_contact_run]. Qed.

(** ** Updating phone, email or both *)

Lemma strip_or_stripped (arg : option string) (current : string) :
  Py.strip current = current ->
  Py.strip (ContactManager.strip_or arg current)
  = ContactManager.strip_or arg current.
Proof.
  intros H. destruct arg as [v|]; simpl; [|exact H].
  destruct (Py.truthy v); [apply strip_idempotent | exact H].
Qed.

Section UpdateAny.

Variable pickle : pickle_module.

(** A successful update, the state it leaves in full. *)
Lemma update_contact_state (name : string) (phone email : option string)
      (s : ContactManager.state) (contact updated : Contact.t)
      (rest cs1 : list Contact.t) :
  ContactsCollection.find_by_name name (ContactManager.contacts s)
  = contact :: rest ->
  Contact.__init__ (Contact.name contact)
    (ContactManager.strip_or phone (Contact.phone contact))
    (ContactManager.strip_or email (Contact.email contact)) = inr updated ->
  removed contact (ContactManager.contacts s) cs1 ->
  let cs2 := if ContactsCollection.list_contains updated cs1
             then cs1 else cs1 ++ [updated] in
  let cs3 := ContactsCollection.list_sort cs2 in
  ContactManager.update_contact pickle name phone email s
  = (inr tt,
     printed (saved (holding s cs3) (dumps pickle (PList (map PContact cs3))))
       (Updated updated)).
Proof.
  intros F E R cs2 cs3. subst cs3 cs2.
  apply list_remove_contact_some in R.
  unfold ContactManager.update_contact, bind, get. rewrite F.
  unfold try_except, bind. rewrite E.
  destruct s as [cs [d t]]. simpl in *.
  unfold ContactManager.on_contacts, bind, get. simpl.
  rewrite R. simpl.
  destruct (ContactsCollection.list_contains updated cs1); reflexivity.
Qed.

End UpdateAny.

(** X13. In a store where exactly one contact, one the constructor has made,
    has the given name, an update whose new values pass validation returns
    normally and replaces that contact by one with the same name, the
    stripped new phone where one is given and not empty and the stored phone
    otherwise, and likewise for the email; the store keeps its length and
    its other contacts, and is written to the storage file.  An update with
    neither phone nor email, or with empty ones, puts back a contact with
    the stored fields. *)
Theorem update_replaces_given_fields
        (pickle : pickle_module) (s : ContactManager.state)
        (name : string) (phone email : option string) (contact : Contact.t) :
  ContactsCollection.find_by_name name (ContactManager.contacts s) = [contact] ->
  constructed contact ->
  let new_phone := match phone with
                   | Some v => if (v =? "")%string then Contact.phone contact
                               else Py.strip v
                   | None => Contact.phone contact
                   end in
  let new_email := match email with
                   | Some v => if (v =? "")%string then Contact.email contact
                               else Py.strip v
                   | None => Contact.email contact
                   end in
  new_phone <> "" ->
  email_shape new_email ->
  let updated := Contact.mk (Contact.name contact) new_phone new_email in
  exists s',
    ContactManager.update_contact pickle name phone email s = (inr tt, s')
    /\ List.length (ContactManager.contacts s')
       = List.length (ContactManager.contacts s)
    /\ ContactsCollection.find_by_name name (ContactManager.contacts s') = [updated]
    /\ (exists before after,
           ContactManager.contacts s = before ++ contact :: after
           /\ Permutation (ContactManager.contacts s') (before ++ after ++ [updated]))
    /\ disk (ContactManager.world s')
       = Some (dumps pickle (PList (map PContact (ContactManager.contacts s')))).
Proof.
  intros F C new_phone new_email Hp He updated.
  destruct (constructed_fields contact C) as (Hn & Hn' & Hcp & _ & Hce & _).
  assert (Ep : ContactManager.strip_or phone (Contact.phone contact) = new_phone).
  { subst new_phone. destruct phone as [v|]; simpl; [|reflexivity].
    unfold Py.truthy. now destruct (v =? "")%string. }
  assert (Ee : ContactManager.strip_or email (Contact.email contact) = new_email).
  { subst new_email. destruct email as [v|]; simpl; [|reflexivity].
    unfold Py.truthy. now destruct (v =? "")%string. }
  pose proof (strip_or_stripped phone (Contact.phone contact) Hcp) as Sp.
  pose proof (strip_or_stripped email (Contact.email contact) Hce) as Se.
  rewrite Ep in Sp. rewrite Ee in Se.
  destruct (filter_singleton _ _ _ F) as (before & after & Ecs & Fc & Hb & Ha).
  apply String.eqb_eq in Fc.
  assert (Hother : forall y, In y (before ++ after) -> ~ same_name y contact).
  { intros y Hy. unfold same_name. rewrite Fc. apply String.eqb_neq.
    apply in_app_or in Hy as [Hy|Hy]; [now apply Hb | now apply Ha]. }
  assert (E : Contact.__init__ (Contact.name contact)
                (ContactManager.strip_or phone (Contact.phone contact))
                (ContactManager.strip_or email (Contact.email contact))
              = inr updated).
  { rewrite Ep, Ee. rewrite init_ok.
    - subst updated. now rewrite Hn, Sp, Se.
    - unfold acceptable. rewrite Hn, Sp, Se. now repeat split. }
  assert (R : removed contact (ContactManager.contacts s) (before ++ after)).
  { rewrite Ecs. constructor; [|reflexivity].
    intros x Hx. apply Hother. apply in_or_app. now left. }
  assert (N : ContactsCollection.list_contains updated (before ++ after) = false).
  { apply list_contains_false. intros e Hin. now apply Hother. }
  pose proof (update_contact_state pickle name phone email s contact updated []
                (before ++ after) F E R) as Hrun.
  cbv zeta in Hrun. rewrite N in Hrun.
  eexists. split; [exact Hrun|]. simpl.
  pose proof (list_sort_perm ((before ++ after) ++ [updated])) as Psort.
  split; [|split; [|split]].
  - rewrite (Permutation_length Psort), Ecs, !length_app. simpl. lia.
  - apply Permutation_length_1_inv.
    unfold ContactsCollection.find_by_name.
    rewrite (Permutation_filter _ _ _ Psort), filter_app, filter_app.
    rewrite (filter_none _ before Hb), (filter_none _ after Ha). simpl.
    rewrite Fc, String.eqb_refl. reflexivity.
  - exists before, after. split; [assumption|].
    rewrite (app_assoc before after [updated]). exact Psort.
  - reflexivity.
Qed.

Lemma update_replaces_given_fields_witness :
  exists s',
    ContactManager.update_contact RefPickle.pickle "alice" (Some "")
      (Some " al@example.org ") s_alice = (inr tt, s')
    /\ List.length (ContactManager.contacts s') = 1
    /\ ContactsCollection.find_by_name "alice" (ContactManager.contacts s')
       = [Contact.mk "Alice" "555-1111" "al@example.org"]
    /\ (exists before after,
           [alice] = before ++ alice :: after
           /\ Permutation (ContactManager.contacts s')
                (before ++ after ++ [Contact.mk "Alice" "555-1111" "al@example.org"]))
    /\ disk (ContactManager.world s')
       = Some (RefPickle.enc (PList (map PContact (ContactManager.contacts s')))).
Proof.
  refine (update_replaces_given_fields RefPickle.pickle s_alice "alice" (Some "")
            (Some " al@example.org ") alice eq_refl _ _ _).
  - exists "Alice", "555-1111", "alice@example.com". reflexivity.
  - discriminate.
  - apply EMAIL_REGEX_shape. vm_compute. reflexivity.
Defined.

(** ** The storage file *)

(** X14. The storage manager creates the file, empty, only when it is not
    there, and keeps a file that is there as it is; after that a load finds
    the file.  A load gives back the bytes of the last save, and never
    changes the file; on a file that is not there it returns nothing, prints
    the warning and does not create the file. *)
Theorem storage_keeps_what_was_saved (w : env) (filename : string) (d1 d2 : bytes) :
  disk (snd (StorageManager.__init__ filename w))
  = Some (match disk w with Some d => d | None => [] end)
  /\ fst (StorageManager.load filename (snd (StorageManager.__init__ filename w)))
     = inr (Some (match disk w with Some d => d | None => [] end))
  /\ fst (StorageManager.load filename (snd (StorageManager.save d1 w)))
     = inr (Some d1)
  /\ fst (StorageManager.load filename
            (snd (StorageManager.save d2 (snd (StorageManager.save d1 w)))))
     = inr (Some d2)
  /\ disk (snd (StorageManager.load filename w)) = disk w
  /\ (disk w = None ->
      StorageManager.load filename w
      = (inr None, mkEnv None (trace w ++ [Printed (FileNotFound filename)]))).
Proof.
  destruct w as [[d|] t]; repeat split; intros; try discriminate; reflexivity.
Qed.

(** ** Files that hold sequences and mappings of contacts *)

Lemma merged_all_app (a l1 b l2 c : list Contact.t) :
  merged_all a l1 b -> merged_all b l2 c -> merged_all a (l1 ++ l2) c.
Proof.
  induction 1 as [a | a x a1 l1 b M1 M2 IH]; intros H; [exact H|].
  simpl. econstructor; [eassumption | now apply IH].
Qed.

Lemma for_each_iadd_groups (items : list pyobj) (groups : list (list Contact.t)) :
  Forall2 carries items groups ->
  forall cs, exists cs',
    for_each ContactsCollection.__iadd__ items cs = (inr tt, cs')
    /\ merged_all cs (List.concat groups) cs'.
Proof.
  induction 1 as [|item group items groups C _ IH]; intros cs.
  - exists cs. split; [reflexivity | constructor].
  - destruct (extend_merged item group cs C) as (cs1 & E1 & M1).
    destruct (IH cs1) as (cs2 & E2 & M2).
    exists cs2. split.
    + now rewrite (for_each_cons_ok _ _ _ cs cs1 E1).
    + simpl. now apply (merged_all_app cs group cs1).
Qed.

Lemma merged_all_unique (cs l cs' : list Contact.t) :
  merged_all cs l cs' -> unique cs -> unique cs'.
Proof.
  induction 1 as [cs | cs c cs1 l cs2 M1 M2 IH]; intros U; [exact U|].
  apply IH. now apply (unique_merged cs c cs1).
Qed.

(** X15. Each element of the list in the storage file goes through [+=], so
    an element may itself be a list, a tuple, a collection or a mapping of
    contacts: the manager then starts normally with the contacts of all the
    elements, merged in the order in which they come, and no two of them
    equal. *)
Theorem load_merges_nested_sequences
        (pickle : pickle_module) (raw : bytes)
        (items : list pyobj) (groups : list (list Contact.t)) :
  raw <> [] ->
  loads pickle raw = inr (PList items) ->
  Forall2 carries items groups ->
  exists cs,
    ContactManager.start pickle (Some raw)
    = (inr tt, printed (holding (fresh raw) cs) (Loaded (List.length cs)))
    /\ merged_all [] (List.concat groups) cs
    /\ unique cs.
Proof.
  intros Hraw Hl Hc.
  destruct (for_each_iadd_groups items groups Hc []) as (cs & E & Mall).
  exists cs. rewrite (start_nonempty pickle raw Hraw), Hl, E.
  repeat split; [exact Mall|].
  apply (merged_all_unique [] (List.concat groups) cs Mall). constructor.
Qed.

Lemma load_merges_nested_sequences_witness :
  exists cs,
    ContactManager.start RefPickle.pickle
      (Some (RefPickle.enc
               (PList [PList [PContact bob; PContact alice];
                       PDict [("a", PContact alice2); ("c", PContact carol)]])))
    = (inr tt,
       printed
         (holding
            (fresh (RefPickle.enc
                      (PList [PList [PContact bob; PContact alice];
                              PDict [("a", PContact alice2); ("c", PContact carol)]])))
            cs)
         (Loaded (List.length cs)))
    /\ merged_all [] [bob; alice; alice2; carol] cs
    /\ unique cs.
Proof.
  refine (load_merges_nested_sequences RefPickle.pickle _
            [PList [PContact bob; PContact alice];
             PDict [("a", PContact alice2); ("c", PContact carol)]]
            [[bob; alice]; [alice2; carol]] _ _ _).
  - discriminate.
  - vm_compute. reflexivity.
  - constructor; [exact (carries_list [bob; alice])|].
    constructor; [|constructor].
    exact (carries_dict [("a", alice2); ("c", carol)]).
Defined.

(** ** The file follows the store *)

Lemma start_disk (pickle : pickle_module) (file : option bytes) :
  disk (ContactManager.world (snd (ContactManager.start pickle file)))
  = Some (match file with Some d => d | None => [] end).
Proof.
  destruct file as [[|b raw]|]; try reflexivity.
  rewrite start_nonempty by discriminate.
  destruct (loads pickle (b :: raw)) as [e|v];
    [destruct (is_Exception e); reflexivity|].
  destruct v; try reflexivity.
  destruct (for_each ContactsCollection.__iadd__ items []) as [[e|[]] cs];
    reflexivity.
Qed.

Lemma reachable_unique (pickle : pickle_module) (file : option bytes)
      (s : ContactManager.state) :
  reachable pickle file s -> unique (ContactManager.contacts s).
Proof.
  induction 1 as [|s s' R IH St]; [apply start_unique|].
  destruct (call_step_contacts pickle s s' St) as [E | (cs & E & Hu & _)];
    rewrite E; [assumption|].
  apply sort_unique with (cs := cs). now apply Hu.
Qed.

(** What one call does to the file: nothing when it leaves the contacts as
    they are, and otherwise the file holds the contacts it has left. *)
Lemma call_step_disk (pickle : pickle_module) (s s' : ContactManager.state) :
  call_step pickle s s' ->
  (ContactManager.contacts s' = ContactManager.contacts s
   /\ disk (ContactManager.world s') = disk (ContactManager.world s))
  \/ disk (ContactManager.world s')
     = Some (dumps pickle (PList (map PContact (ContactManager.contacts s')))).
Proof.
  intros [name phone email | name phone email | name | | name].
  - destruct (init_cases name phone email) as [A | [msg Hm]].
    + right. destruct (add_contact_run pickle s name phone email A) as (cs & _ & E).
      rewrite E. reflexivity.
    + left. unfold ContactManager.add_contact, try_except, bind. rewrite Hm.
      destruct s as [cs [d t]]. split; reflexivity.
  - destruct (ContactsCollection.find_by_name name (ContactManager.contacts s))
      as [|contact rest] eqn:F.
    + left. apply find_by_name_absent in F.
      rewrite (update_absent pickle name phone email s F). split; reflexivity.
    + destruct (Contact.__init__ (Contact.name contact)
                  (ContactManager.strip_or phone (Contact.phone contact))
                  (ContactManager.strip_or email (Contact.email contact)))
        as [e|updated] eqn:E.
      * left. unfold ContactManager.update_contact, bind, get. rewrite F.
        unfold try_except, bind. rewrite E.
        unfold ContactManager.call, raise. cbv beta iota.
        rewrite (init_raises _ _ _ e E).
        destruct s as [cs [d t]]. split; reflexivity.
      * right.
        assert (Hin : In contact (ContactManager.contacts s)).
        { apply (find_by_name_spec name). rewrite F. now left. }
        destruct (removed_of_in contact _ Hin) as (cs1 & R).
        rewrite (update_contact_state pickle name phone email s contact updated
                   rest cs1 F E R). reflexivity.
  - destruct (ContactsCollection.find_by_name name (ContactManager.contacts s))
      as [|m ms] eqn:F.
    + left. apply find_by_name_absent in F.
      rewrite (delete_absent pickle name s F). split; reflexivity.
    + right.
      assert (Hne : ContactsCollection.find_by_name name (ContactManager.contacts s)
                    <> []) by (rewrite F; discriminate).
      destruct (delete_contact_run pickle s name Hne) as [E _].
      cbv zeta in E. rewrite E. reflexivity.
  - left. rewrite view_contacts_run. split; reflexivity.
  - left. rewrite search_contact_run. split; reflexivity.
Qed.

(** X16. What the manager holds survives a restart: if [pickle.loads] gives
    back every list of contacts that [pickle.dumps] was given, and
    [pickle.dumps] never returns the empty bytes, then in every state the
    manager reaches, a new manager started on the storage file as it is
    then holds exactly the contacts the running one holds. *)
Theorem restart_holds_the_same_contacts
        (pickle : pickle_module) (file : option bytes) (s : ContactManager.state) :
  (forall cs, loads pickle (dumps pickle (PList (map PContact cs)))
              = inr (PList (map PContact cs))) ->
  (forall v, dumps pickle v <> []) ->
  reachable pickle file s ->
  ContactManager.contacts
    (snd (ContactManager.start pickle (disk (ContactManager.world s))))
  = ContactManager.contacts s.
Proof.
  intros Hround Hne R. induction R as [|s s' R IH St].
  - rewrite start_disk. destruct file as [[|b raw]|]; reflexivity.
  - pose proof (reachable_unique pickle file s' (reach_step pickle file s s' R St))
      as U.
    destruct (call_step_disk pickle s s' St) as [[Ec Ed] | Ed]; rewrite Ed.
    + now rewrite Ec.
    + rewrite (start_nonempty pickle _ (Hne _)), Hround, iadd_contacts.
      now rewrite (for_each_add_unique (ContactManager.contacts s') [] U).
Qed.

Lemma enc_not_empty (v : pyobj) : RefPickle.enc v <> [].
Proof. destruct v as [c|l|l|l|d|[|]]; discriminate. Qed.

Lemma restart_holds_the_same_contacts_witness :
  ContactManager.contacts
    (snd (ContactManager.start RefPickle.pickle
            (Some (RefPickle.enc (PList [PContact alice; PContact bob])))))
  = [alice; bob].
Proof.
  refine (restart_holds_the_same_contacts RefPickle.pickle (Some [])
            (ContactManager.mkState [alice; bob]
               (mkEnv (Some (RefPickle.enc (PList [PContact alice; PContact bob])))
                  [Printed (StorageInitialized "contacts.dat");
                   Wrote (RefPickle.enc (PList [PContact bob]));
                   Printed (Added bob);
                   Wrote (RefPickle.enc (PList [PContact alice; PContact bob]));
                   Printed (Added alice)]))
            reference_roundtrip enc_not_empty _).
  apply (reach_step RefPickle.pickle (Some [])
           (snd (ContactManager.add_contact RefPickle.pickle "Bob" "555-0000"
                   "bob@example.com"
                   (snd (ContactManager.start RefPickle.pickle (Some [])))))).
  - apply reach_step with (s := snd (ContactManager.start RefPickle.pickle (Some []))).
    + apply reach_start.
    + apply step_add.
  - exact (step_add RefPickle.pickle _ " Alice " "555-1111" "alice@example.com").
Defined.

(** ** The guessing game *)

Section Game.

Variable int : string -> option Z.
Variable number : Z.

Lemma counts_in_range (l : string) (g : Z) :
  counts int l = Some g -> int l = Some g /\ (1 <= g <= 100)%Z.
Proof.
  unfold counts. destruct (int l) as [x|]; [|discriminate].
  destruct (Z.leb_spec 1 x); [|discriminate].
  destruct (Z.leb_spec x 100); [|discriminate].
  simpl. intros [= ->]. split; [reflexivity | lia].
Qed.

Lemma get_user_guess_skips (skipped : list string) :
  forall stdin out,
    Forall (fun l => counts int l = None) skipped ->
    GuessingGame.get_user_guess int (skipped ++ stdin) out
    = GuessingGame.get_user_guess int stdin (out ++ turned_down int skipped).
Proof.
  induction skipped as [|l skipped IH]; intros stdin out H.
  - unfold turned_down. simpl. now rewrite app_nil_r.
  - inversion H as [|? ? Hl Hs]; subst. cbn [app GuessingGame.get_user_guess].
    unfold turned_down. cbn [flat_map]. rewrite app_assoc.
    unfold counts, complaint in *. destruct (int l) as [g|].
    + destruct ((1 <=? g) && (g <=? 100))%Z; [discriminate|]. now apply IH.
    + now apply IH.
Qed.

Lemma get_user_guess_first (stdin : list string) :
  forall out,
    exists skipped,
      Forall (fun l => counts int l = None) skipped
      /\ match valid_guesses int stdin with
         | [] =>
             stdin = skipped
             /\ GuessingGame.get_user_guess int stdin out
                = (GuessingGame.EndOfInput, [],
                   out ++ turned_down int skipped ++ [GuessingGame.Prompt])
         | g :: gs =>
             exists l rest,
               stdin = skipped ++ l :: rest
               /\ counts int l = Some g
               /\ valid_guesses int rest = gs
               /\ GuessingGame.get_user_guess int stdin out
                  = (GuessingGame.Returned g, rest,
                     out ++ turned_down int skipped ++ [GuessingGame.Prompt])
         end.
Proof.
  induction stdin as [|l stdin IH]; intros out.
  - exists []. split; [constructor|]. simpl. split; reflexivity.
  - cbn [valid_guesses]. destruct (counts int l) as [g|] eqn:Cl.
    + exists []. split; [constructor|]. exists l, stdin.
      repeat split; try reflexivity; try assumption.
      cbn [GuessingGame.get_user_guess]. unfold counts in Cl.
      destruct (int l) as [x|]; [|discriminate].
      destruct ((1 <=? x) && (x <=? 100))%Z; [|discriminate].
      now injection Cl as ->.
    + destruct (IH (out ++ turned_down int [l])) as (skipped & Hs & Hrest).
      exists (l :: skipped). split; [now constructor|].
      assert (Hgo : forall tail,
                 GuessingGame.get_user_guess int (l :: tail) out
                 = GuessingGame.get_user_guess int tail (out ++ turned_down int [l])).
      { intros tail.
        apply (get_user_guess_skips [l] tail out). now constructor. }
      assert (Happ : forall rest,
                 (out ++ turned_down int [l]) ++ turned_down int skipped ++ rest
                 = out ++ turned_down int (l :: skipped) ++ rest).
      { intros rest. unfold turned_down. simpl. now rewrite <- !app_assoc. }
      destruct (valid_guesses int stdin) as [|g gs].
      * destruct Hrest as [-> E]. split; [reflexivity|].
        now rewrite Hgo, E, Happ.
      * destruct Hrest as (l' & rest & -> & Cl' & Hv & E).
        exists l', rest. repeat split; try assumption.
        now rewrite Hgo, E, Happ.
Qed.

End Game.

(** X17. [get_user_guess] returns the first guess that counts: it reads the
    lines up to the first one that [int] reads as a number from 1 to 100,
    answers each line before it with the complaint that fits, and returns
    that number, which is always from 1 to 100; the lines after it are left
    unread.  When no line counts it reads them all and ends with the
    [EOFError] of [input]. *)
Theorem get_user_guess_takes_first_valid
        (int : string -> option Z) (stdin : list string)
        (out : list GuessingGame.line) :
  (forall skipped l rest g,
      stdin = skipped ++ l :: rest ->
      Forall (fun x => counts int x = None) skipped ->
      counts int l = Some g ->
      GuessingGame.get_user_guess int stdin out
      = (GuessingGame.Returned g, rest,
         out ++ turned_down int skipped ++ [GuessingGame.Prompt])
      /\ int l = Some g /\ (1 <= g <= 100)%Z)
  /\ (Forall (fun x => counts int x = None) stdin ->
      GuessingGame.get_user_guess int stdin out
      = (GuessingGame.EndOfInput, [],
         out ++ turned_down int stdin ++ [GuessingGame.Prompt]))
  /\ (forall g rest out',
         GuessingGame.get_user_guess int stdin out
         = (GuessingGame.Returned g, rest, out') -> (1 <= g <= 100)%Z).
Proof.
  split; [|split].
  - intros skipped l rest g -> Hs Cl.
    destruct (counts_in_range int l g Cl) as [Hi Hr].
    split; [|now split].
    rewrite (get_user_guess_skips int skipped (l :: rest) out Hs).
    cbn [GuessingGame.get_user_guess]. rewrite Hi.
    destruct (Z.leb_spec 1 g); [|lia]. destruct (Z.leb_spec g 100); [|lia].
    simpl. now rewrite <- app_assoc.
  - intros Hs.
    rewrite <- (app_nil_r stdin) at 1.
    rewrite (get_user_guess_skips int stdin [] out Hs). simpl.
    now rewrite <- app_assoc.
  - intros g rest out' E.
    destruct (get_user_guess_first int stdin out) as (skipped & _ & H).
    destruct (valid_guesses int stdin) as [|g' gs].
    + destruct H as [_ E']. congruence.
    + destruct H as (l & rest' & _ & Cl & _ & E').
      rewrite E' in E. injection E as <- _ _.
      now apply (counts_in_range int l g').
Qed.

Lemma get_user_guess_takes_first_valid_witness :
  GuessingGame.get_user_guess decimal ["abc"; "0"; "101"; "42"; "7"] []
  = (GuessingGame.Returned 42%Z, ["7"],
     [GuessingGame.Prompt; GuessingGame.InvalidInput;
      GuessingGame.Prompt; GuessingGame.PleaseInRange;
      GuessingGame.Prompt; GuessingGame.PleaseInRange;
      GuessingGame.Prompt])
  /\ decimal "42" = Some 42%Z /\ (1 <= 42 <= 100)%Z.
Proof.
  refine (proj1 (get_user_guess_takes_first_valid decimal
                   ["abc"; "0"; "101"; "42"; "7"] [])
            ["abc"; "0"; "101"] "42" ["7"] 42%Z eq_refl _ eq_refl).
  repeat constructor.
Defined.

Section Rounds.

Variable int : string -> option Z.
Variable number : Z.

Lemma turned_down_no_hint (skipped : list string) :
  filter is_hint (turned_down int skipped) = [].
Proof.
  unfold turned_down, complaint.
  induction skipped as [|l skipped IH]; simpl; [reflexivity|].
  now destruct (int l).
Qed.

Lemma rounds_outcome (remaining : nat) :
  forall attempt stdin out,
    let r := GuessingGame.rounds int number remaining attempt stdin out in
    filter is_hint (snd r)
    = filter is_hint out
      ++ map (hint number)
           (wrong_guesses number (firstn remaining (valid_guesses int stdin)))
    /\ rounds_end int number remaining attempt (valid_guesses int stdin) r.
Proof.
  induction remaining as [|remaining IH]; intros attempt stdin out r; subst r.
  - cbn [GuessingGame.rounds firstn wrong_guesses map snd fst]. split.
    + rewrite filter_app. reflexivity.
    + right. left. repeat split; try apply Nat.le_0_l; try (intros []).
      apply last_last.
  - cbn [GuessingGame.rounds].
    destruct (get_user_guess_first int stdin out) as (skipped & Hs & H).
    destruct (valid_guesses int stdin) as [|g gs].
    + destruct H as [-> E]. rewrite E. cbn [snd fst firstn wrong_guesses map].
      split.
      * rewrite !filter_app, turned_down_no_hint. reflexivity.
      * right. right. repeat split; [simpl; lia | intros []].
    + destruct H as (l & rest & -> & Cl & Hv & E). rewrite E.
      assert (Hout : filter is_hint
                       (out ++ turned_down int skipped ++ [GuessingGame.Prompt])
                     = filter is_hint out).
      { rewrite !filter_app, turned_down_no_hint. simpl. now rewrite app_nil_r. }
      cbn [firstn wrong_guesses].
      destruct (Z.eqb_spec g number) as [-> | Hne].
      * cbn [snd fst map]. split.
        -- now rewrite filter_app, Hout.
        -- left. exists 0. repeat split; try (simpl; lia); try (intros []).
           ++ cbn [snd]. rewrite last_last. f_equal. lia.
           ++ exact Hv.
      * assert (Hh : (if (g <? number)%Z
                      then GuessingGame.rounds int number remaining (S attempt) rest
                             ((out ++ turned_down int skipped ++ [GuessingGame.Prompt])
                              ++ [GuessingGame.TooLow])
                      else GuessingGame.rounds int number remaining (S attempt) rest
                             ((out ++ turned_down int skipped ++ [GuessingGame.Prompt])
                              ++ [GuessingGame.TooHigh]))
                     = GuessingGame.rounds int number remaining (S attempt) rest
                         ((out ++ turned_down int skipped ++ [GuessingGame.Prompt])
                          ++ [hint number g])).
        { unfold hint. now destruct (g <? number)%Z. }
        rewrite Hh.
        destruct (IH (S attempt) rest
                    ((out ++ turned_down int skipped ++ [GuessingGame.Prompt])
                     ++ [hint number g])) as [Hf Hend].
        rewrite Hv in Hf, Hend. split.
        -- rewrite Hf, filter_app, Hout. cbn [map].
           assert (Hi : filter is_hint [hint number g] = [hint number g])
             by (unfold hint; now destruct (g <? number)%Z).
           rewrite Hi, <- app_assoc. reflexivity.
        -- destruct Hend as [(k & Hk & Hn & Hnot & Hr & Hl & Hrest)
                            | [(Hlen & Hnot & Hr & Hl & Hrest)
                              | (Hlen & Hnot & Hr & Hrest)]].
           ++ left. exists (S k). repeat split; try assumption; try lia.
              ** cbn [firstn]. intros [Hg | Hin]; [now apply Hne | now apply Hnot].
              ** rewrite Hl. f_equal. lia.
           ++ right. left. repeat split; try assumption; try (simpl; lia).
              cbn [firstn]. intros [Hg | Hin]; [now apply Hne | now apply Hnot].
           ++ right. right. repeat split; try assumption; try (simpl; lia).
              intros [Hg | Hin]; [now apply Hne | now apply Hnot].
Qed.

End Rounds.

(** X18. The game is decided by the guesses that count, the numbers from 1
    to 100 among the lines of input: a line that is no such number is
    answered and costs no attempt.  The player wins at attempt [k + 1] when
    the number is the guess at place [k] of the first seven and none before
    it; the game is lost when seven guesses count and none of them is the
    number; and it ends with the [EOFError] of [input] when fewer than seven
    count and none is the number.  The hints printed are, in order, those
    for the wrong guesses made, "Too low!" exactly for a guess below the
    number. *)
Theorem game_is_decided_by_valid_guesses
        (int : string -> option Z) (number : Z) (stdin : list string) :
  let valid := valid_guesses int stdin in
  let r := GuessingGame.main int number stdin in
  filter is_hint (snd r)
  = map (hint number) (wrong_guesses number (firstn 7 valid))
  /\ ((exists k,
          k < 7
          /\ nth_error valid k = Some number
          /\ ~ In number (firstn k valid)
          /\ fst (fst r) = GuessingGame.Returned tt
          /\ last (snd r) GuessingGame.Welcome
             = GuessingGame.Congratulations number (k + 1)
          /\ valid_guesses int (snd (fst r)) = skipn (S k) valid)
      \/ (7 <= List.length valid
          /\ ~ In number (firstn 7 valid)
          /\ fst (fst r) = GuessingGame.Returned tt
          /\ last (snd r) GuessingGame.Welcome = GuessingGame.Sorry number
          /\ valid_guesses int (snd (fst r)) = skipn 7 valid)
      \/ (List.length valid < 7
          /\ ~ In number valid
          /\ fst (fst r) = GuessingGame.EndOfInput
          /\ snd (fst r) = [])).
Proof.
  intros valid r. subst valid r. unfold GuessingGame.main.
  destruct (rounds_outcome int number GuessingGame.attempts 0 stdin
              [GuessingGame.Welcome; GuessingGame.YouHaveThree;
               GuessingGame.LetsStart]) as [Hf Hend].
  split; [exact Hf | exact Hend].
Qed.

(** A game where the sixth line is the second guess that counts, and the
    number. *)
Example game_invalid_lines_cost_nothing :
  GuessingGame.main decimal 42 ["50"; "x"; ""; "0"; "500"; "42"; "1"]
  = (GuessingGame.Returned tt, ["1"],
     [GuessingGame.Welcome; GuessingGame.YouHaveThree; GuessingGame.LetsStart;
      GuessingGame.Prompt; GuessingGame.TooHigh;
      GuessingGame.Prompt; GuessingGame.InvalidInput;
      GuessingGame.Prompt; GuessingGame.InvalidInput;
      GuessingGame.Prompt; GuessingGame.PleaseInRange;
      GuessingGame.Prompt; GuessingGame.PleaseInRange;
      GuessingGame.Prompt; GuessingGame.Congratulations 42 2]).
Proof. vm_compute. reflexivity. Qed.

(** ** Seven attempts are enough *)

Lemma in_secrets (n : Z) : (1 <= n <= 100)%Z -> In n secrets.
Proof.
  intros H. unfold secrets. apply in_map_iff. exists (Z.to_nat n).
  split; [lia|]. apply in_seq. lia.
Qed.

Lemma bisect_finds_all :
  forallb (fun n => finds n (play (bisect 1 100) n 7 [])) secrets = true.
Proof. vm_compute. reflexivity. Qed.

Lemma decimal_show_all :
  forallb (fun g => match decimal (show g) with
                    | Some x => (x =? g)%Z
                    | None => false
                    end) secrets = true.
Proof. vm_compute. reflexivity. Qed.

Lemma decimal_show (g : Z) : (1 <= g <= 100)%Z -> decimal (show g) = Some g.
Proof.
  intros H. pose proof decimal_show_all as A.
  rewrite forallb_forall in A. specialize (A g (in_secrets g H)).
  destruct (decimal (show g)) as [x|]; [|discriminate].
  apply Z.eqb_eq in A. now subst.
Qed.

Lemma valid_guesses_shown (int : string -> option Z) (guesses : list Z) :
  (forall g, (1 <= g <= 100)%Z -> int (show g) = Some g) ->
  forallb (fun g => ((1 <=? g) && (g <=? 100))%Z) guesses = true ->
  valid_guesses int (map show guesses) = guesses.
Proof.
  intros Hint. induction guesses as [|g gs IH]; simpl; intros H; [reflexivity|].
  apply andb_true_iff in H as [Hg Hgs].
  unfold counts. rewrite Hint, Hg, IH; try assumption; try reflexivity.
  apply andb_true_iff in Hg as [H1 H2].
  apply Z.leb_le in H1, H2. lia.
Qed.

(** X19. Seven attempts are enough to win by halving: whatever number from 1
    to 100 was drawn, a player who guesses the middle of the interval the
    hints have left, typing each guess in decimal digits, wins the game at
    the seventh attempt at the latest, and the hints played from are the
    hints the game prints. *)
Theorem bisection_wins_in_seven (int : string -> option Z) (number : Z) :
  (1 <= number <= 100)%Z ->
  (forall g, (1 <= g <= 100)%Z -> int (show g) = Some g) ->
  let guesses := play (bisect 1 100) number 7 [] in
  let r := GuessingGame.main int number (map show guesses) in
  (exists k,
      k < 7
      /\ fst (fst r) = GuessingGame.Returned tt
      /\ last (snd r) GuessingGame.Welcome
         = GuessingGame.Congratulations number (k + 1))
  /\ filter is_hint (snd r) = map (hint number) (wrong_guesses number guesses).
Proof.
  intros Hn Hint guesses r. subst r.
  pose proof bisect_finds_all as A. rewrite forallb_forall in A.
  specialize (A number (in_secrets number Hn)). fold guesses in A.
  unfold finds in A. apply andb_true_iff in A as [A Hin].
  apply andb_true_iff in A as [Hrange Hlen].
  apply Nat.leb_le in Hlen.
  apply existsb_exists in Hin as (g & Hg & Eg). apply Z.eqb_eq in Eg. subst g.
  pose proof (valid_guesses_shown int guesses Hint Hrange) as Hv.
  unfold GuessingGame.main.
  destruct (rounds_outcome int number GuessingGame.attempts 0 (map show guesses)
              [GuessingGame.Welcome; GuessingGame.YouHaveThree;
               GuessingGame.LetsStart]) as [Hf Hend].
  rewrite Hv in Hf, Hend. split.
  - destruct Hend as [(k & Hk & _ & _ & Hr & Hl & _)
                     | [(_ & Hnot & _) | (_ & Hnot & _)]].
    + exists k. repeat split; assumption.
    + exfalso. apply Hnot. unfold GuessingGame.attempts.
      now rewrite firstn_all2.
    + exfalso. now apply Hnot.
  - rewrite Hf. unfold GuessingGame.attempts.
    rewrite firstn_all2 by assumption. reflexivity.
Qed.

Lemma bisection_wins_in_seven_witness :
  (exists k,
      k < 7
      /\ fst (fst (GuessingGame.main decimal 37
                     (map show (play (bisect 1 100) 37 7 []))))
         = GuessingGame.Returned tt
      /\ last (snd (GuessingGame.main decimal 37
                      (map show (play (bisect 1 100) 37 7 []))))
           GuessingGame.Welcome
         = GuessingGame.Congratulations 37 (k + 1))
  /\ filter is_hint (snd (GuessingGame.main decimal 37
                            (map show (play (bisect 1 100) 37 7 []))))
     = map (hint 37) (wrong_guesses 37 (play (bisect 1 100) 37 7 [])).
Proof.
  refine (bisection_wins_in_seven decimal 37 _ decimal_show). lia.
Defined.

(** The halving player against 37: 50, 25, 37. *)
Example bisection_against_37 :
  play (bisect 1 100) 37 7 [] = [50; 25; 37]%Z
  /\ map show [50; 25; 37]%Z = ["50"; "25"; "37"].
Proof. split; vm_compute; reflexivity. Qed.

(** ** The command loop *)

Section Loop.

Variable pickle : pickle_module.

Lemma add_contact_returns (name phone email : string) (m : ContactManager.state) :
  fst (ContactManager.add_contact pickle name phone email m) = inr tt.
Proof.
  destruct (init_cases name phone email) as [A | [msg Hm]].
  - destruct (add_contact_run pickle m name phone email A) as (cs & _ & E).
    now rewrite E.
  - unfold ContactManager.add_contact, try_except, bind. rewrite Hm.
    destruct m as [cs [d t]]. reflexivity.
Qed.

Lemma update_contact_returns (name : string) (phone email : option string)
      (m : ContactManager.state) :
  fst (ContactManager.update_contact pickle name phone email m) = inr tt.
Proof.
  destruct (ContactsCollection.find_by_name name (ContactManager.contacts m))
    as [|contact rest] eqn:F.
  - apply find_by_name_absent in F.
    now rewrite (update_absent pickle name phone email m F).
  - destruct (Contact.__init__ (Contact.name contact)
                (ContactManager.strip_or phone (Contact.phone contact))
                (ContactManager.strip_or email (Contact.email contact)))
      as [e|updated] eqn:E.
    + unfold ContactManager.update_contact, bind, get. rewrite F.
      unfold try_except, bind. rewrite E.
      unfold ContactManager.call, raise. cbv beta iota.
      rewrite (init_raises _ _ _ e E).
      destruct m as [cs [d t]]. reflexivity.
    + assert (Hin : In contact (ContactManager.contacts m)).
      { apply (find_by_name_spec name). rewrite F. now left. }
      destruct (removed_of_in contact _ Hin) as (cs1 & R).
      now rewrite (update_contact_state pickle name phone email m contact updated
                     rest cs1 F E R).
Qed.

Lemma delete_contact_returns (name : string) (m : ContactManager.state) :
  fst (ContactManager.delete_contact pickle name m) = inr tt.
Proof.
  destruct (ContactsCollection.find_by_name name (ContactManager.contacts m))
    as [|x xs] eqn:F.
  - apply find_by_name_absent in F. now rewrite (delete_absent pickle name m F).
  - assert (Hne : ContactsCollection.find_by_name name (ContactManager.contacts m)
                  <> []) by (rewrite F; discriminate).
    destruct (delete_contact_run pickle m name Hne) as [E _].
    cbv zeta in E. now rewrite E.
Qed.

(** A call of an operation that returns. *)
Lemma call_returns (op : M ContactManager.state unit) (s : Cli.session) :
  fst (op (Cli.manager s)) = inr tt ->
  Cli.call op s
  = (inr tt, Cli.mkSession (snd (op (Cli.manager s))) (Cli.stdin s) (Cli.console s)).
Proof.
  unfold Cli.call. destruct (op (Cli.manager s)) as [[e|[]] m]; simpl;
    [discriminate | reflexivity].
Qed.



End Loop.


(** A storage file that makes [pickle.loads] exit ends [main] at once. *)
Example main_exits_at_start :
  Cli.main ExitPickle.pickle (Some ExitPickle.exit_blob) ["4"; "6"]
  = Some (inl (Cli.Raised (SystemExit 3)),
          Cli.mkSession (fresh ExitPickle.exit_blob) ["4"; "6"] []).
Proof. vm_compute. reflexivity. Qed.

(** A session: a contact added, a choice that is none, the list, the exit;
    the line after the exit is left unread. *)
Example main_session :
  match Cli.main RefPickle.pickle None
          ["1"; "Bob"; "555-0000"; "bob@example.com"; "7"; "4"; "6"; "1"] with
  | Some (r, s) =>
      r = inr tt
      /\ ContactManager.contacts (Cli.manager s) = [bob]
      /\ Cli.stdin s = ["1"]
      /\ disk (ContactManager.world (Cli.manager s))
         = Some (RefPickle.enc (PList [PContact bob]))
  | None => False
  end.
Proof. vm_compute. repeat split. Qed.

(** ** What follows the exit is not read *)

Section Unread.

Variable pickle : pickle_module.

Ltac cli_reduce :=
  unfold Cli.bind, Cli.input, Cli.say, Cli.ret;
  cbn [Cli.manager Cli.stdin Cli.console app].

(** A round that does not run out of input does the same with more lines
    behind the ones it has. *)
Lemma main_round_more (extra : list string) (s : Cli.session) :
  forall b s',
    Cli.main_round pickle s = (inr b, s') ->
    Cli.main_round pickle
      (Cli.mkSession (Cli.manager s) (Cli.stdin s ++ extra) (Cli.console s))
    = (inr b,
       Cli.mkSession (Cli.manager s') (Cli.stdin s' ++ extra) (Cli.console s')).
Proof.
  intros b s'. destruct s as [m lines con]. unfold Cli.main_round.
  cli_reduce.
  destruct lines as [|choice rest]; cli_reduce; [intros H; discriminate H|].
  destruct (choice =? "1")%string.
  { cli_reduce.
    destruct rest as [|name [|phone [|email rest]]]; cli_reduce;
      try (intros H; discriminate H).
    rewrite !call_returns by apply add_contact_returns.
    cbn [Cli.manager Cli.stdin Cli.console].
    now intros [= <- <-]. }
  destruct (choice =? "2")%string.
  { cli_reduce.
    destruct rest as [|name [|phone [|email rest]]]; cli_reduce;
      try (intros H; discriminate H).
    rewrite !call_returns by apply update_contact_returns.
    cbn [Cli.manager Cli.stdin Cli.console].
    now intros [= <- <-]. }
  destruct (choice =? "3")%string.
  { cli_reduce.
    destruct rest as [|name rest]; cli_reduce;
      try (intros H; discriminate H).
    rewrite !call_returns by apply delete_contact_returns.
    cbn [Cli.manager Cli.stdin Cli.console].
    now intros [= <- <-]. }
  destruct (choice =? "4")%string.
  { cli_reduce.
    rewrite !call_returns by (cbn [Cli.manager]; now rewrite view_contacts_run).
    cbn [Cli.manager Cli.stdin Cli.console].
    now intros [= <- <-]. }
  destruct (choice =? "5")%string.
  { cli_reduce.
    destruct rest as [|name rest]; cli_reduce;
      try (intros H; discriminate H).
    rewrite !call_returns by (cbn [Cli.manager]; now rewrite search_contact_run).
    cbn [Cli.manager Cli.stdin Cli.console].
    now intros [= <- <-]. }
  destruct (choice =? "6")%string.
  { cli_reduce. now intros [= <- <-]. }
  cli_reduce. now intros [= <- <-].
Qed.

Lemma main_loop_more (extra : list string) (fuel : nat) :
  forall more s s',
    Cli.main_loop pickle fuel s = Some (inr tt, s') ->
    Cli.main_loop pickle (more + fuel)
      (Cli.mkSession (Cli.manager s) (Cli.stdin s ++ extra) (Cli.console s))
    = Some (inr tt,
            Cli.mkSession (Cli.manager s') (Cli.stdin s' ++ extra)
              (Cli.console s')).
Proof.
  induction fuel as [|fuel IH]; intros more s s'; [discriminate|].
  rewrite Nat.add_succ_r. cbn [Cli.main_loop].
  destruct (Cli.main_round pickle s) as [[e|b] s1] eqn:E; [discriminate|].
  rewrite (main_round_more extra s b s1 E).
  destruct b.
  - intros H. exact (IH more s1 s' H).
  - now intros [= <-].
Qed.

End Unread.

(** X21. [main] reads nothing after the choice "6": when it returns on some
    lines of input, it returns on these lines followed by any others, with
    the same manager and the same output, and the other lines are left
    unread. *)
Theorem main_leaves_the_rest_unread
        (pickle : pickle_module) (file : option bytes)
        (lines extra : list string) (s' : Cli.session) :
  Cli.main pickle file lines = Some (inr tt, s') ->
  Cli.main pickle file (lines ++ extra)
  = Some (inr tt,
          Cli.mkSession (Cli.manager s') (Cli.stdin s' ++ extra)
            (Cli.console s')).
Proof.
  unfold Cli.main.
  destruct (ContactManager.start pickle file) as [[e|u] m]; [discriminate|].
  intros H.
  rewrite length_app.
  replace (S (List.length lines + List.length extra))
    with (List.length extra + S (List.length lines)) by lia.
  exact (main_loop_more pickle extra (S (List.length lines)) (List.length extra)
           (Cli.mkSession m lines []) s' H).
Qed.

Lemma main_leaves_the_rest_unread_witness :
  exists s',
    Cli.main RefPickle.pickle None ["4"; "6"] = Some (inr tt, s')
    /\ Cli.main RefPickle.pickle None (["4"; "6"] ++ ["1"; "Bob"])
       = Some (inr tt,
               Cli.mkSession (Cli.manager s') (Cli.stdin s' ++ ["1"; "Bob"])
                 (Cli.console s')).
Proof.
  eexists. split.
  - vm_compute. reflexivity.
  - apply (main_leaves_the_rest_unread RefPickle.pickle None ["4"; "6"]
             ["1"; "Bob"]).
    vm_compute. reflexivity.
Defined.
